(** * The FGD parser of blender-bfg ([src/blender_bfg/entity_properties.py])

    A shallow embedding of [FGDParser] and of the records it builds, and
    the properties of the parser that the specification states.

    Conventions of the embedding.
    - A Python [str] is a [string]; its characters are the code points
      U+0000..U+00FF, classified the way [str.isspace], [str.isdigit],
      [str.isalnum] and [str.lower] classify them.
    - [self.content] and [self.length] never change after [__init__]:
      they are fixed for a whole section.  [self.position] and
      [self.last_attribute] live in the state that every method threads.
    - [Attribute] objects are mutated after they were stored in a list
      ([self.last_attribute.choices = choices]), so they live in a heap
      and the lists hold references.  The heap and the standard output
      belong to the interpreter, not to one parser object.
    - A [while] loop is iterated at most [fuel] times; running out of fuel
      is a result of its own ([OutOfFuel]), told apart from a normal
      return and from a raised [IndexError].
    - [json.loads] is not code of this repository: the parser is
      parameterised by it. *)

From Stdlib Require Import String Ascii List Arith ZArith Lia Bool.
From Stdlib Require Floats.
Import ListNotations.
Open Scope string_scope.
Open Scope list_scope.
Open Scope nat_scope.

Infix "+++" := String.append (right associativity, at level 60).

(* ================================================================== *)
(** ** Characters and strings *)

Definition code (c : ascii) : nat := nat_of_ascii c.

Definition between (lo hi : nat) (c : ascii) : bool :=
  (lo <=? code c) && (code c <=? hi).

(** [str.isspace] on U+0000..U+00FF:
    TAB..CR, FS..US, SPACE, NEL and NO-BREAK SPACE. *)
Definition isspace (c : ascii) : bool :=
  between 9 13 c || between 28 32 c || (code c =? 133) || (code c =? 160).

(** [str.isdigit]: 0..9 and the superscripts 2, 3, 1. *)
Definition isdigit (c : ascii) : bool :=
  between 48 57 c || (code c =? 178) || (code c =? 179) || (code c =? 185).

(** [str.isalnum]: letters, digits and the vulgar fractions of Latin-1. *)
Definition isalnum (c : ascii) : bool :=
  between 48 57 c || between 65 90 c || between 97 122 c
  || (code c =? 170) || (code c =? 178) || (code c =? 179)
  || (code c =? 181) || (code c =? 185) || (code c =? 186)
  || between 188 190 c || between 192 214 c || between 216 246 c
  || between 248 255 c.

(** [str.lower] on one character. *)
Definition lower_char (c : ascii) : ascii :=
  if between 65 90 c || between 192 214 c || between 216 222 c
  then ascii_of_nat (code c + 32) else c.

Definition dquote : ascii := "034"%char.
Definition squote : ascii := "039"%char.
Definition newline : ascii := "010"%char.

Fixpoint map_string (f : ascii -> ascii) (s : string) : string :=
  match s with
  | EmptyString => EmptyString
  | String c s' => String (f c) (map_string f s')
  end.

(** [s.lower()] *)
Definition lower (s : string) : string := map_string lower_char s.

(** [s.replace(single_quote, double_quote)] *)
Definition replace_squote (s : string) : string :=
  map_string (fun c => if (c =? squote)%char then dquote else c) s.

(** [s[a:b]] for [0 <= a]; out-of-range bounds are clamped. *)
Definition slice (a b : nat) (s : string) : string := substring a (b - a) s.

(** [s[a:]] *)
Fixpoint slice_from (a : nat) (s : string) : string :=
  match a, s with
  | O, _ => s
  | S a', String _ s' => slice_from a' s'
  | S _, EmptyString => EmptyString
  end.

(** [s.startswith(p)] *)
Fixpoint startswith (p s : string) : bool :=
  match p, s with
  | EmptyString, _ => true
  | String _ _, EmptyString => false
  | String a p', String b s' => (a =? b)%char && startswith p' s'
  end.

Fixpoint lstrip (s : string) : string :=
  match s with
  | String c s' => if isspace c then lstrip s' else s
  | EmptyString => EmptyString
  end.

Fixpoint rstrip (s : string) : string :=
  match s with
  | EmptyString => EmptyString
  | String c s' =>
      match rstrip s' with
      | EmptyString => if isspace c then EmptyString else String c EmptyString
      | r => String c r
      end
  end.

(** [s.strip()] *)
Definition strip (s : string) : string := rstrip (lstrip s).

Definition all_chars (p : ascii -> bool) (s : string) : bool :=
  forallb p (list_ascii_of_string s).

Definition is_empty (s : string) : bool :=
  match s with EmptyString => true | _ => false end.

(* ================================================================== *)
(** ** Data model *)

Set Warnings "-register-all".

(** The values [json.loads] returns.  Python's [None] is [JNull], so a
    field of type [Optional[Dict[str, Any]]] is a [json]. *)
Inductive json : Type :=
| JNull
| JBool (b : bool)
| JInt (n : Z)
| JFloat (literal : string)
| JString (s : string)
| JList (items : list json)
| JDict (items : list (string * json)).

(** The three ways out of [json.loads] that [parse_entity] tells apart. *)
Inductive json_result : Type :=
| JsonValue (v : json)
| JSONDecodeError
| JsonException (message : string).

Module Choice.
Record t : Type := Make { value : string; description : string }.
End Choice.

Module Attribute.
Record t : Type := Make {
  name : string;
  type : string;
  description : string;
  default : option string;
  choices : option (list Choice.t)
}.

Definition set_choices (cs : option (list Choice.t)) (a : t) : t :=
  Make (name a) (type a) (description a) (default a) cs.
End Attribute.

Module EntityClass.
(** [attributes] is a list of [A]: of references while the parser
    runs, of [Attribute.t] once the result is read. *)
Record t (A : Type) : Type := Make {
  class_type : string;
  base : option string;
  color : option string;
  size : option string;
  model : json;
  classname : string;
  description : string;
  attributes : list A
}.
Arguments Make {A}.
Arguments class_type {A}.
Arguments base {A}.
Arguments color {A}.
Arguments size {A}.
Arguments model {A}.
Arguments classname {A}.
Arguments description {A}.
Arguments attributes {A}.

Definition map {A B} (f : list A -> list B) (e : t A) : t B :=
  Make (class_type e) (base e) (color e) (size e) (model e)
       (classname e) (description e) (f (attributes e)).
End EntityClass.

(** A reference to an [Attribute] object: its index in the heap. *)
Definition ref : Type := nat.

(* ================================================================== *)
(** ** State, results and the monad of the methods *)

Record state : Type := mkState {
  position : nat;                    (* self.position *)
  last_attribute : option ref;       (* self.last_attribute *)
  heap : list Attribute.t;           (* the Attribute objects allocated *)
  stdout : list string               (* the lines printed so far *)
}.

Inductive exn : Type := IndexError.

Inductive result (A : Type) : Type :=
| Ok (a : A) (st : state)
| Raise (e : exn) (st : state)
| OutOfFuel.
Arguments Ok {A}.
Arguments Raise {A}.
Arguments OutOfFuel {A}.

Definition M (A : Type) : Type := state -> result A.

Definition ret {A} (a : A) : M A := fun st => Ok a st.

Definition bind {A B} (m : M A) (k : A -> M B) : M B :=
  fun st =>
    match m st with
    | Ok a st' => k a st'
    | Raise e st' => Raise e st'
    | OutOfFuel => OutOfFuel
    end.

Definition raise {A} (e : exn) : M A := fun st => Raise e st.

Declare Scope monad_scope.
Delimit Scope monad_scope with monad.
Notation "x <- m ;; k" := (bind m (fun x => k))
  (at level 61, m at next level, right associativity) : monad_scope.
Notation "' p <- m ;; k" := (bind m (fun x => match x with p => k end))
  (at level 61, p pattern, m at next level, right associativity) : monad_scope.
Notation "m ;; k" := (bind m (fun _ => k))
  (at level 61, right associativity) : monad_scope.
Open Scope monad_scope.

(** Short-circuit [and] / [or] of two tests that may raise. *)
Definition andM (a b : M bool) : M bool := x <- a ;; if x then b else ret false.
Definition orM (a b : M bool) : M bool := x <- a ;; if x then ret true else b.
Infix "&&&" := andM (at level 40, left associativity) : monad_scope.
Infix "|||" := orM (at level 50, left associativity) : monad_scope.

(** How an iteration of a loop body ends: fall through or [continue]
    ([Next]), or [break]. *)
Inductive ctl : Type := Next | Break.

(** [while cond: body], over the local variables [S] the loop updates. *)
Fixpoint while {S : Type} (fuel : nat) (cond : S -> M bool)
    (body : S -> M (ctl * S)) (s : S) : M S :=
  match fuel with
  | O => fun _ => OutOfFuel
  | Datatypes.S fuel' =>
      c <- cond s ;;
      if c then
        r <- body s ;;
        match r with
        | (Next, s') => while fuel' cond body s'
        | (Break, s') => ret s'
        end
      else ret s
  end.

(** *** Primitive accesses to the state *)

Definition get_position : M nat := fun st => Ok (position st) st.

Definition set_position (p : nat) (st : state) : state :=
  mkState p (last_attribute st) (heap st) (stdout st).

(** [self.position += n] *)
Definition advance (n : nat) : M unit :=
  fun st => Ok tt (set_position (position st + n) st).

(** [print(msg)] *)
Definition print (msg : string) : M unit :=
  fun st => Ok tt (mkState (position st) (last_attribute st) (heap st)
                           (stdout st ++ [msg])).

Definition get_last_attribute : M (option ref) :=
  fun st => Ok (last_attribute st) st.

(** [self.last_attribute = attr] *)
Definition set_last_attribute (r : option ref) : M unit :=
  fun st => Ok tt (mkState (position st) r (heap st) (stdout st)).

(** [Attribute(...)]: a new object, at the end of the heap. *)
Definition new_attribute (a : Attribute.t) : M ref :=
  fun st => Ok (List.length (heap st))
               (mkState (position st) (last_attribute st) (heap st ++ [a])
                        (stdout st)).

Fixpoint update {A} (i : nat) (f : A -> A) (l : list A) {struct l} : list A :=
  match l, i with
  | [], _ => []
  | x :: l', O => f x :: l'
  | x :: l', Datatypes.S i' => x :: update i' f l'
  end.

(** [r.choices = cs] *)
Definition assign_choices (r : ref) (cs : list Choice.t) : M unit :=
  fun st => Ok tt (mkState (position st) (last_attribute st)
                           (update r (Attribute.set_choices (Some cs)) (heap st))
                           (stdout st)).

(* ================================================================== *)
(** ** The methods of [FGDParser] *)

Section FGDParser.

Variable json_loads : string -> json_result.
Variable content : string.     (* self.content *)
Variable fuel : nat.           (* iterations allowed to each loop *)

(** [self.length] *)
Definition length : nat := String.length content.

(** [self.position < self.length] and its negation. *)
Definition in_bounds : M bool :=
  fun st => Ok (position st <? length) st.
Definition at_end : M bool :=
  fun st => Ok (length <=? position st) st.

(** [self.content[self.position]] *)
Definition peek : M ascii :=
  fun st =>
    match String.get (position st) content with
    | Some c => Ok c st
    | None => Raise IndexError st
    end.

(** [self.content[self.position:].startswith(p)] *)
Definition looking_at (p : string) : M bool :=
  fun st => Ok (startswith p (slice_from (position st) content)) st.

Definition consume_whitespace : M unit :=
  while fuel
    (fun _ => in_bounds &&& (c <- peek ;; ret (isspace c)))
    (fun _ => advance 1 ;; ret (Next, tt))
    tt.

Definition skip_line : M unit :=
  while fuel
    (fun _ => in_bounds &&& (c <- peek ;; ret (negb (c =? newline)%char)))
    (fun _ => advance 1 ;; ret (Next, tt))
    tt ;;
  advance 1.

Definition skip_to_next_line : M unit :=
  while fuel
    (fun _ => in_bounds &&& (c <- peek ;; ret (negb (c =? newline)%char)))
    (fun _ => advance 1 ;; ret (Next, tt))
    tt ;;
  advance 1.

Definition parse_number : M string :=
  start <- get_position ;;
  while fuel
    (fun _ => in_bounds &&&
              (c <- peek ;;
               ret (isdigit c || ((c =? ".")%char || (c =? "-")%char))))
    (fun _ => advance 1 ;; ret (Next, tt))
    tt ;;
  p <- get_position ;;
  ret (slice start p content).

Definition parse_identifier : M string :=
  consume_whitespace ;;
  start <- get_position ;;
  while fuel
    (fun _ => in_bounds &&&
              (c <- peek ;;
               ret (isalnum c || ((c =? "_")%char || (c =? ".")%char))))
    (fun _ => advance 1 ;; ret (Next, tt))
    tt ;;
  p <- get_position ;;
  ret (slice start p content).

Definition max_iterations : Z := 1000.

Definition parse_parentheses : M (option string) :=
  consume_whitespace ;;
  stop <- at_end ||| (c <- peek ;; ret (negb (c =? "(")%char)) ;;
  if stop then ret None
  else
    advance 1 ;;
    start <- get_position ;;
    '(iterations, parentheses_count) <-
      while fuel
        (fun '(iterations, parentheses_count) =>
           in_bounds &&& ret (0 <? parentheses_count)%Z
                     &&& ret (iterations <? max_iterations)%Z)
        (fun '(iterations, parentheses_count) =>
           char <- peek ;;
           let parentheses_count :=
             if (char =? "(")%char then (parentheses_count + 1)%Z
             else if (char =? ")")%char then (parentheses_count - 1)%Z
             else parentheses_count in
           advance 1 ;;
           ret (Next, ((iterations + 1)%Z, parentheses_count)))
        (0%Z, 1%Z) ;;
    if (0 <? parentheses_count)%Z || (max_iterations <=? iterations)%Z then
      print ("Warning: Possible parsing error near: "
             +++ slice start (start + 50) content +++ "...") ;;
      ret None
    else
      p <- get_position ;;
      ret (Some (strip (slice start (p - 1) content))).

Definition parse_string : M string :=
  consume_whitespace ;;
  stop <- at_end ||| (c <- peek ;; ret (negb (c =? dquote)%char)) ;;
  if stop then ret ""
  else
    advance 1 ;;
    start <- get_position ;;
    iterations <-
      while fuel
        (fun iterations =>
           in_bounds &&& (c <- peek ;; ret (negb (c =? dquote)%char))
                     &&& ret (iterations <? max_iterations)%Z)
        (fun iterations => advance 1 ;; ret (Next, (iterations + 1)%Z))
        0%Z ;;
    if (max_iterations <=? iterations)%Z then
      print ("Warning: Possible parsing error in string near: "
             +++ slice start (start + 50) content +++ "...") ;;
      ret ""
    else
      p <- get_position ;;
      let result := strip (slice start p content) in
      advance 1 ;;
      ret result.

Definition parse_model_parameter : M string :=
  consume_whitespace ;;
  stop <- at_end ;;
  if stop then ret ""
  else
    c <- peek ;;
    if negb (c =? "(")%char then ret ""
    else
      advance 1 ;;
      start <- get_position ;;
      while fuel
        (fun _ => in_bounds)
        (fun '(brace_count, paren_count) =>
           char <- peek ;;
           let '(found, brace_count, paren_count) :=
             if (char =? "{")%char then
               (false, (brace_count + 1)%Z, paren_count)
             else if (char =? "}")%char then
               (false, (brace_count - 1)%Z, paren_count)
             else if (char =? "(")%char && (brace_count =? 0)%Z then
               (false, brace_count, (paren_count + 1)%Z)
             else if (char =? ")")%char && (brace_count =? 0)%Z then
               ((paren_count - 1 =? 0)%Z, brace_count, (paren_count - 1)%Z)
             else (false, brace_count, paren_count) in
           if found then ret (Break, (brace_count, paren_count))
           else advance 1 ;; ret (Next, (brace_count, paren_count)))
        (0%Z, 1%Z) ;;
      p <- get_position ;;
      let result := strip (slice start p content) in
      advance 1 ;;
      ret result.

Definition parse_choices : M (list Choice.t) :=
  advance 1 ;;
  consume_whitespace ;;
  c <- peek ;;
  if negb (c =? "[")%char then ret []
  else
    advance 1 ;;
    while fuel
      (fun _ => in_bounds)
      (fun choices =>
         consume_whitespace ;;
         c <- peek ;;
         if (c =? "]")%char then advance 1 ;; ret (Break, choices)
         else
           comment <- looking_at "//" ;;
           if comment then skip_line ;; ret (Next, choices)
           else
             value <-
               while fuel
                 (fun _ => in_bounds &&&
                           (c <- peek ;; ret (isdigit c || (c =? "-")%char)))
                 (fun value =>
                    c <- peek ;;
                    advance 1 ;;
                    ret (Next, value +++ String c ""))
                 "" ;;
             if is_empty value then skip_to_next_line ;; ret (Next, choices)
             else
               consume_whitespace ;;
               c <- peek ;;
               if (c =? ":")%char then
                 advance 1 ;;
                 consume_whitespace ;;
                 c <- peek ;;
                 if (c =? dquote)%char then
                   description <- parse_string ;;
                   ret (Next,
                        choices ++ [Choice.Make (strip value) description])
                 else skip_to_next_line ;; ret (Next, choices)
               else skip_to_next_line ;; ret (Next, choices))
      [].

(** [name[0]] *)
Definition first_char (s : string) : M ascii :=
  match s with
  | String c _ => ret c
  | EmptyString => raise IndexError
  end.

Definition parse_attribute : M (option ref) :=
  start_pos <- get_position ;;
  consume_whitespace ;;
  stop <- at_end ;;
  if stop then ret None
  else
    c <- peek ;;
    if isdigit c then skip_to_next_line ;; ret None
    else
      name <- parse_identifier ;;
      if is_empty name then ret None
      else
        consume_whitespace ;;
        (* everything after the test for a choices block *)
        let attribute : M (option ref) :=
          attr_type <- parse_parentheses ;;
          if match attr_type with
             | None => true
             | Some t => is_empty t
             end
          then
            c0 <- first_char name ;;
            (if negb (isdigit c0) then
               print ("Warning: Failed to parse type for attribute near: "
                      +++ slice start_pos (start_pos + 50) content +++ "...")
             else ret tt) ;;
            ret None
          else
            let attr_type :=
              match attr_type with Some t => t | None => "" end in
            consume_whitespace ;;
            colon <- in_bounds &&& (c <- peek ;; ret (c =? ":")%char) ;;
            '(description, default) <-
              (if colon then
                 advance 1 ;;
                 consume_whitespace ;;
                 description <- parse_string ;;
                 consume_whitespace ;;
                 colon <- in_bounds &&& (c <- peek ;; ret (c =? ":")%char) ;;
                 if colon then
                   advance 1 ;;
                   consume_whitespace ;;
                   c <- peek ;;
                   if (c =? dquote)%char then
                     default <- parse_string ;;
                     ret (description, Some default)
                   else if isdigit c || (c =? "-")%char then
                     default <- parse_number ;;
                     ret (description, Some default)
                   else ret (description, None)
                 else ret (description, None)
               else ret ("", None)) ;;
            attr <- new_attribute
                      (Attribute.Make name attr_type description default None) ;;
            set_last_attribute (Some attr) ;;
            ret (Some attr) in
        if (name =? "choices")%string then
          c <- peek ;;
          if (c =? "=")%char then
            choices <- parse_choices ;;
            last <- get_last_attribute ;;
            match last with
            | Some r => assign_choices r choices
            | None => ret tt
            end ;;
            ret None
          else attribute
        else attribute.

(** The value of the [model] parameter: what [json.loads] decodes
    or, when it raises, the raw text under the key [path]. *)
Definition path_fallback (model_str : string) : json :=
  JDict [("path", JString model_str)].

Definition decode_model (model_str : string) : M json :=
  match json_loads (replace_squote model_str) with
  | JsonValue v => ret v
  | JSONDecodeError => ret (path_fallback model_str)
  | JsonException e =>
      print ("Warning: Failed to parse model parameter: " +++ e) ;;
      ret (path_fallback model_str)
  end.

(** The local variables of the parameter loop of [parse_entity]. *)
Record params : Type := mkParams {
  p_color : option string;
  p_size : option string;
  p_base : option string;
  p_model : json
}.

(** One turn of the parameter loop of [parse_entity]: the parameter
    under the cursor is read into the local variables. *)
Definition parse_parameter (ps : params) : M (ctl * params) :=
  is_color <- looking_at "color" ;;
  if is_color then
    advance 5 ;;
    color <- parse_parentheses ;;
    ret (Next, mkParams color (p_size ps) (p_base ps) (p_model ps))
  else
    is_size <- looking_at "size" ;;
    if is_size then
      advance 4 ;;
      size <- parse_parentheses ;;
      ret (Next, mkParams (p_color ps) size (p_base ps) (p_model ps))
    else
      is_base <- looking_at "base" ;;
      if is_base then
        advance 4 ;;
        base <- parse_parentheses ;;
        ret (Next, mkParams (p_color ps) (p_size ps) base (p_model ps))
      else
        is_model <- looking_at "model" ;;
        if is_model then
          advance 5 ;;
          model_str <- parse_model_parameter ;;
          model <- decode_model model_str ;;
          ret (Next, mkParams (p_color ps) (p_size ps) (p_base ps) model)
        else
          while fuel
            (fun _ =>
               in_bounds &&& (c <- peek ;; ret (negb (isspace c)))
                         &&& (c <- peek ;; ret (negb (c =? "=")%char)))
            (fun _ => advance 1 ;; ret (Next, tt))
            tt ;;
          consume_whitespace ;;
          ret (Next, ps).

Definition parse_entity : M (option (EntityClass.t ref)) :=
  advance 1 ;;
  class_type <- parse_identifier ;;
  let class_type := lower class_type in
  consume_whitespace ;;
  ps <-
    while fuel
      (fun _ => in_bounds &&& (c <- peek ;; ret (negb (c =? "=")%char)))
      parse_parameter
      (mkParams None None None JNull) ;;
  advance 1 ;;
  consume_whitespace ;;
  classname <- parse_identifier ;;
  consume_whitespace ;;
  c <- peek ;;
  description <-
    (if (c =? ":")%char then
       advance 1 ;;
       consume_whitespace ;;
       parse_string
     else ret "") ;;
  consume_whitespace ;;
  bracket <- in_bounds &&& (c <- peek ;; ret (c =? "[")%char) ;;
  attributes <-
    (if bracket then
       advance 1 ;;
       attributes <-
         while fuel
           (fun _ => in_bounds)
           (fun attributes =>
              consume_whitespace ;;
              stop <- at_end ||| (c <- peek ;; ret (c =? "]")%char) ;;
              if stop then ret (Break, attributes)
              else
                c <- peek ;;
                if (c =? newline)%char then
                  advance 1 ;;
                  ret (Next, attributes)
                else
                  comment <- looking_at "//" ;;
                  if comment then skip_line ;; ret (Next, attributes)
                  else
                    attribute <- parse_attribute ;;
                    match attribute with
                    | Some a => ret (Next, attributes ++ [a])
                    | None => skip_to_next_line ;; ret (Next, attributes)
                    end)
           [] ;;
       closing <- in_bounds &&& (c <- peek ;; ret (c =? "]")%char) ;;
       (if closing then advance 1 else ret tt) ;;
       ret attributes
     else ret []) ;;
  ret (Some (EntityClass.Make class_type (p_base ps) (p_color ps) (p_size ps)
               (p_model ps) classname description attributes)).

Definition parse : M (list (EntityClass.t ref)) :=
  while fuel
    (fun _ => in_bounds)
    (fun entities =>
       consume_whitespace ;;
       stop <- at_end ;;
       if stop then ret (Break, entities)
       else
         comment <- looking_at "//" ;;
         if comment then skip_line ;; ret (Next, entities)
         else
           c <- peek ;;
           if (c =? "@")%char then
             entity <- parse_entity ;;
             match entity with
             | Some e => ret (Next, entities ++ [e])
             | None => ret (Next, entities)
             end
           else advance 1 ;; ret (Next, entities))
    [].

End FGDParser.

(* ================================================================== *)
(** ** Running a parser *)

(** [FGDParser(content)]: the cursor at 0 and no last attribute, in an
    interpreter whose heap and output are [h] and [out]. *)
Definition FGDParser (h : list Attribute.t) (out : list string) : state :=
  mkState 0 None h out.

(** Loops of a parse of [content] are given [len(content) + 1] iterations. *)
Definition budget (content : string) : nat := S (String.length content).

(** Reading the objects behind the references, as [asdict] does. *)
Definition deref (h : list Attribute.t) (rs : list ref) : list Attribute.t :=
  flat_map (fun r => match nth_error h r with Some a => [a] | None => [] end) rs.

Definition snapshot (h : list Attribute.t) (es : list (EntityClass.t ref))
  : list (EntityClass.t Attribute.t) :=
  List.map (EntityClass.map (deref h)) es.

(** What a caller of [FGDParser(content).parse()] observes. *)
Inductive outcome : Type :=
| Returned (entities : list (EntityClass.t Attribute.t)) (printed : list string)
| Raised (e : exn) (printed : list string)
| Diverged.

Definition observe (r : result (list (EntityClass.t ref))) : outcome :=
  match r with
  | Ok es st => Returned (snapshot (heap st) es) (stdout st)
  | Raise e st => Raised e (stdout st)
  | OutOfFuel => Diverged
  end.

Definition run_parse (json_loads : string -> json_result) (content : string)
  : outcome :=
  observe (parse json_loads content (budget content) (FGDParser [] [])).

(** The texts of the examples are written with these: a quoted string
    and a line break. *)
Definition q (s : string) : string := String dquote (s +++ String dquote "").
Definition nl : string := String newline "".

(* ================================================================== *)
(** ** Predicates of the statements *)

(** [wp m st Q E]: run from [st], [m] does not run out of fuel; it
    returns a value and a state that satisfy [Q], or raises in a state
    that satisfies [E]. *)
Definition wp {A} (m : M A) (st : state)
    (Q : A -> state -> Prop) (E : state -> Prop) : Prop :=
  match m st with
  | Ok a st' => Q a st'
  | Raise _ st' => E st'
  | OutOfFuel => False
  end.

(** The cursor moved forward, if at all, and no object changed. *)
Definition scan_le (st st' : state) : Prop :=
  position st <= position st' /\
  heap st' = heap st /\ last_attribute st' = last_attribute st.

(** The character under the cursor, if any. *)
Definition cur (content : string) (st : state) : option ascii :=
  String.get (position st) content.

(** A raise happens at the end of the input only. *)
Definition raised_at (content : string) (st st' : state) : Prop :=
  scan_le st st' /\ length content <= position st'.

(** [cond] evaluates [p] on the character under the cursor, and is
    false at the end of the input. *)
Definition tests (content : string) (p : ascii -> bool) (cond : M bool) : Prop :=
  forall st,
    cond st = Ok (match cur content st with Some c => p c | None => false end) st.

(** The characters of the key of a choice entry. *)
Definition key_char (c : ascii) : bool := isdigit c || (c =? "-")%char.

(** A choice whose value is a key: not empty, made of key characters,
    with nothing for [strip] to remove. *)
Definition good_choice (c : Choice.t) : Prop :=
  Choice.value c <> "" /\
  all_chars key_char (Choice.value c) = true /\
  strip (Choice.value c) = Choice.value c.

Definition good_attribute (a : Attribute.t) : Prop :=
  forall cs, Attribute.choices a = Some cs -> Forall good_choice cs.

Definition good_heap (st : state) : Prop := Forall good_attribute (heap st).

(** What one call of [parse_attribute] does to the objects: nothing, or
    a new attribute without choices that becomes the last attribute, or
    new choices for the attribute that was the last one. *)
Inductive attribute_step (st : state) : option ref -> state -> Prop :=
| step_nothing st' :
    heap st' = heap st ->
    last_attribute st' = last_attribute st ->
    attribute_step st None st'
| step_new a st' :
    heap st' = heap st ++ [a] ->
    Attribute.choices a = None ->
    last_attribute st' = Some (List.length (heap st)) ->
    attribute_step st (Some (List.length (heap st))) st'
| step_choices r cs st' :
    last_attribute st = Some r ->
    last_attribute st' = Some r ->
    heap st' = update r (Attribute.set_choices (Some cs)) (heap st) ->
    Forall good_choice cs ->
    attribute_step st None st'.

(** The objects a parser can reach: the attributes and the reference it
    keeps to the last of them. *)
Definition objects (st : state) : list Attribute.t * option ref :=
  (heap st, last_attribute st).

(** The objects change by the steps of [parse_attribute] only. *)
Inductive evolves
  : list Attribute.t * option ref -> list Attribute.t * option ref -> Prop :=
| evolves_refl o : evolves o o
| evolves_step st r st' o :
    attribute_step st r st' ->
    evolves (objects st') o ->
    evolves (objects st) o.

(** The cursor did not move back, a heap of attributes with good
    choices stayed one, and the objects changed by attribute steps. *)
Definition grows (st st' : state) : Prop :=
  position st <= position st' /\
  (good_heap st -> good_heap st') /\
  evolves (objects st) (objects st').

(** *** The same parse in another interpreter state

    A parser that starts when the heap already holds [k] objects gives
    every object it allocates an index that is [k] higher.  [shift]
    moves the references inside a value accordingly; values without
    references are left as they are. *)
Class Shift (k : nat) (A : Type) : Type := shift : A -> A.

#[global] Typeclasses Opaque ref.

#[global] Instance Shift_ref k : Shift k ref := fun r => k + r.
#[global] Instance Shift_unit k : Shift k unit := fun x => x.
#[global] Instance Shift_bool k : Shift k bool := fun x => x.
#[global] Instance Shift_nat k : Shift k nat := fun x => x.
#[global] Instance Shift_Z k : Shift k Z := fun x => x.
#[global] Instance Shift_ascii k : Shift k ascii := fun x => x.
#[global] Instance Shift_string k : Shift k string := fun x => x.
#[global] Instance Shift_json k : Shift k json := fun x => x.
#[global] Instance Shift_params k : Shift k params := fun x => x.
#[global] Instance Shift_ctl k : Shift k ctl := fun x => x.
#[global] Instance Shift_opt_string k : Shift k (option string) := fun x => x.
#[global] Instance Shift_choices k : Shift k (list Choice.t) := fun x => x.
#[global] Instance Shift_opt_ref k : Shift k (option ref) :=
  option_map (shift (k := k)).
#[global] Instance Shift_refs k : Shift k (list ref) := List.map (shift (k := k)).
#[global] Instance Shift_entity k : Shift k (EntityClass.t ref) :=
  EntityClass.map (shift (k := k)).
#[global] Instance Shift_opt_entity k : Shift k (option (EntityClass.t ref)) :=
  option_map (shift (k := k)).
#[global] Instance Shift_entities k : Shift k (list (EntityClass.t ref)) :=
  List.map (shift (k := k)).
#[global] Instance Shift_prod k A B (SA : Shift k A) (SB : Shift k B)
  : Shift k (A * B) :=
  fun p => (shift (fst p), shift (snd p)).

(** The state of a parser, seen from an interpreter that held the
    objects [h] and had printed [out] before the parser was made. *)
Definition lift (h : list Attribute.t) (out : list string) (st : state) : state :=
  mkState (position st) (shift (k := List.length h) (last_attribute st))
          (h ++ heap st) (out ++ stdout st).

Definition rmap {A} (f : A -> A) (g : state -> state) (r : result A) : result A :=
  match r with
  | Ok a st => Ok (f a) (g st)
  | Raise e st => Raise e (g st)
  | OutOfFuel => OutOfFuel
  end.

(** [m1], run in the larger interpreter state, does what [m2] does in
    the smaller one. *)
Definition sim (h : list Attribute.t) (out : list string) {A}
    {SA : Shift (List.length h) A} (m1 m2 : M A) : Prop :=
  forall st, m1 (lift h out st) = rmap shift (lift h out) (m2 st).

(** *** Texts that end inside a string or a group *)

(** No closing quote at or after position [p] of the text. *)
Definition unterminated (content : string) (p : nat) : Prop :=
  forall i c, p <= i -> String.get i content = Some c -> c <> dquote.

(** Read from depth [d], the text [s] never closes the group: the count
    of open parentheses stays positive to the end of [s]. *)
Fixpoint stays_open (d : Z) (s : string) : bool :=
  match s with
  | EmptyString => true
  | String c s' =>
      let d' := if (c =? "(")%char then (d + 1)%Z
                else if (c =? ")")%char then (d - 1)%Z else d in
      (0 <? d')%Z && stays_open d' s'
  end.

(** *** More iterations

    [m2] is [m1] with more iterations allowed to its loops: where [m1]
    does not run out of them, [m2] does what [m1] does. *)
Definition mono {A} (m1 m2 : M A) : Prop :=
  forall st, m1 st <> OutOfFuel -> m2 st = m1 st.


(** The outcome of a parse that started after [out] had been printed. *)
Definition after (out : list string) (o : outcome) : outcome :=
  match o with
  | Returned es printed => Returned es (out ++ printed)
  | Raised e printed => Raised e (out ++ printed)
  | Diverged => Diverged
  end.

(** *** Inputs of the examples *)

(** Stands for [json.loads] where no text is decoded, or none that is
    JSON: it raises [JSONDecodeError]. *)
Definition not_json (text : string) : json_result := JSONDecodeError.

(** [@PointClass color(255 0 0) = foo : "desc" [ attr(integer) : "a" : "3" ]] *)
Definition pointclass_foo : string :=
  "@PointClass color(255 0 0) = foo : " +++ q "desc" +++
  " [ attr(integer) : " +++ q "a" +++ " : " +++ q "3" +++ " ]".

(** Two attributes, the second one followed by a choices block. *)
Definition two_attributes : string :=
  "@PointClass = lamp : " +++ q "A lamp" +++ " [" +++ nl +++
  "  first(integer) : " +++ q "First" +++ nl +++
  "  second(integer) : " +++ q "Second" +++ nl +++
  "  choices = [" +++ nl +++
  "    0 : " +++ q "Off" +++ nl +++
  "    1 : " +++ q "On" +++ nl +++
  "  ]" +++ nl +++
  "]".


(** An entity that ends after its classname. *)
Definition no_description : string := "@PointClass = foo".

(** A description whose closing quote is missing. *)
Definition open_string : string := "@PointClass = foo : " +++ String dquote "abc".

(** A size parameter whose closing parenthesis is missing. *)
Definition open_size : string :=
  "@PointClass size(-8 -8 -8 8 8 8 = foo : " +++ q "desc" +++ " []".


(** Entities that end too early: after the class type, after the colon
    that announces a default value, after the word [choices], and
    inside a choices block. *)
Definition no_classname : string := "@PointClass".
Definition no_default : string :=
  "@PointClass = foo [ x(string) : " +++ q "d" +++ " :".
Definition no_equals : string := "@PointClass = foo [ choices".
Definition open_choices : string :=
  "@PointClass = foo [ x(string) choices = [ 1 : " +++ q "a" +++ " ".

(** The records of the examples. *)
Definition attr_a : Attribute.t :=
  Attribute.Make "attr" "integer" "a" (Some "3") None.
Definition entity_foo : EntityClass.t Attribute.t :=
  EntityClass.Make "pointclass" None (Some "255 0 0") None JNull "foo" "desc"
    [attr_a].
Definition off_on : list Choice.t :=
  [Choice.Make "0" "Off"; Choice.Make "1" "On"].
Definition entity_lamp : EntityClass.t Attribute.t :=
  EntityClass.Make "pointclass" None None None JNull "lamp" "A lamp"
    [Attribute.Make "first" "integer" "First" None None;
     Attribute.Make "second" "integer" "Second" None (Some off_on)].
Definition entity_plain (description : string) (model : json)
  : EntityClass.t Attribute.t :=
  EntityClass.Make "pointclass" None None None model "foo" description [].

(* ================================================================== *)
(** ** Further predicates of the methods *)

(** The characters [parse_number] and [parse_identifier] step over. *)
Definition number_char (c : ascii) : bool :=
  isdigit c || ((c =? ".")%char || (c =? "-")%char).
Definition identifier_char (c : ascii) : bool :=
  isalnum c || ((c =? "_")%char || (c =? ".")%char).

(** Every character but [d]. *)
Definition not_char (d c : ascii) : bool := negb (c =? d)%char.

(** [s] is empty or starts with a character that [p] rejects. *)
Definition stops (p : ascii -> bool) (s : string) : Prop :=
  forall c s', s = String c s' -> p c = false.

(** The count of open parentheses after [s], read from depth [d]. *)
Fixpoint depth (d : Z) (s : string) : Z :=
  match s with
  | EmptyString => d
  | String c s' =>
      depth (if (c =? "(")%char then (d + 1)%Z
             else if (c =? ")")%char then (d - 1)%Z else d) s'
  end.

(** [n] times the character [c]. *)
Fixpoint replicate (n : nat) (c : ascii) : string :=
  match n with
  | O => EmptyString
  | S n' => String c (replicate n' c)
  end.

(** The loop of [parse_parentheses], from the values [s] of [iterations]
    and [parentheses_count]. *)
Definition paren_loop (content : string) (fuel : nat) (s : Z * Z) : M (Z * Z) :=
  while fuel
    (fun '(iterations, parentheses_count) =>
       in_bounds content &&& ret (0 <? parentheses_count)%Z
                         &&& ret (iterations <? max_iterations)%Z)
    (fun '(iterations, parentheses_count) =>
       char <- peek content ;;
       let parentheses_count :=
         if (char =? "(")%char then (parentheses_count + 1)%Z
         else if (char =? ")")%char then (parentheses_count - 1)%Z
         else parentheses_count in
       advance 1 ;;
       ret (Next, ((iterations + 1)%Z, parentheses_count)))
    s.

(** The loop of [parse_model_parameter], from the values [s] of
    [brace_count] and [paren_count]. *)
Definition model_loop (content : string) (fuel : nat) (s : Z * Z) : M (Z * Z) :=
  while fuel
    (fun _ => in_bounds content)
    (fun '(brace_count, paren_count) =>
       char <- peek content ;;
       let '(found, brace_count, paren_count) :=
         if (char =? "{")%char then
           (false, (brace_count + 1)%Z, paren_count)
         else if (char =? "}")%char then
           (false, (brace_count - 1)%Z, paren_count)
         else if (char =? "(")%char && (brace_count =? 0)%Z then
           (false, brace_count, (paren_count + 1)%Z)
         else if (char =? ")")%char && (brace_count =? 0)%Z then
           ((paren_count - 1 =? 0)%Z, brace_count, (paren_count - 1)%Z)
         else (false, brace_count, paren_count) in
       if found then ret (Break, (brace_count, paren_count))
       else advance 1 ;; ret (Next, (brace_count, paren_count)))
    s.

(** What a character does to the counts of open braces and of open
    parentheses outside braces that [parse_model_parameter] keeps. *)
Definition model_count (c : ascii) (s : Z * Z) : Z * Z :=
  let '(brace_count, paren_count) := s in
  if (c =? "{")%char then ((brace_count + 1)%Z, paren_count)
  else if (c =? "}")%char then ((brace_count - 1)%Z, paren_count)
  else if (c =? "(")%char && (brace_count =? 0)%Z then
    (brace_count, (paren_count + 1)%Z)
  else if (c =? ")")%char && (brace_count =? 0)%Z then
    (brace_count, (paren_count - 1)%Z)
  else (brace_count, paren_count).

(** The counts after the text [t]. *)
Fixpoint model_counts (s : Z * Z) (t : string) : Z * Z :=
  match t with
  | EmptyString => s
  | String c t' => model_counts (model_count c s) t'
  end.

(** No character of [t] closes the parameter: none is a closing
    parenthesis outside braces that brings the count of parentheses
    to zero. *)
Fixpoint model_open (s : Z * Z) (t : string) : bool :=
  match t with
  | EmptyString => true
  | String c t' =>
      negb ((c =? ")")%char && (fst s =? 0)%Z && (snd s - 1 =? 0)%Z)
      && model_open (model_count c s) t'
  end.

(** The loop of [parse_choices] over the entries of a block, with [n]
    iterations allowed to it and [fuel] to the loops inside. *)
Definition choices_loop (content : string) (fuel n : nat)
    (choices : list Choice.t) : M (list Choice.t) :=
  while n
    (fun _ => in_bounds content)
    (fun choices =>
       consume_whitespace content fuel ;;
       c <- peek content ;;
       if (c =? "]")%char then advance 1 ;; ret (Break, choices)
       else
         comment <- looking_at content "//" ;;
         if comment then skip_line content fuel ;; ret (Next, choices)
         else
           value <-
             while fuel
               (fun _ => in_bounds content &&&
                         (c <- peek content ;;
                          ret (isdigit c || (c =? "-")%char)))
               (fun value =>
                  c <- peek content ;;
                  advance 1 ;;
                  ret (Next, value +++ String c ""))
               "" ;;
           if is_empty value then
             skip_to_next_line content fuel ;; ret (Next, choices)
           else
             consume_whitespace content fuel ;;
             c <- peek content ;;
             if (c =? ":")%char then
               advance 1 ;;
               consume_whitespace content fuel ;;
               c <- peek content ;;
               if (c =? dquote)%char then
                 description <- parse_string content fuel ;;
                 ret (Next,
                      choices ++ [Choice.Make (strip value) description])
               else skip_to_next_line content fuel ;; ret (Next, choices)
             else skip_to_next_line content fuel ;; ret (Next, choices))
    choices.

(** An entry of a choices block, [key : "text"], with the white space
    before the key, before the colon and after it. *)
Record choice_line : Type := ChoiceLine {
  cl_indent : string;
  cl_key : string;
  cl_gap1 : string;
  cl_gap2 : string;
  cl_text : string
}.

Definition render_line (l : choice_line) : string :=
  cl_indent l +++ cl_key l +++ cl_gap1 l +++
  String ":" (cl_gap2 l +++ String dquote (cl_text l +++ String dquote "")).

Fixpoint render_lines (ls : list choice_line) : string :=
  match ls with
  | [] => ""
  | l :: ls' => render_line l +++ render_lines ls'
  end.

Definition well_formed_line (l : choice_line) : Prop :=
  all_chars isspace (cl_indent l) = true /\
  cl_key l <> "" /\
  all_chars key_char (cl_key l) = true /\
  all_chars isspace (cl_gap1 l) = true /\
  all_chars isspace (cl_gap2 l) = true /\
  all_chars (not_char dquote) (cl_text l) = true /\
  String.length (cl_text l) < 1000.

(** The choice that an entry stands for. *)
Definition choice_of (l : choice_line) : Choice.t :=
  Choice.Make (cl_key l) (strip (cl_text l)).

(** *** The shape of what a parse returns *)

(** A text as [parse_string] returns it: nothing for [strip] to remove,
    no double quote inside, at most 999 characters. *)
Definition string_shape (s : string) : Prop :=
  strip s = s /\ all_chars (not_char dquote) s = true /\ String.length s <= 999.

(** A group as [parse_parentheses] returns it: nothing for [strip] to
    remove, at most 998 characters. *)
Definition group_shape (s : string) : Prop :=
  strip s = s /\ String.length s <= 998.

(** A default value: a quoted text, or a run of the characters of
    numbers that is not empty. *)
Definition default_shape (d : string) : Prop :=
  string_shape d \/ (d <> "" /\ all_chars number_char d = true).

Definition attribute_shape (a : Attribute.t) : Prop :=
  Attribute.name a <> "" /\
  all_chars identifier_char (Attribute.name a) = true /\
  stops isdigit (Attribute.name a) /\
  Attribute.type a <> "" /\
  group_shape (Attribute.type a) /\
  string_shape (Attribute.description a) /\
  (forall d, Attribute.default a = Some d -> default_shape d) /\
  (forall cs, Attribute.choices a = Some cs ->
     Forall (fun c => string_shape (Choice.description c)) cs).

(** The class type is what [str.lower] makes of a run of the
    characters of identifiers; nothing is said of its characters. *)
Definition entity_shape {A} (e : EntityClass.t A) : Prop :=
  (exists r, EntityClass.class_type e = lower r /\
             all_chars identifier_char r = true) /\
  all_chars identifier_char (EntityClass.classname e) = true /\
  string_shape (EntityClass.description e) /\
  (forall g, EntityClass.base e = Some g -> group_shape g) /\
  (forall g, EntityClass.color e = Some g -> group_shape g) /\
  (forall g, EntityClass.size e = Some g -> group_shape g).

(** The groups read so far by the parameter loop of [parse_entity]. *)
Definition params_shape (ps : params) : Prop :=
  (forall g, p_base ps = Some g -> group_shape g) /\
  (forall g, p_color ps = Some g -> group_shape g) /\
  (forall g, p_size ps = Some g -> group_shape g).

(** A line that [print] wrote is a warning. *)
Definition is_warning (line : string) : Prop :=
  startswith "Warning: " line = true.

(** The attributes allocated so far have the shape of attributes and
    the lines printed so far are warnings. *)
Definition shaped (st : state) : Prop :=
  Forall attribute_shape (heap st) /\ Forall is_warning (stdout st).

(** [holds m st Q E]: when [m], run from [st], returns, the value and
    the state satisfy [Q]; when it raises, the state satisfies [E]. *)
Definition holds {A} (m : M A) (st : state)
    (Q : A -> state -> Prop) (E : state -> Prop) : Prop :=
  match m st with
  | Ok a st' => Q a st'
  | Raise _ st' => E st'
  | OutOfFuel => True
  end.

(* ================================================================== *)
(** ** The custom properties of the active object

    [update_entity_properties(self, context)] rewrites the custom
    properties of [context.active_object] from the entity type selected
    in the property group [self] and from [ENTITY_CLASSES].

    - An object is the mapping of its custom properties, read and
      written the way the function does it: [obj.keys()],
      [obj[key] = value], [del obj[key]].  The mapping keeps the order
      in which the keys were inserted.
    - [ENTITY_CLASSES] holds the dictionaries that [asdict] made of the
      parsed records; [parse_fgd_file] is its only writer, so the
      dictionaries are read here through the fields of the records they
      were made from.
    - The property group is its [entity_classname] and the attributes
      that [hasattr] and [getattr] find on it; their values are
      Python values, written as [json] ([None] is [JNull]).
    - A result [None] stands for a raised [KeyError]. *)

Module Obj.
Definition t : Type := list (string * json).

(** [obj.keys()] *)
Definition keys (obj : t) : list string := List.map fst obj.

(** [obj.get(key)] *)
Fixpoint getitem (key : string) (obj : t) : option json :=
  match obj with
  | [] => None
  | (k, v) :: obj' => if (k =? key)%string then Some v else getitem key obj'
  end.

(** [obj[key] = value] *)
Fixpoint setitem (key : string) (value : json) (obj : t) : t :=
  match obj with
  | [] => [(key, value)]
  | (k, v) :: obj' =>
      if (k =? key)%string then (k, value) :: obj'
      else (k, v) :: setitem key value obj'
  end.

(** [del obj[key]]; [None] when the key is missing. *)
Fixpoint delitem (key : string) (obj : t) : option t :=
  match obj with
  | [] => None
  | (k, v) :: obj' =>
      if (k =? key)%string then Some obj'
      else option_map (cons (k, v)) (delitem key obj')
  end.
End Obj.

Module EntityPropertyGroup.
Record t : Type := Make {
  entity_classname : string;
  (** [getattr(self, name)], [None] where [hasattr(self, name)] is false *)
  getattr : string -> option json
}.
End EntityPropertyGroup.

(** [value is not None and value != ""] *)
Definition has_value (value : json) : bool :=
  match value with
  | JNull => false
  | JString s => negb (is_empty s)
  | _ => true
  end.

(** [for prop in list(obj.keys()): if prop != "entity_props": del obj[prop]] *)
Fixpoint clear_properties (props : list string) (obj : Obj.t) : option Obj.t :=
  match props with
  | [] => Some obj
  | prop :: props' =>
      if negb (prop =? "entity_props")%string then
        match Obj.delitem prop obj with
        | Some obj' => clear_properties props' obj'
        | None => None
        end
      else clear_properties props' obj
  end.

(** [for attr in entity_class["attributes"]: ...] *)
Fixpoint write_attributes (self : EntityPropertyGroup.t)
    (attributes : list Attribute.t) (obj : Obj.t) : Obj.t :=
  match attributes with
  | [] => obj
  | attr :: attributes' =>
      if startswith "_" (Attribute.name attr) then
        write_attributes self attributes' obj
      else
        let prop_name := "prop_" +++ Attribute.name attr in
        match EntityPropertyGroup.getattr self prop_name with
        | Some value =>
            if has_value value then
              write_attributes self attributes'
                (Obj.setitem (Attribute.name attr) value obj)
            else write_attributes self attributes' obj
        | None => write_attributes self attributes' obj
        end
  end.

(** The active object after the call: [Some None] when there is no
    active object, [Some (Some obj)] when there is one. *)
Definition update_entity_properties
    (ENTITY_CLASSES : list (EntityClass.t Attribute.t))
    (self : EntityPropertyGroup.t) (active_object : option Obj.t)
  : option (option Obj.t) :=
  match active_object with
  | None => Some None
  | Some obj =>
      match clear_properties (Obj.keys obj) obj with
      | None => None
      | Some obj =>
          if (EntityPropertyGroup.entity_classname self =? "none")%string then
            Some (Some obj)
          else
            let obj :=
              Obj.setitem "classname"
                (JString (EntityPropertyGroup.entity_classname self)) obj in
            match
              find (fun e =>
                      (EntityClass.classname e
                       =? EntityPropertyGroup.entity_classname self)%string)
                ENTITY_CLASSES
            with
            | None => Some (Some obj)
            | Some entity_class =>
                Some (Some (write_attributes self
                              (EntityClass.attributes entity_class) obj))
            end
      end
  end.

(** The entries of the mapping that [update_entity_properties] keeps. *)
Definition kept (obj : Obj.t) : Obj.t :=
  filter (fun kv => (fst kv =? "entity_props")%string) obj.

(* ================================================================== *)
(** ** The colour tags of collections ([OBJECT_OT_bootstrap_level])

    A Python [float] is a binary64 number: [PrimFloat.float], with the
    comparison [<] and the subtraction of IEEE 754.  The power [x ** 2]
    and the built-in [sum] are the interpreter's: [closest_color_tag] is
    parameterised by them. *)

Module BootstrapLevel.
Import PrimFloat.

(** [color_tags], in the order of the dictionary. *)
Definition color_tags : list (string * (float * float * float)) :=
  [("NONE", (0, 0, 0));
   ("COLOR_01", (1, 0, 0));
   ("COLOR_02", (1, 0.5, 0));
   ("COLOR_03", (1, 1, 0));
   ("COLOR_04", (0, 1, 0));
   ("COLOR_05", (0, 0, 1));
   ("COLOR_06", (0x1.6666666666666p-1, 0, 1));   (* 0.7 *)
   ("COLOR_07", (1, 0.5, 1));
   ("COLOR_08", (0.5, 0.5, 0.5))]%float.

Section ClosestColorTag.
Variable square : float -> float.       (* x ** 2 *)
Variable sum : list float -> float.     (* sum(...) *)

(** [sum((c1 - c2) ** 2 for c1, c2 in zip(color[:3], tag_color))] *)
Definition distance (color : list float) (tag_color : float * float * float)
  : float :=
  let '(r, g, b) := tag_color in
  sum (List.map (fun '(c1, c2) => square (c1 - c2)%float)
         (combine (firstn 3 color) [r; g; b])).

Definition closest_color_tag (color : list float) : string :=
  snd (fold_left
         (fun '(min_distance, closest_tag) '(tag, tag_color) =>
            let distance := distance color tag_color in
            if (distance <? min_distance)%float then (distance, tag)
            else (min_distance, closest_tag))
         color_tags (infinity, "NONE")).
End ClosestColorTag.
End BootstrapLevel.

(** *** Texts of the examples of the further properties *)

Definition quoted_text : string := "  " +++ q "a lamp " +++ " [".

Definition long_string : string := String dquote (replicate 1000 "a" +++ q "").

Definition unquoted_text : string := "  : 3".

Definition nested_group : string := " ( a(b (c)) d ) = foo".

Definition long_group : string := String "(" (replicate 999 "8" +++ ") = foo").

Definition no_group : string := "  = foo".

(** [({"path": "a)b", "n": (1)}) = foo]  *)
Definition model_json : string :=
  "({" +++ q "path" +++ ": " +++ q "a)b" +++ ", " +++ q "n" +++ ": (1)}"
  +++ ") = foo".

Definition open_model : string := "(models/lamp.md5mesh = foo".

Definition comments_only : string :=
  "// Doom 3 entities" +++ nl +++ "  worldspawn : " +++ q "none" +++ nl.

(** A property group with the entity type [foo] selected and the
    value 3 for its attribute [attr]; an object with a custom property
    of an earlier entity type. *)
Definition group_foo : EntityPropertyGroup.t :=
  EntityPropertyGroup.Make "foo"
    (fun name => if (name =? "prop_attr")%string then Some (JInt 3) else None).
Definition group_none : EntityPropertyGroup.t :=
  EntityPropertyGroup.Make "none" (fun _ => None).
Definition object_lamp : Obj.t :=
  [("light_radius", JInt 300); ("entity_props", JDict [])].

(** An attribute with its description and default, and a choices
    block of two entries. *)
Definition attribute_text : string :=
  "  light_radius (integer) : " +++ q "Radius " +++ " : " +++ q "300"
  +++ nl +++ "]".
Definition choices_text : string :=
  "= [" +++ nl +++ "  0 : " +++ q "Off" +++ nl +++ "  1 : " +++ q " On"
  +++ nl +++ "]" +++ nl.
Definition choices_lines : list choice_line :=
  [ChoiceLine (nl +++ "  ") "0" " " " " "Off";
   ChoiceLine (nl +++ "  ") "1" " " " " " On"].

(** *** The head of an entity, as it is written *)













(* ================================================================== *)
(** ** Reasoning about the methods *)

Lemma wp_ret {A} (a : A) st (Q : A -> state -> Prop) E :
  Q a st -> wp (ret a) st Q E.
Proof. exact (fun H => H). Qed.

Lemma wp_raise {A} e st (Q : A -> state -> Prop) (E : state -> Prop) :
  E st -> wp (raise e) st Q E.
Proof. exact (fun H => H). Qed.

Lemma wp_bind {A B} (m : M A) (k : A -> M B) st Q E :
  wp m st (fun a st' => wp (k a) st' Q E) E -> wp (bind m k) st Q E.
Proof.
  unfold wp, bind. destruct (m st) as [a st'| e st'|]; auto.
Qed.

Lemma wp_conseq {A} (m : M A) st (Q Q' : A -> state -> Prop) (E E' : state -> Prop) :
  wp m st Q' E' ->
  (forall a st', Q' a st' -> Q a st') ->
  (forall st', E' st' -> E st') ->
  wp m st Q E.
Proof.
  unfold wp. destruct (m st) as [a st'| e st'|]; auto.
Qed.

Lemma wp_get_position st (Q : nat -> state -> Prop) E :
  Q (position st) st -> wp get_position st Q E.
Proof. exact (fun H => H). Qed.

Lemma wp_advance n st (Q : unit -> state -> Prop) E :
  Q tt (set_position (position st + n) st) -> wp (advance n) st Q E.
Proof. exact (fun H => H). Qed.

Lemma wp_print msg st (Q : unit -> state -> Prop) E :
  Q tt (mkState (position st) (last_attribute st) (heap st) (stdout st ++ [msg])) ->
  wp (print msg) st Q E.
Proof. exact (fun H => H). Qed.

Lemma wp_get_last_attribute st (Q : option ref -> state -> Prop) E :
  Q (last_attribute st) st -> wp get_last_attribute st Q E.
Proof. exact (fun H => H). Qed.

Lemma wp_set_last_attribute r st (Q : unit -> state -> Prop) E :
  Q tt (mkState (position st) r (heap st) (stdout st)) ->
  wp (set_last_attribute r) st Q E.
Proof. exact (fun H => H). Qed.

Lemma wp_new_attribute a st (Q : ref -> state -> Prop) E :
  Q (List.length (heap st))
    (mkState (position st) (last_attribute st) (heap st ++ [a]) (stdout st)) ->
  wp (new_attribute a) st Q E.
Proof. exact (fun H => H). Qed.

Lemma wp_assign_choices r cs st (Q : unit -> state -> Prop) E :
  Q tt (mkState (position st) (last_attribute st)
          (update r (Attribute.set_choices (Some cs)) (heap st)) (stdout st)) ->
  wp (assign_choices r cs) st Q E.
Proof. exact (fun H => H). Qed.

Lemma get_None n s : String.get n s = None <-> String.length s <= n.
Proof.
  revert n. induction s as [|c s IH]; intros [|n]; simpl;
    try (split; [intros _; lia | reflexivity]).
  - split; [discriminate | lia].
  - rewrite IH. lia.
Qed.

Lemma get_Some n s c : String.get n s = Some c -> n < String.length s.
Proof.
  intros H. destruct (Nat.lt_ge_cases n (String.length s)) as [|Hge]; trivial.
  apply get_None in Hge. congruence.
Qed.

Ltac wp_step :=
  cbv beta zeta;
  lazymatch goal with
  | |- wp (set_last_attribute _) _ _ _ => apply wp_set_last_attribute
  | |- wp (new_attribute _) _ _ _ => apply wp_new_attribute
  | |- wp (assign_choices _ _) _ _ _ => apply wp_assign_choices
  | |- wp (first_char ?s) _ _ _ => unfold first_char; destruct s eqn:?
  | |- wp (bind _ _) _ _ _ => apply wp_bind
  | |- wp (ret _) _ _ _ => apply wp_ret
  | |- wp (raise _) _ _ _ => apply wp_raise
  | |- wp get_position _ _ _ => apply wp_get_position
  | |- wp get_last_attribute _ _ _ => apply wp_get_last_attribute
  | |- wp (advance _) _ _ _ => apply wp_advance
  | |- wp (print _) _ _ _ => apply wp_print
  | |- wp (andM _ _) _ _ _ => unfold andM at 1
  | |- wp (orM _ _) _ _ _ => unfold orM at 1
  | |- wp (if ?b then _ else _) _ _ _ => destruct b eqn:?
  | |- wp (match ?x with (_, _) => _ end) _ _ _ => destruct x
  | |- wp (match ?x with Some _ => _ | None => _ end) _ _ _ => destruct x eqn:?
  | |- if ?b then _ else _ => destruct b eqn:?
  | |- _ < _ /\ wp _ _ _ _ => split; [assumption|]
  end.

Lemma scan_le_refl st : scan_le st st.
Proof. unfold scan_le. auto. Qed.

Lemma scan_le_trans st1 st2 st3 :
  scan_le st1 st2 -> scan_le st2 st3 -> scan_le st1 st3.
Proof. unfold scan_le. intuition (try lia; congruence). Qed.

Lemma scan_le_set_position st st' n :
  scan_le st st' -> scan_le st (set_position (position st' + n) st').
Proof. unfold scan_le. simpl. intuition lia. Qed.

Section Specs.

Variable json_loads : string -> json_result.
Variable content : string.
Variable fuel : nat.
Hypothesis enough_fuel : length content < fuel.

Lemma wp_in_bounds st (Q : bool -> state -> Prop) E :
  (position st < length content -> Q true st) ->
  (length content <= position st -> Q false st) ->
  wp (in_bounds content) st Q E.
Proof.
  unfold wp, in_bounds. intros Ht Hf.
  destruct (Nat.ltb_spec (position st) (length content)); auto.
Qed.

Lemma wp_at_end st (Q : bool -> state -> Prop) E :
  (length content <= position st -> Q true st) ->
  (position st < length content -> Q false st) ->
  wp (at_end content) st Q E.
Proof.
  unfold wp, at_end. intros Ht Hf.
  destruct (Nat.leb_spec (length content) (position st)); auto.
Qed.

Lemma wp_peek st (Q : ascii -> state -> Prop) (E : state -> Prop) :
  (forall c, cur content st = Some c -> position st < length content -> Q c st) ->
  (length content <= position st -> E st) ->
  wp (peek content) st Q E.
Proof.
  unfold wp, peek, cur. intros Hs Hn.
  destruct (String.get (position st) content) as [c|] eqn:G.
  - apply Hs; trivial. exact (get_Some _ _ _ G).
  - apply Hn. apply get_None, G.
Qed.

Lemma wp_looking_at p st (Q : bool -> state -> Prop) E :
  (forall b, Q b st) -> wp (looking_at content p) st Q E.
Proof. intros H. apply H. Qed.

(** The rule of [while]: every iteration that goes on starts inside
    the input and moves the cursor forward, so [len(content) + 1]
    iterations are never used up. *)
Lemma wp_while {S} (I Q : S -> state -> Prop) (E : state -> Prop)
    (cond : S -> M bool) (body : S -> M (ctl * S)) :
  (forall s st, I s st ->
     wp (cond s) st
        (fun c st1 =>
           if c then
             position st < length content /\
             wp (body s) st1
                (fun r st2 =>
                   match r with
                   | (Next, s') => position st < position st2 /\ I s' st2
                   | (Break, s') => Q s' st2
                   end) E
           else Q s st1) E) ->
  forall n s st, I s st -> length content - position st < n ->
    wp (while n cond body s) st Q E.
Proof.
  intros Hstep n. induction n as [|n IH]; intros s st HI Hn; [lia|].
  specialize (Hstep s st HI). unfold wp in *. simpl. unfold bind.
  destruct (cond s st) as [[|] st1| e st1|]; trivial.
  destruct Hstep as [Hlt Hbody].
  destruct (body s st1) as [[[|] s'] st2| e st2|]; trivial.
  destruct Hbody as [Hp HI']. apply (IH s' st2 HI'). lia.
Qed.

Lemma wp_while_fuel {S} (I Q : S -> state -> Prop) (E : state -> Prop)
    (cond : S -> M bool) (body : S -> M (ctl * S)) s st :
  I s st ->
  (forall s st, I s st ->
     wp (cond s) st
        (fun c st1 =>
           if c then
             position st < length content /\
             wp (body s) st1
                (fun r st2 =>
                   match r with
                   | (Next, s') => position st < position st2 /\ I s' st2
                   | (Break, s') => Q s' st2
                   end) E
           else Q s st1) E) ->
  wp (while fuel cond body s) st Q E.
Proof.
  intros HI Hstep. apply (wp_while I Q E cond body Hstep); trivial. lia.
Qed.

Ltac wp_content :=
  lazymatch goal with
  | |- wp (in_bounds _) _ _ _ => apply wp_in_bounds; intros ?
  | |- wp (at_end _) _ _ _ => apply wp_at_end; intros ?
  | |- wp (peek _) _ _ _ => apply wp_peek; [intros ? ? ? | intros ?]
  | |- wp (looking_at _ _) _ _ _ => apply wp_looking_at; intros [|]
  | |- wp (while fuel _ _ _) _ _ _ => fail
  | _ => wp_step
  end.

Ltac wp_run := repeat wp_content; cbv beta iota.

Ltac fin :=
  unfold raised_at, scan_le in *; simpl in *;
  repeat match goal with
    | H : _ /\ _ |- _ => destruct H
    | H : Some _ <> None -> _ |- _ => specialize (H ltac:(discriminate))
    | H : None <> None -> _ |- _ => clear H
    | H : match ?x with Some _ => _ | None => true end = false |- _ =>
        destruct x; [|discriminate H]
    end;
  repeat match goal with |- _ /\ _ => split end;
  try (intros; first [lia | congruence | solve [auto]]).

Lemma tests_in_bounds_peek (p : ascii -> bool) :
  tests content p (in_bounds content &&& (c <- peek content ;; ret (p c))).
Proof.
  clear enough_fuel.
  intros st. unfold andM, bind, in_bounds, peek, cur, ret.
  destruct (Nat.ltb_spec (position st) (length content)) as [Hlt|Hge].
  - destruct (String.get (position st) content) eqn:G; trivial.
    apply get_None in G. unfold length in Hlt. lia.
  - apply get_None in Hge. rewrite Hge. reflexivity.
Qed.

Lemma tests_in_bounds_peek2 (p1 p2 : ascii -> bool) :
  tests content (fun c => p1 c && p2 c)
        (in_bounds content &&& (c <- peek content ;; ret (p1 c))
                           &&& (c <- peek content ;; ret (p2 c))).
Proof.
  intros st. unfold andM at 1. unfold bind at 1.
  rewrite (tests_in_bounds_peek p1 st).
  destruct (cur content st) as [c|] eqn:G; trivial.
  destruct (p1 c); trivial.
  unfold bind, peek, ret. unfold cur in G. rewrite G. reflexivity.
Qed.

(** The loops that step over the characters that satisfy [p]. *)
Lemma skip_while_spec (p : ascii -> bool) (cond : M bool) st :
  tests content p cond ->
  wp (while fuel (fun _ => cond) (fun _ => advance 1 ;; ret (Next, tt)) tt) st
     (fun _ st' =>
        scan_le st st' /\
        (forall c, cur content st = Some c -> p c = true -> position st < position st') /\
        (forall c, cur content st' = Some c -> p c = false))
     (fun _ => False).
Proof.
  intros Hc.
  apply (wp_while_fuel
           (fun _ st1 =>
              scan_le st st1 /\
              (position st1 = position st \/ position st < position st1))
           (fun _ st' =>
              scan_le st st' /\
              (forall c, cur content st = Some c -> p c = true ->
                         position st < position st') /\
              (forall c, cur content st' = Some c -> p c = false))).
  - split; [apply scan_le_refl | auto].
  - intros [] st1 [Hle Hpos]. unfold wp at 1. rewrite Hc.
    destruct (cur content st1) as [c|] eqn:G.
    + destruct (p c) eqn:Hp.
      * split; [exact (get_Some _ _ _ G)|]. wp_run. fin.
      * split; [trivial | split].
        -- intros c' Hc' Hp'. destruct Hpos as [Hpos|]; trivial.
           unfold cur in *. rewrite Hpos in *. congruence.
        -- intros c' Hc'. congruence.
    + split; [trivial | split].
      * intros c' Hc' Hp'. destruct Hpos as [Hpos|]; trivial.
        unfold cur in *. rewrite Hpos in *. congruence.
      * intros c' Hc'. congruence.
Qed.

Lemma consume_whitespace_spec st :
  wp (consume_whitespace content fuel) st
     (fun _ st' =>
        scan_le st st' /\
        (forall c, cur content st = Some c -> isspace c = true ->
                   position st < position st') /\
        (forall c, cur content st' = Some c -> isspace c = false))
     (fun _ => False).
Proof. apply skip_while_spec, tests_in_bounds_peek. Qed.

Lemma skip_line_spec st :
  wp (skip_line content fuel) st
     (fun _ st' => scan_le st st' /\ position st < position st')
     (fun _ => False).
Proof.
  unfold skip_line. wp_step.
  eapply wp_conseq;
    [apply (skip_while_spec (fun c => negb (c =? newline)%char)),
           tests_in_bounds_peek | | trivial].
  intros _ st1 (Hle & _ & _). wp_run. fin.
Qed.

Lemma skip_to_next_line_spec st :
  wp (skip_to_next_line content fuel) st
     (fun _ st' => scan_le st st' /\ position st < position st')
     (fun _ => False).
Proof. exact (skip_line_spec st). Qed.

Lemma parse_number_spec st :
  wp (parse_number content fuel) st
     (fun _ st' => scan_le st st') (fun _ => False).
Proof.
  unfold parse_number. wp_run.
  eapply wp_conseq;
    [apply (skip_while_spec
              (fun c => isdigit c || ((c =? ".")%char || (c =? "-")%char))),
           tests_in_bounds_peek | | trivial].
  intros _ st1 (Hle & _ & _). wp_run. fin.
Qed.

Ltac wp_call := fail.

Ltac wp_call ::=
  lazymatch goal with
  | |- wp (consume_whitespace _ _) _ _ _ =>
      eapply wp_conseq;
      [apply consume_whitespace_spec
      | cbv beta; intros _ ? (? & ? & ?) | cbv beta; intros ? []]
  | |- wp (skip_line _ _) _ _ _ =>
      eapply wp_conseq;
      [apply skip_line_spec
      | cbv beta; intros _ ? (? & ?) | cbv beta; intros ? []]
  | |- wp (skip_to_next_line _ _) _ _ _ =>
      eapply wp_conseq;
      [apply skip_to_next_line_spec
      | cbv beta; intros _ ? (? & ?) | cbv beta; intros ? []]
  | |- wp (parse_number _ _) _ _ _ =>
      eapply wp_conseq;
      [apply parse_number_spec
      | cbv beta; intros ? ? ? | cbv beta; intros ? []]
  end.

Ltac wp_go := repeat first [wp_content | wp_call]; cbv beta iota.

Lemma parse_identifier_spec st :
  wp (parse_identifier content fuel) st
     (fun _ st' => scan_le st st') (fun _ => False).
Proof.
  unfold parse_identifier. wp_go.
  eapply wp_conseq;
    [apply (skip_while_spec
              (fun c => isalnum c || ((c =? "_")%char || (c =? ".")%char))),
           tests_in_bounds_peek | | trivial].
  intros _ st1 (Hle & _ & _). wp_run. fin.
Qed.

Lemma parse_parentheses_spec st :
  wp (parse_parentheses content fuel) st
     (fun r st' =>
        scan_le st st' /\ (r <> None -> position st < position st'))
     (fun _ => False).
Proof.
  unfold parse_parentheses. wp_go; try (fin; fail).
  eapply wp_conseq;
    [apply (wp_while_fuel
              (fun _ st1 => position st < position st1 /\ scan_le st st1)
              (fun _ st1 => position st < position st1 /\ scan_le st st1)
              (fun _ => False))
    | | trivial ].
  - fin.
  - intros [it pc] st1 HI. wp_go; fin.
  - intros [it pc] st1 HI. wp_go; fin.
Qed.

Lemma parse_string_spec st :
  wp (parse_string content fuel) st
     (fun _ st' => scan_le st st') (fun _ => False).
Proof.
  unfold parse_string. wp_go; try (fin; fail).
  eapply wp_conseq;
    [apply (wp_while_fuel
              (fun _ st1 => scan_le st st1)
              (fun _ st1 => scan_le st st1)
              (fun _ => False))
    | | trivial ].
  - fin.
  - intros it st1 HI. wp_go; fin.
  - intros it st1 HI. wp_go; fin.
Qed.

Lemma parse_model_parameter_spec st :
  wp (parse_model_parameter content fuel) st
     (fun _ st' => scan_le st st') (fun _ => False).
Proof.
  unfold parse_model_parameter. wp_go; try (fin; fail).
  eapply wp_conseq;
    [apply (wp_while_fuel
              (fun _ st1 => scan_le st st1)
              (fun _ st1 => scan_le st st1)
              (fun _ => False))
    | | trivial ].
  - fin.
  - intros [bc pc] st1 HI. wp_go; fin.
  - intros [bc pc] st1 HI. wp_go; fin.
Qed.

Ltac wp_call ::=
  lazymatch goal with
  | |- wp (consume_whitespace _ _) _ _ _ =>
      eapply wp_conseq;
      [apply consume_whitespace_spec
      | cbv beta; intros _ ? (? & ? & ?) | cbv beta; intros ? []]
  | |- wp (skip_line _ _) _ _ _ =>
      eapply wp_conseq;
      [apply skip_line_spec
      | cbv beta; intros _ ? (? & ?) | cbv beta; intros ? []]
  | |- wp (skip_to_next_line _ _) _ _ _ =>
      eapply wp_conseq;
      [apply skip_to_next_line_spec
      | cbv beta; intros _ ? (? & ?) | cbv beta; intros ? []]
  | |- wp (parse_number _ _) _ _ _ =>
      eapply wp_conseq;
      [apply parse_number_spec
      | cbv beta; intros ? ? ? | cbv beta; intros ? []]
  | |- wp (parse_identifier _ _) _ _ _ =>
      eapply wp_conseq;
      [apply parse_identifier_spec
      | cbv beta; intros ? ? ? | cbv beta; intros ? []]
  | |- wp (parse_string _ _) _ _ _ =>
      eapply wp_conseq;
      [apply parse_string_spec
      | cbv beta; intros ? ? ? | cbv beta; intros ? []]
  | |- wp (parse_model_parameter _ _) _ _ _ =>
      eapply wp_conseq;
      [apply parse_model_parameter_spec
      | cbv beta; intros ? ? ? | cbv beta; intros ? []]
  | |- wp (parse_parentheses _ _) _ _ _ =>
      eapply wp_conseq;
      [apply parse_parentheses_spec
      | cbv beta; intros ? ? (? & ?) | cbv beta; intros ? []]
  end.

Lemma all_chars_snoc p s c :
  all_chars p (s +++ String c "") = all_chars p s && p c.
Proof.
  unfold all_chars. induction s as [|d s IH]; simpl.
  - apply andb_comm.
  - rewrite IH. apply andb_assoc.
Qed.

Lemma key_char_not_space c : key_char c = true -> isspace c = false.
Proof.
  destruct c as [[] [] [] [] [] [] [] []]; vm_compute; congruence.
Qed.

Lemma rstrip_keys s : all_chars key_char s = true -> rstrip s = s.
Proof.
  unfold all_chars. induction s as [|c s IH]; simpl; trivial.
  intros H. apply andb_prop in H. destruct H as [Hc Hs].
  rewrite (IH Hs). destruct s; trivial.
  rewrite (key_char_not_space _ Hc). reflexivity.
Qed.

Lemma strip_keys s : all_chars key_char s = true -> strip s = s.
Proof.
  intros H. unfold strip.
  assert (L : lstrip s = s).
  { destruct s as [|c s]; trivial. unfold all_chars in H. simpl in H.
    apply andb_prop in H. simpl.
    rewrite (key_char_not_space c (proj1 H)). reflexivity. }
  rewrite L. apply rstrip_keys, H.
Qed.

Lemma good_choice_key v d :
  is_empty v = false -> all_chars key_char v = true ->
  good_choice (Choice.Make (strip v) d).
Proof.
  intros Hne Hk. unfold good_choice. simpl. rewrite (strip_keys v Hk).
  split; [intros ->; discriminate | split; [exact Hk | exact (strip_keys v Hk)]].
Qed.

Lemma parse_choices_spec st :
  wp (parse_choices content fuel) st
     (fun cs st' =>
        scan_le st st' /\ position st < position st' /\ Forall good_choice cs)
     (raised_at content st).
Proof.
  unfold parse_choices. wp_go; try (fin; fail).
  eapply wp_conseq;
    [apply (wp_while_fuel
              (fun cs st1 =>
                 scan_le st st1 /\ position st < position st1 /\
                 Forall good_choice cs)
              (fun cs st1 =>
                 scan_le st st1 /\ position st < position st1 /\
                 Forall good_choice cs)
              (raised_at content st))
    | trivial | trivial ].
  - fin.
  - intros cs st1 HI. wp_go; try (fin; fail).
    lazymatch goal with
    | |- wp (while _ _ _ _) ?s0 _ _ =>
        eapply wp_conseq;
        [apply (wp_while_fuel
                  (fun v st2 => scan_le s0 st2 /\ all_chars key_char v = true)
                  (fun v st2 => scan_le s0 st2 /\ all_chars key_char v = true)
                  (fun _ => False))
        | | intros ? [] ]
    end.
    + split; [apply scan_le_refl | reflexivity].
    + intros v st2 [Hle Hv]. unfold wp at 1.
      pose proof (tests_in_bounds_peek key_char st2) as T.
      unfold tests in T. unfold key_char at 1 in T. rewrite T. clear T.
      destruct (cur content st2) as [c'|] eqn:G; [|split; trivial].
      destruct (key_char c') eqn:Hk; [|split; trivial].
      pose proof (get_Some _ _ _ G) as Hin. fold (length content) in Hin.
      split; [exact Hin|]. wp_go; try (fin; fail).
      split; [fin|]. split; [fin|].
      rewrite all_chars_snoc, Hv. simpl. congruence.
    + intros v st2 [Hle Hv]. wp_go; try (fin; fail).
      split; [fin|]. split; [fin|]. split; [fin|].
      apply Forall_app. split; [fin|].
      constructor; [|constructor]. apply good_choice_key; trivial.
Qed.

Ltac wp_call ::=
  lazymatch goal with
  | |- wp (consume_whitespace _ _) _ _ _ =>
      eapply wp_conseq;
      [apply consume_whitespace_spec
      | cbv beta; intros _ ? (? & ? & ?) | cbv beta; intros ? []]
  | |- wp (skip_line _ _) _ _ _ =>
      eapply wp_conseq;
      [apply skip_line_spec
      | cbv beta; intros _ ? (? & ?) | cbv beta; intros ? []]
  | |- wp (skip_to_next_line _ _) _ _ _ =>
      eapply wp_conseq;
      [apply skip_to_next_line_spec
      | cbv beta; intros _ ? (? & ?) | cbv beta; intros ? []]
  | |- wp (parse_number _ _) _ _ _ =>
      eapply wp_conseq;
      [apply parse_number_spec
      | cbv beta; intros ? ? ? | cbv beta; intros ? []]
  | |- wp (parse_identifier _ _) _ _ _ =>
      eapply wp_conseq;
      [apply parse_identifier_spec
      | cbv beta; intros ? ? ? | cbv beta; intros ? []]
  | |- wp (parse_string _ _) _ _ _ =>
      eapply wp_conseq;
      [apply parse_string_spec
      | cbv beta; intros ? ? ? | cbv beta; intros ? []]
  | |- wp (parse_model_parameter _ _) _ _ _ =>
      eapply wp_conseq;
      [apply parse_model_parameter_spec
      | cbv beta; intros ? ? ? | cbv beta; intros ? []]
  | |- wp (parse_parentheses _ _) _ _ _ =>
      eapply wp_conseq;
      [apply parse_parentheses_spec
      | cbv beta; intros ? ? (? & ?) | cbv beta; intros ? []]
  | |- wp (parse_choices _ _) _ _ _ =>
      eapply wp_conseq;
      [apply parse_choices_spec
      | cbv beta; intros ? ? (? & ? & ?) | cbv beta; intros ? ?]
  end.

Lemma parse_attribute_spec st :
  wp (parse_attribute content fuel) st
     (fun r st' =>
        position st <= position st' /\
        (r <> None -> position st < position st') /\
        attribute_step st r st')
     (raised_at content st).
Proof.
  unfold parse_attribute. wp_go; try (fin; fail);
    (split; [solve [fin] | split; [solve [fin] | ]]);
    lazymatch goal with
    | |- attribute_step ?st0 (Some (List.length (heap ?s'))) _ =>
        replace (heap s') with (heap st0) by fin;
        eapply step_new; simpl; reflexivity
    | |- attribute_step ?st0 None
           (mkState _ _ (update ?r (Attribute.set_choices (Some ?cs)) _) _) =>
        apply (step_choices st0 r cs); solve [fin]
    | |- _ => apply step_nothing; solve [fin]
    end.
Qed.

Lemma Forall_update {A} (P : A -> Prop) f i l :
  (forall x, P x -> P (f x)) -> Forall P l -> Forall P (update i f l).
Proof.
  intros Hf H. revert i. induction H as [|x l Hx Hl IH]; intros i; simpl.
  - constructor.
  - destruct i; constructor; auto.
Qed.

Lemma attribute_step_good st r st' :
  attribute_step st r st' -> good_heap st -> good_heap st'.
Proof.
  unfold good_heap. intros [st1 Hh _ | a st1 Hh Hc _ | r' cs st1 _ _ Hh Hcs] Hg;
    rewrite Hh.
  - exact Hg.
  - apply Forall_app. split; trivial. constructor; [|constructor].
    intros cs Hs. congruence.
  - apply Forall_update; trivial. intros a _ cs' Hs. simpl in Hs.
    injection Hs as <-. exact Hcs.
Qed.

Lemma evolves_trans o1 o2 o3 : evolves o1 o2 -> evolves o2 o3 -> evolves o1 o3.
Proof.
  intros H. induction H as [o|st r st' o Hs _ IH]; trivial.
  intros H3. exact (evolves_step st r st' o3 Hs (IH H3)).
Qed.

Lemma evolves_one st r st' :
  attribute_step st r st' -> evolves (objects st) (objects st').
Proof. intros H. exact (evolves_step st r st' _ H (evolves_refl _)). Qed.

Ltac wp_call ::=
  lazymatch goal with
  | |- wp (consume_whitespace _ _) _ _ _ =>
      eapply wp_conseq;
      [apply consume_whitespace_spec
      | cbv beta; intros _ ? (? & ? & ?) | cbv beta; intros ? []]
  | |- wp (skip_line _ _) _ _ _ =>
      eapply wp_conseq;
      [apply skip_line_spec
      | cbv beta; intros _ ? (? & ?) | cbv beta; intros ? []]
  | |- wp (skip_to_next_line _ _) _ _ _ =>
      eapply wp_conseq;
      [apply skip_to_next_line_spec
      | cbv beta; intros _ ? (? & ?) | cbv beta; intros ? []]
  | |- wp (parse_number _ _) _ _ _ =>
      eapply wp_conseq;
      [apply parse_number_spec
      | cbv beta; intros ? ? ? | cbv beta; intros ? []]
  | |- wp (parse_identifier _ _) _ _ _ =>
      eapply wp_conseq;
      [apply parse_identifier_spec
      | cbv beta; intros ? ? ? | cbv beta; intros ? []]
  | |- wp (parse_string _ _) _ _ _ =>
      eapply wp_conseq;
      [apply parse_string_spec
      | cbv beta; intros ? ? ? | cbv beta; intros ? []]
  | |- wp (parse_model_parameter _ _) _ _ _ =>
      eapply wp_conseq;
      [apply parse_model_parameter_spec
      | cbv beta; intros ? ? ? | cbv beta; intros ? []]
  | |- wp (parse_parentheses _ _) _ _ _ =>
      eapply wp_conseq;
      [apply parse_parentheses_spec
      | cbv beta; intros ? ? (? & ?) | cbv beta; intros ? []]
  | |- wp (parse_attribute _ _) _ _ _ =>
      let Hs := fresh "Hstep" in
      eapply wp_conseq;
      [apply parse_attribute_spec
      | cbv beta; intros ? ? (? & ? & Hs);
        pose proof (attribute_step_good _ _ _ Hs);
        pose proof (evolves_one _ _ _ Hs); clear Hs
      | cbv beta; intros ? ?]
  end.

(** Closes the goals about cursors and heaps that the rules leave. *)
Ltac chain :=
  first [ apply evolves_refl | eassumption
        | eapply evolves_trans; [eassumption | chain] ].

Ltac heaps :=
  unfold grows, raised_at, scan_le, good_heap, objects in *; simpl in *;
  repeat match goal with
    | H : _ /\ _ |- _ => destruct H
    | H : Some _ <> None -> _ |- _ => specialize (H ltac:(discriminate))
    | H : None <> None -> _ |- _ => clear H
    end;
  repeat match goal with
    | H : heap _ = heap _ |- _ => rewrite H in *; clear H
    end;
  repeat match goal with
    | H : last_attribute _ = last_attribute _ |- _ => rewrite H in *; clear H
    end;
  repeat match goal with |- _ /\ _ => split end;
  try (intros; first [lia | congruence | tauto | solve [chain]]).

Lemma decode_model_spec model_str st (Q : json -> state -> Prop) E :
  (forall v out, Q v (mkState (position st) (last_attribute st) (heap st) out)) ->
  wp (decode_model json_loads model_str) st Q E.
Proof.
  intros H. unfold decode_model.
  destruct (json_loads (replace_squote model_str)); wp_run; destruct st; apply H.
Qed.

Lemma parse_entity_spec st :
  wp (parse_entity json_loads content fuel) st
     (fun _ st' => position st < position st' /\ grows st st')
     (fun st' => length content <= position st' /\ grows st st').
Proof.
  unfold parse_entity. wp_go.
  (* the parameters *)
  lazymatch goal with
  | |- wp (while _ _ _ _) ?s0 _ _ =>
      eapply wp_conseq;
      [apply (wp_while_fuel
                (fun _ st1 => scan_le s0 st1) (fun _ st1 => scan_le s0 st1)
                (fun _ => False))
      | | intros ? [] ]
  end.
  - apply scan_le_refl.
  - intros ps st1 HI. unfold wp at 1.
    rewrite (tests_in_bounds_peek (fun c => negb (c =? "=")%char) st1).
    destruct (cur content st1) as [c|] eqn:G; [|exact HI].
    destruct (negb (c =? "=")%char) eqn:Hc; [|exact HI].
    pose proof (get_Some _ _ _ G) as Hin. fold (length content) in Hin.
    split; [exact Hin|]. unfold parse_parameter. wp_go; try (heaps; fail).
    + apply decode_model_spec. intros v out. wp_go. heaps.
    + eapply wp_conseq;
        [apply (skip_while_spec
                  (fun c => negb (isspace c) && negb (c =? "=")%char)),
               tests_in_bounds_peek2 | | intros ? [] ].
      intros _ st2 (Hle & Hstrict & Hexit). wp_step.
      eapply wp_conseq; [apply consume_whitespace_spec | | intros ? []].
      intros _ st3 (Hle3 & Hstrict3 & _). wp_go.
      assert (position st1 < position st3); [|heaps].
      destruct (isspace c) eqn:Hsp.
      * destruct (Nat.eq_dec (position st2) (position st1)) as [Heq|Hne].
        -- apply Nat.le_lt_trans with (position st2); [heaps|].
           apply (Hstrict3 c); trivial. unfold cur in *. rewrite Heq. exact G.
        -- heaps.
      * assert (position st1 < position st2); [|heaps].
        apply (Hstrict c); trivial. rewrite Hsp, Hc. reflexivity.
  - (* the classname, the description and the attributes *)
    intros ps st1 HI. wp_go; try (heaps; fail);
    (lazymatch goal with
     | |- wp (while _ _ _ _) ?s0 _ _ =>
         eapply wp_conseq;
         [apply (wp_while_fuel
                   (fun _ st2 => grows s0 st2) (fun _ st2 => grows s0 st2)
                   (fun st2 => length content <= position st2 /\ grows s0 st2))
         | | ]
     end;
     [ heaps
     | intros ? ? ?; wp_go; try (heaps; fail)
     | intros ? ? ?; wp_go; try (heaps; fail)
     | intros ? ?; try (heaps; fail) ]).
Qed.

Lemma parse_spec st :
  wp (parse json_loads content fuel) st
     (fun _ st' => length content <= position st' /\ grows st st')
     (fun st' => length content <= position st' /\ grows st st').
Proof.
  unfold parse.
  apply (wp_while_fuel (fun _ st1 => grows st st1)).
  - heaps.
  - intros es st1 HI. wp_go; try (heaps; fail).
    eapply wp_conseq; [apply parse_entity_spec | | ].
    + intros [e|] st2 ?; wp_go; heaps.
    + intros st2 ?. heaps.
Qed.

End Specs.

(* ================================================================== *)
(** ** A parse does not depend on the interpreter state it starts in *)

Lemma update_app {A} (f : A -> A) (l1 l2 : list A) i :
  update (List.length l1 + i) f (l1 ++ l2) = l1 ++ update i f l2.
Proof. induction l1 as [|x l1 IH]; simpl; [reflexivity | now rewrite IH]. Qed.

Section World.

Variable h : list Attribute.t.
Variable out : list string.

Lemma sim_ret {A} {SA : Shift (List.length h) A} (a1 a2 : A) :
  a1 = shift a2 -> sim h out (ret a1) (ret a2).
Proof. intros -> st. reflexivity. Qed.

Lemma sim_raise {A} {SA : Shift (List.length h) A} e :
  sim h out (raise (A := A) e) (raise e).
Proof. intros st. reflexivity. Qed.

Lemma sim_bind {A B} {SA : Shift (List.length h) A} {SB : Shift (List.length h) B}
    (m1 m2 : M A) (k1 k2 : A -> M B) :
  sim h out m1 m2 ->
  (forall a, sim h out (k1 (shift a)) (k2 a)) ->
  sim h out (bind m1 k1) (bind m2 k2).
Proof.
  intros Hm Hk st. unfold bind. rewrite Hm.
  destruct (m2 st) as [a st'|e st'|]; simpl; trivial. apply Hk.
Qed.

Lemma sim_while {S} {SS : Shift (List.length h) S} fuel
    (cond1 cond2 : S -> M bool) (body1 body2 : S -> M (ctl * S)) :
  (forall s, sim h out (cond1 (shift s)) (cond2 s)) ->
  (forall s, sim h out (body1 (shift s)) (body2 s)) ->
  forall s1 s2, s1 = shift s2 ->
    sim h out (while fuel cond1 body1 s1) (while fuel cond2 body2 s2).
Proof.
  intros Hc Hb. induction fuel as [|n IH]; intros s1 s2 ->; simpl.
  - intros st. reflexivity.
  - apply sim_bind; [apply Hc|]. intros [|]; [|now apply sim_ret].
    apply sim_bind; [apply Hb|]. intros [[|] s']; simpl.
    + apply IH. reflexivity.
    + now apply sim_ret.
Qed.

Lemma sim_get_position : sim h out get_position get_position.
Proof. intros st. reflexivity. Qed.

Lemma sim_advance n : sim h out (advance n) (advance n).
Proof. intros st. reflexivity. Qed.

Lemma sim_print msg : sim h out (print msg) (print msg).
Proof.
  intros st. unfold print, lift. simpl. now rewrite app_assoc.
Qed.

Lemma sim_in_bounds content : sim h out (in_bounds content) (in_bounds content).
Proof. intros st. reflexivity. Qed.

Lemma sim_at_end content : sim h out (at_end content) (at_end content).
Proof. intros st. reflexivity. Qed.

Lemma sim_peek content : sim h out (peek content) (peek content).
Proof.
  intros st. unfold peek. simpl.
  destruct (String.get (position st) content); reflexivity.
Qed.

Lemma sim_looking_at content p :
  sim h out (looking_at content p) (looking_at content p).
Proof. intros st. reflexivity. Qed.

Lemma sim_get_last_attribute : sim h out get_last_attribute get_last_attribute.
Proof. intros st. reflexivity. Qed.

Lemma sim_set_last_attribute r :
  sim h out (set_last_attribute (shift (k := List.length h) r))
      (set_last_attribute r).
Proof. intros st. reflexivity. Qed.

Lemma sim_new_attribute a : sim h out (new_attribute a) (new_attribute a).
Proof.
  intros st. unfold new_attribute, lift. simpl.
  now rewrite length_app, <- app_assoc.
Qed.

Lemma sim_assign_choices r cs :
  sim h out (assign_choices (shift (k := List.length h) r) cs)
      (assign_choices r cs).
Proof.
  intros st. unfold assign_choices, lift. simpl.
  unfold shift, Shift_ref. now rewrite update_app.
Qed.

Variable json_loads : string -> json_result.
Variable content : string.
Variable fuel : nat.

Ltac sim_red :=
  cbv beta iota zeta delta
    [shift Shift_unit Shift_bool Shift_nat Shift_Z Shift_ascii Shift_string
     Shift_json Shift_params Shift_ctl Shift_opt_string Shift_choices
     Shift_prod fst snd].

Ltac sim_eq :=
  sim_red;
  unfold Shift_opt_ref, Shift_refs, Shift_opt_entity, Shift_entities,
    Shift_entity, EntityClass.map, option_map;
  sim_red; simpl; rewrite ?map_app; reflexivity.

Ltac sim_call := fail.

Ltac split_pair x :=
  lazymatch type of x with
  | (_ * _)%type => destruct x as [? ?]
  | _ => idtac
  end.

Ltac sim_step :=
  lazymatch goal with
  | |- sim _ _ (bind _ _) (bind _ _) =>
      apply sim_bind;
      [ | let x := fresh "a" in intros x; split_pair x; sim_red ]
  | |- sim _ _ (ret _) (ret _) => apply sim_ret; sim_eq
  | |- sim _ _ (raise _) (raise _) => apply sim_raise
  | |- sim _ _ get_position get_position => apply sim_get_position
  | |- sim _ _ (advance _) (advance _) => apply sim_advance
  | |- sim _ _ (print _) (print _) => apply sim_print
  | |- sim _ _ (in_bounds _) (in_bounds _) => apply sim_in_bounds
  | |- sim _ _ (at_end _) (at_end _) => apply sim_at_end
  | |- sim _ _ (peek _) (peek _) => apply sim_peek
  | |- sim _ _ (looking_at _ _) (looking_at _ _) => apply sim_looking_at
  | |- sim _ _ get_last_attribute get_last_attribute =>
      apply sim_get_last_attribute
  | |- sim _ _ (set_last_attribute _) (set_last_attribute ?r) =>
      exact (sim_set_last_attribute r)
  | |- sim _ _ (new_attribute _) (new_attribute _) => apply sim_new_attribute
  | |- sim _ _ (assign_choices _ _) (assign_choices ?r ?cs) =>
      exact (sim_assign_choices r cs)
  | |- sim _ _ (andM _ _) (andM _ _) => unfold andM
  | |- sim _ _ (orM _ _) (orM _ _) => unfold orM
  | |- sim _ _ (if ?b then _ else _) (if ?b then _ else _) => destruct b
  | |- sim _ _ (match ?x with (_, _) => _ end) (match ?x with (_, _) => _ end) =>
      destruct x
  | |- sim _ _ (first_char ?s) (first_char ?s) => unfold first_char; destruct s
  | |- sim _ _ (match _ with Some _ => _ | None => _ end)
               (match ?x with Some _ => _ | None => _ end) =>
      destruct x; unfold Shift_opt_ref, Shift_opt_entity, option_map; sim_red
  | |- sim _ _ (while _ _ _ _) (while _ _ _ _) =>
      apply sim_while;
      [ let x := fresh "s" in intros x; split_pair x; sim_red
      | let x := fresh "s" in intros x; split_pair x; sim_red
      | sim_eq ]
  | |- _ => sim_call
  end.

Ltac sim_go := repeat sim_step.

Lemma sim_consume_whitespace :
  sim h out (consume_whitespace content fuel) (consume_whitespace content fuel).
Proof. unfold consume_whitespace. sim_go. Qed.

Lemma sim_skip_line :
  sim h out (skip_line content fuel) (skip_line content fuel).
Proof. unfold skip_line. sim_go. Qed.

Lemma sim_skip_to_next_line :
  sim h out (skip_to_next_line content fuel) (skip_to_next_line content fuel).
Proof. exact sim_skip_line. Qed.

Ltac sim_call ::=
  first [ apply sim_consume_whitespace | apply sim_skip_line
        | apply sim_skip_to_next_line ].

Lemma sim_parse_number :
  sim h out (parse_number content fuel) (parse_number content fuel).
Proof. unfold parse_number. sim_go. Qed.

Lemma sim_parse_identifier :
  sim h out (parse_identifier content fuel) (parse_identifier content fuel).
Proof. unfold parse_identifier. sim_go. Qed.

Lemma sim_parse_parentheses :
  sim h out (parse_parentheses content fuel) (parse_parentheses content fuel).
Proof. unfold parse_parentheses. sim_go. Qed.

Lemma sim_parse_string :
  sim h out (parse_string content fuel) (parse_string content fuel).
Proof. unfold parse_string. sim_go. Qed.

Lemma sim_parse_model_parameter :
  sim h out (parse_model_parameter content fuel)
      (parse_model_parameter content fuel).
Proof. unfold parse_model_parameter. sim_go. Qed.

Ltac sim_call ::=
  first [ apply sim_consume_whitespace | apply sim_skip_line
        | apply sim_skip_to_next_line | apply sim_parse_number
        | apply sim_parse_identifier | apply sim_parse_parentheses
        | apply sim_parse_string | apply sim_parse_model_parameter ].

Lemma sim_parse_choices :
  sim h out (parse_choices content fuel) (parse_choices content fuel).
Proof. unfold parse_choices. sim_go. Qed.

Lemma sim_decode_model model_str :
  sim h out (decode_model json_loads model_str)
      (decode_model json_loads model_str).
Proof.
  unfold decode_model. destruct (json_loads (replace_squote model_str)); sim_go.
Qed.

Ltac sim_call ::=
  first [ apply sim_consume_whitespace | apply sim_skip_line
        | apply sim_skip_to_next_line | apply sim_parse_number
        | apply sim_parse_identifier | apply sim_parse_parentheses
        | apply sim_parse_string | apply sim_parse_model_parameter
        | apply sim_parse_choices | apply sim_decode_model ].

Lemma sim_parse_attribute :
  sim h out (parse_attribute content fuel) (parse_attribute content fuel).
Proof. unfold parse_attribute. sim_go. Qed.

Ltac sim_call ::=
  first [ apply sim_consume_whitespace | apply sim_skip_line
        | apply sim_skip_to_next_line | apply sim_parse_number
        | apply sim_parse_identifier | apply sim_parse_parentheses
        | apply sim_parse_string | apply sim_parse_model_parameter
        | apply sim_parse_choices | apply sim_decode_model
        | apply sim_parse_attribute ].

Lemma sim_parse_entity :
  sim h out (parse_entity json_loads content fuel)
      (parse_entity json_loads content fuel).
Proof. unfold parse_entity, parse_parameter. sim_go. Qed.

Lemma sim_parse :
  sim h out (parse json_loads content fuel) (parse json_loads content fuel).
Proof. unfold parse. sim_go. apply sim_parse_entity. Qed.

End World.


Lemma deref_shift h h' rs :
  deref (h ++ h') (shift (k := List.length h) rs) = deref h' rs.
Proof.
  unfold deref, shift, Shift_refs, shift, Shift_ref.
  induction rs as [|r rs IH]; simpl; trivial.
  rewrite IH, nth_error_app2 by lia.
  replace (List.length h + r - List.length h) with r by lia. reflexivity.
Qed.

Lemma snapshot_shift h h' es :
  snapshot (h ++ h') (shift (k := List.length h) es) = snapshot h' es.
Proof.
  unfold snapshot, shift, Shift_entities, shift, Shift_entity.
  induction es as [|e es IH]; simpl; trivial.
  rewrite IH. f_equal. unfold EntityClass.map. simpl.
  now rewrite deref_shift.
Qed.

Lemma lift_FGDParser h out : lift h out (FGDParser [] []) = FGDParser h out.
Proof. unfold lift, FGDParser. simpl. now rewrite !app_nil_r. Qed.

(** A parser made in an interpreter that holds the objects [h] and has
    printed [out] does what a parser made in a new interpreter does. *)
Lemma parse_in_world json_loads content fuel h out :
  parse json_loads content fuel (FGDParser h out)
  = rmap (shift (k := List.length h)) (lift h out)
         (parse json_loads content fuel (FGDParser [] [])).
Proof.
  rewrite <- (sim_parse h out json_loads content fuel (FGDParser [] [])).
  now rewrite lift_FGDParser.
Qed.

Lemma observe_in_world json_loads content fuel h out :
  observe (parse json_loads content fuel (FGDParser h out))
  = after out (observe (parse json_loads content fuel (FGDParser [] []))).
Proof.
  rewrite parse_in_world.
  destruct (parse json_loads content fuel (FGDParser [] [])) as [es st|e st|];
    simpl; trivial.
  now rewrite snapshot_shift.
Qed.

Lemma run_parse_in_world json_loads content h out :
  observe (parse json_loads content (budget content) (FGDParser h out))
  = after out (run_parse json_loads content).
Proof. apply observe_in_world. Qed.

Lemma budget_enough content : length content < budget content.
Proof. unfold length, budget. lia. Qed.

Lemma deref_Forall (P : Attribute.t -> Prop) h rs :
  Forall P h -> Forall P (deref h rs).
Proof.
  intros H. unfold deref. induction rs as [|r rs IH]; simpl; [constructor|].
  apply Forall_app. split; trivial.
  destruct (nth_error h r) as [a|] eqn:G; constructor; [|constructor].
  rewrite Forall_forall in H. apply H. exact (nth_error_In _ _ G).
Qed.

(* ================================================================== *)
(** ** Allowing more iterations changes nothing *)

Lemma mono_refl {A} (m : M A) : mono m m.
Proof. intros st _. reflexivity. Qed.

Lemma mono_bind {A B} (m1 m2 : M A) (k1 k2 : A -> M B) :
  mono m1 m2 -> (forall a, mono (k1 a) (k2 a)) ->
  mono (bind m1 k1) (bind m2 k2).
Proof.
  intros Hm Hk st. unfold bind. intros H.
  destruct (m1 st) as [a st'|e st'|] eqn:E.
  - rewrite (Hm st), E by congruence. now apply Hk.
  - rewrite (Hm st), E by congruence. reflexivity.
  - congruence.
Qed.

Lemma mono_while {S} n n' (c1 c2 : S -> M bool) (b1 b2 : S -> M (ctl * S)) :
  n <= n' ->
  (forall s, mono (c1 s) (c2 s)) ->
  (forall s, mono (b1 s) (b2 s)) ->
  forall s, mono (while n c1 b1 s) (while n' c2 b2 s).
Proof.
  intros Hn Hc Hb. revert n' Hn.
  induction n as [|n IH]; intros n' Hn s; [intros st H; now elim H|].
  destruct n' as [|n']; [lia|]. simpl.
  apply mono_bind; [apply Hc|]. intros [|]; [|apply mono_refl].
  apply mono_bind; [apply Hb|]. intros [[|] s']; [|apply mono_refl].
  apply IH. lia.
Qed.

Section Fuel.
Variable json_loads : string -> json_result.
Variable content : string.
Variables n n' : nat.
Hypothesis le : n <= n'.

Ltac mono_call := fail.

Ltac mono_step :=
  cbv beta zeta;
  lazymatch goal with
  | |- mono (bind _ _) (bind _ _) => apply mono_bind; [ | intros ? ]
  | |- mono (andM _ _) (andM _ _) => unfold andM
  | |- mono (orM _ _) (orM _ _) => unfold orM
  | |- mono (while _ _ _ _) (while _ _ _ _) =>
      apply mono_while; [ exact le | intros ? | intros ? ]
  | |- mono (if ?b then _ else _) _ => destruct b
  | |- mono (match ?x with (_, _) => _ end) _ => destruct x
  | |- mono (match ?x with Some _ => _ | None => _ end) _ => destruct x
  | |- mono (first_char _) _ => apply mono_refl
  | |- _ => first [ apply mono_refl | mono_call ]
  end.

Ltac mono_go := repeat mono_step.

Lemma mono_consume_whitespace :
  mono (consume_whitespace content n) (consume_whitespace content n').
Proof. unfold consume_whitespace. mono_go. Qed.

Lemma mono_skip_line : mono (skip_line content n) (skip_line content n').
Proof. unfold skip_line. mono_go. Qed.

Lemma mono_skip_to_next_line :
  mono (skip_to_next_line content n) (skip_to_next_line content n').
Proof. exact mono_skip_line. Qed.

Lemma mono_parse_number : mono (parse_number content n) (parse_number content n').
Proof. unfold parse_number. mono_go. Qed.

Ltac mono_call ::=
  first [ apply mono_consume_whitespace | apply mono_skip_line
        | apply mono_skip_to_next_line | apply mono_parse_number ].

Lemma mono_parse_identifier :
  mono (parse_identifier content n) (parse_identifier content n').
Proof. unfold parse_identifier. mono_go. Qed.

Lemma mono_parse_parentheses :
  mono (parse_parentheses content n) (parse_parentheses content n').
Proof. unfold parse_parentheses. mono_go. Qed.

Lemma mono_parse_string : mono (parse_string content n) (parse_string content n').
Proof. unfold parse_string. mono_go. Qed.

Lemma mono_parse_model_parameter :
  mono (parse_model_parameter content n) (parse_model_parameter content n').
Proof. unfold parse_model_parameter. mono_go. Qed.

Ltac mono_call ::=
  first [ apply mono_consume_whitespace | apply mono_skip_line
        | apply mono_skip_to_next_line | apply mono_parse_number
        | apply mono_parse_identifier | apply mono_parse_parentheses
        | apply mono_parse_string | apply mono_parse_model_parameter ].

Lemma mono_parse_choices :
  mono (parse_choices content n) (parse_choices content n').
Proof. unfold parse_choices. mono_go. Qed.

Ltac mono_call ::=
  first [ apply mono_consume_whitespace | apply mono_skip_line
        | apply mono_skip_to_next_line | apply mono_parse_number
        | apply mono_parse_identifier | apply mono_parse_parentheses
        | apply mono_parse_string | apply mono_parse_model_parameter
        | apply mono_parse_choices ].

Lemma mono_parse_attribute :
  mono (parse_attribute content n) (parse_attribute content n').
Proof. unfold parse_attribute. mono_go. Qed.

Ltac mono_call ::=
  first [ apply mono_consume_whitespace | apply mono_skip_line
        | apply mono_skip_to_next_line | apply mono_parse_number
        | apply mono_parse_identifier | apply mono_parse_parentheses
        | apply mono_parse_string | apply mono_parse_model_parameter
        | apply mono_parse_choices | apply mono_parse_attribute ].

Lemma mono_parse_entity :
  mono (parse_entity json_loads content n) (parse_entity json_loads content n').
Proof. unfold parse_entity, parse_parameter. mono_go. Qed.

Lemma mono_parse :
  mono (parse json_loads content n) (parse json_loads content n').
Proof. unfold parse. mono_go. apply mono_parse_entity. Qed.

End Fuel.

(* ================================================================== *)
(** ** Strings and groups that the text does not close *)

Lemma bind_ok {A B} (m : M A) (k : A -> M B) st a st' :
  m st = Ok a st' -> bind m k st = k a st'.
Proof. intros H. unfold bind. now rewrite H. Qed.

Lemma slice_from_nil p s : slice_from p s = "" -> String.length s <= p.
Proof.
  revert p. induction s as [|c s IH]; intros [|p]; simpl; intros H;
    try lia; try discriminate.
  apply IH in H. lia.
Qed.

Lemma slice_from_cons p s c s' :
  slice_from p s = String c s' ->
  String.get p s = Some c /\ slice_from (S p) s = s'.
Proof.
  revert p. induction s as [|d s IH]; intros [|p]; simpl; intros H;
    try discriminate.
  - injection H as -> ->. split; trivial.
  - apply IH in H. exact H.
Qed.

Section OpenGroup.
Variable content : string.

Lemma consume_whitespace_stays fuel st c :
  cur content st = Some c -> isspace c = false ->
  consume_whitespace content (S fuel) st = Ok tt st.
Proof.
  intros Hc Hs. unfold consume_whitespace. simpl. unfold bind at 1.
  rewrite (tests_in_bounds_peek content isspace st), Hc, Hs. reflexivity.
Qed.

Lemma open_group_loop s : forall fuel it pc st,
  slice_from (position st) content = s ->
  stays_open pc s = true ->
  (0 < pc)%Z -> (it + Z.of_nat (String.length s) < max_iterations)%Z ->
  String.length s < fuel ->
  exists pc',
    (0 < pc')%Z /\
    while fuel
      (fun '(iterations, parentheses_count) =>
         in_bounds content &&& ret (0 <? parentheses_count)%Z
                           &&& ret (iterations <? max_iterations)%Z)
      (fun '(iterations, parentheses_count) =>
         char <- peek content ;;
         let parentheses_count :=
           if (char =? "(")%char then (parentheses_count + 1)%Z
           else if (char =? ")")%char then (parentheses_count - 1)%Z
           else parentheses_count in
         advance 1 ;;
         ret (Next, ((iterations + 1)%Z, parentheses_count)))
      (it, pc) st
    = Ok ((it + Z.of_nat (String.length s))%Z, pc')
         (set_position (position st + String.length s) st).
Proof.
  induction s as [|c s IH]; intros fuel it pc st Hs Ho Hpc Hit Hf;
    (destruct fuel as [|fuel]; [simpl in Hf; lia|]).
  - exists pc. split; trivial. apply slice_from_nil in Hs.
    simpl. unfold andM, bind, in_bounds, ret.
    replace (position st <? length content) with false
      by (symmetry; apply Nat.ltb_ge; exact Hs).
    rewrite Z.add_0_r, Nat.add_0_r. now destruct st.
  - apply slice_from_cons in Hs. destruct Hs as [G Hs].
    pose proof (get_Some _ _ _ G) as Hin. simpl in Ho.
    apply andb_prop in Ho. destruct Ho as [Hd Ho].
    apply Z.ltb_lt in Hd. simpl String.length in *.
    set (d := if (c =? "(")%char then (pc + 1)%Z
              else if (c =? ")")%char then (pc - 1)%Z else pc) in *.
    destruct (IH fuel (it + 1)%Z d (set_position (position st + 1) st))
      as (pc' & Hpc' & Hloop); trivial.
    + simpl. now rewrite Nat.add_1_r.
    + lia.
    + lia.
    + exists pc'. split; trivial.
      cbn [while].
      erewrite bind_ok.
      2:{ unfold andM, bind, in_bounds, ret.
          replace (position st <? length content) with true
            by (symmetry; apply Nat.ltb_lt; exact Hin).
          replace (0 <? pc)%Z with true by (symmetry; apply Z.ltb_lt; lia).
          replace (it <? max_iterations)%Z with true
            by (symmetry; apply Z.ltb_lt; lia).
          reflexivity. }
      cbv beta iota.
      erewrite bind_ok.
      2:{ unfold bind, peek, ret, advance. rewrite G. reflexivity. }
      cbv beta iota. etransitivity; [exact Hloop|]. f_equal; [f_equal; lia|].
      unfold set_position. simpl. f_equal. lia.
Qed.

Lemma parse_parentheses_open st :
  cur content st = Some "("%char ->
  stays_open 1 (slice_from (position st + 1) content) = true ->
  length content - position st <= 1000 ->
  parse_parentheses content (budget content) st
  = Ok None
       (mkState (length content) (last_attribute st) (heap st)
          (stdout st ++
           ["Warning: Possible parsing error near: " +++
            slice (position st + 1) (position st + 1 + 50) content +++ "..."])).
Proof.
  intros Hc Ho Hlen. pose proof (get_Some _ _ _ Hc) as Hin.
  fold (length content) in Hin.
  unfold parse_parentheses, budget. fold (length content).
  erewrite bind_ok by exact (consume_whitespace_stays _ st "(" Hc eq_refl).
  erewrite bind_ok.
  2:{ unfold orM, bind, at_end, peek, ret.
      replace (length content <=? position st) with false
        by (symmetry; apply Nat.leb_gt; exact Hin).
      unfold cur in Hc. rewrite Hc. reflexivity. }
  change (negb ("(" =? "(")%char) with false. cbv beta iota.
  erewrite bind_ok by reflexivity.
  erewrite bind_ok by reflexivity.
  assert (Hlen' : String.length (slice_from (position st + 1) content)
                  = length content - (position st + 1)).
  { clear. unfold length. generalize (position st + 1). intros p. revert p.
    induction content as [|c s IH]; intros [|p]; simpl; trivial. }
  destruct (open_group_loop (slice_from (position st + 1) content)
              (S (length content)) 0%Z 1%Z
              (set_position (position st + 1) st))
    as (pc' & Hpc' & Hloop); trivial.
  - lia.
  - rewrite Hlen'. unfold max_iterations. lia.
  - rewrite Hlen'. lia.
  - erewrite bind_ok by exact Hloop. cbv beta iota.
    replace (0 <? pc')%Z with true by (symmetry; apply Z.ltb_lt; lia).
    rewrite orb_true_l.
    erewrite bind_ok by reflexivity. unfold ret. f_equal.
    simpl. rewrite Hlen'. f_equal. lia.
Qed.
Lemma open_string_loop n : forall fuel it st,
  position st + n = length content ->
  unterminated content (position st) ->
  (0 <= it)%Z -> (it + Z.of_nat n < max_iterations)%Z ->
  n < fuel ->
  while fuel
    (fun iterations =>
       in_bounds content &&&
       (c <- peek content ;; ret (negb (c =? dquote)%char)) &&&
       ret (iterations <? max_iterations)%Z)
    (fun iterations => advance 1 ;; ret (Next, (iterations + 1)%Z))
    it st
  = Ok (it + Z.of_nat n)%Z (set_position (length content) st).
Proof.
  induction n as [|n IH]; intros fuel it st Hn Hu H0 Hit Hf;
    (destruct fuel as [|fuel]; [lia|]); simpl;
    unfold andM, bind, in_bounds, peek, ret.
  - replace (position st <? length content) with false
      by (symmetry; apply Nat.ltb_ge; lia).
    rewrite Z.add_0_r. f_equal. destruct st. unfold set_position. simpl in *.
    f_equal. lia.
  - replace (position st <? length content) with true
      by (symmetry; apply Nat.ltb_lt; lia).
    destruct (String.get (position st) content) as [c|] eqn:G.
    2:{ apply get_None in G. unfold length in Hn. lia. }
    assert (Hc : (c =? dquote)%char = false).
    { apply Ascii.eqb_neq. exact (Hu _ c (Nat.le_refl _) G). }
    rewrite Hc. simpl.
    replace (it <? max_iterations)%Z with true
      by (symmetry; apply Z.ltb_lt; lia).
    unfold advance. rewrite (IH fuel (it + 1)%Z).
    + f_equal. lia.
    + simpl. lia.
    + intros i c' Hi. apply Hu. simpl in Hi. lia.
    + lia.
    + lia.
    + lia.
Qed.

Lemma parse_string_open st :
  cur content st = Some dquote ->
  unterminated content (position st + 1) ->
  length content - position st <= 1000 ->
  parse_string content (budget content) st
  = Ok (strip (slice (position st + 1) (length content) content))
       (set_position (length content + 1) st).
Proof.
  intros Hc Hu Hlen. pose proof (get_Some _ _ _ Hc) as Hin.
  fold (length content) in Hin.
  unfold parse_string, budget. fold (length content).
  erewrite bind_ok by exact (consume_whitespace_stays _ st dquote Hc eq_refl).
  erewrite bind_ok.
  2:{ unfold orM, bind, at_end, peek, ret.
      replace (length content <=? position st) with false
        by (symmetry; apply Nat.leb_gt; exact Hin).
      unfold cur in Hc. rewrite Hc. reflexivity. }
  change (negb (dquote =? dquote)%char) with false. cbv beta iota.
  erewrite bind_ok by reflexivity.
  erewrite bind_ok by reflexivity.
  erewrite bind_ok.
  2:{ apply (open_string_loop (length content - (position st + 1)));
        [simpl; lia | exact Hu | lia | unfold max_iterations; lia | lia]. }
  replace (max_iterations <=? 0 + Z.of_nat (length content - (position st + 1)))%Z
    with false by (symmetry; apply Z.leb_gt; unfold max_iterations; lia).
  reflexivity.
Qed.
End OpenGroup.

(* ================================================================== *)
(** ** [parse] uses [json.loads] through its results only *)





Section Decoders.
Variables j1 j2 : string -> json_result.
Hypothesis same : forall s, j1 s = j2 s.
Variable content : string.
Variable fuel : nat.



End Decoders.


(* ================================================================== *)
(** ** The claims of the specification *)

(** C1.  For the input
    [@PointClass color(255 0 0) = foo : "desc" [ attr(integer) : "a" : "3" ]]
    a new parser, in whatever state the interpreter is, returns exactly
    one entity: class type [pointclass], color [255 0 0], classname
    [foo], description [desc], and the single attribute [attr] of type
    [integer], description [a], default [3].  Nothing is printed. *)
Theorem parse_pointclass_foo json_loads h out :
  observe (parse json_loads pointclass_foo (budget pointclass_foo)
             (FGDParser h out))
  = Returned [entity_foo] out.
Proof.
  rewrite run_parse_in_world.
  assert (E : run_parse json_loads pointclass_foo = Returned [entity_foo] [])
    by (vm_compute; reflexivity).
  rewrite E. simpl. now rewrite app_nil_r.
Qed.

(** C2 (the code departs from the claim).  Entities that end too early
    make [parse] raise [IndexError]: the accesses to
    [self.content[self.position]] after the classname, after the colon
    of a default value, after [choices] and inside a choices block are
    not guarded by [self.position < self.length]. *)
Theorem truncated_entities_raise json_loads :
  run_parse json_loads no_description = Raised IndexError [] /\
  run_parse json_loads no_classname = Raised IndexError [] /\
  run_parse json_loads no_default = Raised IndexError [] /\
  run_parse json_loads no_equals = Raised IndexError [] /\
  run_parse json_loads open_choices = Raised IndexError [].
Proof. repeat apply conj; vm_compute; reflexivity. Qed.



(** C4.  A parse of any text, by a new parser in any interpreter state,
    ends: no loop of it needs more than [len(content) + 1] iterations,
    and when [parse] returns or raises the cursor is at or past the end
    of the text.  Allowing the loops more iterations changes nothing. *)
Theorem parse_terminates json_loads content h out :
  match parse json_loads content (budget content) (FGDParser h out) with
  | Ok _ st => length content <= position st
  | Raise _ st => length content <= position st
  | OutOfFuel => False
  end /\
  forall more,
    parse json_loads content (budget content + more) (FGDParser h out)
    = parse json_loads content (budget content) (FGDParser h out).
Proof.
  pose proof (parse_spec json_loads content (budget content)
                (budget_enough content) (FGDParser h out)) as H.
  unfold wp in H. split.
  - destruct (parse json_loads content (budget content) (FGDParser h out));
      trivial; apply H.
  - intros more. apply mono_parse; [lia|]. intros E. now rewrite E in H.
Qed.

(** C5 (the code departs from the claim).  When the text ends before
    the closing quote, fewer than 1000 characters after the opening one,
    [parse_string] returns what it has read, prints nothing and leaves
    the cursor one past the end of the text.  So the description of an
    entity whose closing quote is missing is the rest of the text, and
    no diagnostic is printed. *)
Theorem open_string_is_returned :
  (forall content st,
     cur content st = Some dquote ->
     unterminated content (position st + 1) ->
     length content - position st <= 1000 ->
     parse_string content (budget content) st
     = Ok (strip (slice (position st + 1) (length content) content))
          (set_position (length content + 1) st)) /\
  (forall json_loads,
     run_parse json_loads open_string
     = Returned [entity_plain "abc" JNull] []).
Proof.
  split.
  - exact parse_string_open.
  - intros json_loads. vm_compute. reflexivity.
Qed.

Lemma open_string_is_returned_witness :
  parse_string open_string (budget open_string) (mkState 20 None [] [])
  = Ok "abc" (mkState 25 None [] []).
Proof.
  refine (eq_trans
            (proj1 open_string_is_returned open_string
               (mkState 20 None [] []) _ _ _) _).
  - reflexivity.
  - intros i c Hi G. simpl in Hi.
    do 24 (destruct i as [|i];
           [first [lia | vm_compute in G; injection G as <-; discriminate]|]).
    vm_compute in G. discriminate.
  - vm_compute. lia.
  - vm_compute. reflexivity.
Defined.

(** C6 (the code departs from the claim).  When the text ends before
    the parenthesis of a group is closed, fewer than 1000 characters
    after it was opened, [parse_parentheses] prints its warning and
    returns [None] with the cursor at the end of the text.  After
    [size(] that leaves [size] absent, but [parse_entity] then reads
    past the end of the text: [parse] raises [IndexError] and returns
    no entity. *)
Theorem open_size_raises :
  (forall content st,
     cur content st = Some "("%char ->
     stays_open 1 (slice_from (position st + 1) content) = true ->
     length content - position st <= 1000 ->
     parse_parentheses content (budget content) st
     = Ok None
          (mkState (length content) (last_attribute st) (heap st)
             (stdout st ++
              ["Warning: Possible parsing error near: " +++
               slice (position st + 1) (position st + 1 + 50) content +++
               "..."]))) /\
  (forall json_loads,
     run_parse json_loads open_size
     = Raised IndexError
         ["Warning: Possible parsing error near: -8 -8 -8 8 8 8 = foo : "
          +++ q "desc" +++ " []..."]).
Proof.
  split.
  - exact parse_parentheses_open.
  - intros json_loads. vm_compute. reflexivity.
Qed.

Lemma open_size_raises_witness :
  parse_parentheses open_size (budget open_size) (mkState 16 None [] [])
  = Ok None
       (mkState 49 None []
          ["Warning: Possible parsing error near: -8 -8 -8 8 8 8 = foo : "
           +++ q "desc" +++ " []..."]).
Proof.
  refine (eq_trans
            (proj1 open_size_raises open_size (mkState 16 None [] []) _ _ _) _).
  - reflexivity.
  - vm_compute. reflexivity.
  - vm_compute. lia.
  - vm_compute. reflexivity.
Defined.

(** C8.  Two parses of the same text, each by a new parser, the second
    one made in the interpreter state the first one leaves: the second
    ends the way the first did, returns entities equal to those of the
    first, prints the same lines again, and changes no object that
    existed before it. *)
Theorem parse_twice json_loads content h out :
  match parse json_loads content (budget content) (FGDParser h out) with
  | Ok es1 st1 =>
      exists es2 st2 printed h',
        parse json_loads content (budget content)
          (FGDParser (heap st1) (stdout st1)) = Ok es2 st2 /\
        snapshot (heap st2) es2 = snapshot (heap st1) es1 /\
        stdout st1 = out ++ printed /\
        stdout st2 = stdout st1 ++ printed /\
        heap st2 = heap st1 ++ h'
  | Raise e st1 =>
      exists st2 printed,
        parse json_loads content (budget content)
          (FGDParser (heap st1) (stdout st1)) = Raise e st2 /\
        stdout st1 = out ++ printed /\
        stdout st2 = stdout st1 ++ printed
  | OutOfFuel => False
  end.
Proof.
  pose proof (parse_spec json_loads content (budget content)
                (budget_enough content) (FGDParser [] [])) as T.
  unfold wp in T.
  rewrite (parse_in_world json_loads content (budget content) h out).
  destruct (parse json_loads content (budget content) (FGDParser [] []))
    as [es0 st0|e st0|] eqn:E0; simpl; trivial.
  - exists (shift (k := List.length (h ++ heap st0)) es0),
      (lift (h ++ heap st0) (out ++ stdout st0) st0), (stdout st0), (heap st0).
    split; [now rewrite parse_in_world, E0|].
    simpl. now rewrite !snapshot_shift.
  - exists (lift (h ++ heap st0) (out ++ stdout st0) st0), (stdout st0).
    split; [now rewrite parse_in_world, E0|]. simpl. auto.
Qed.

(** C9.  For the empty text a new parser, in whatever state the
    interpreter is, returns no entity and prints nothing. *)
Theorem parse_empty json_loads h out :
  observe (parse json_loads "" (budget "") (FGDParser h out)) = Returned [] out.
Proof.
  rewrite run_parse_in_world.
  assert (E : run_parse json_loads "" = Returned [] [])
    by (vm_compute; reflexivity).
  rewrite E. simpl. now rewrite app_nil_r.
Qed.

(** C10.  In the entities that a parse returns, the value of every
    choice of every attribute is not empty, consists of digits and
    minus signs, and has nothing for [strip] to remove. *)
Theorem choice_values_are_keys json_loads content es printed e a cs c :
  run_parse json_loads content = Returned es printed ->
  In e es ->
  In a (EntityClass.attributes e) ->
  Attribute.choices a = Some cs ->
  In c cs ->
  Choice.value c <> "" /\
  all_chars key_char (Choice.value c) = true /\
  strip (Choice.value c) = Choice.value c.
Proof.
  intros Hrun He Ha Hcs Hc.
  pose proof (parse_spec json_loads content (budget content)
                (budget_enough content) (FGDParser [] [])) as H.
  unfold wp in H. unfold run_parse, observe in Hrun.
  destruct (parse json_loads content (budget content) (FGDParser [] []))
    as [es0 st|e0 st|]; try discriminate.
  injection Hrun as <- _. destruct H as (_ & _ & Hgood & _).
  specialize (Hgood (Forall_nil _)). unfold good_heap in Hgood.
  unfold snapshot in He. apply in_map_iff in He. destruct He as (e0 & <- & _).
  simpl in Ha.
  pose proof (deref_Forall _ _ (EntityClass.attributes e0) Hgood) as Hd.
  rewrite Forall_forall in Hd. specialize (Hd a Ha cs Hcs).
  rewrite Forall_forall in Hd. exact (Hd c Hc).
Qed.

Lemma choice_values_are_keys_witness :
  run_parse not_json two_attributes = Returned [entity_lamp] [] /\
  (Choice.value (Choice.Make "1" "On") <> "" /\
   all_chars key_char (Choice.value (Choice.Make "1" "On")) = true /\
   strip (Choice.value (Choice.Make "1" "On"))
   = Choice.value (Choice.Make "1" "On")).
Proof.
  split; [vm_compute; reflexivity|].
  apply (choice_values_are_keys not_json two_attributes [entity_lamp] []
           entity_lamp
           (Attribute.Make "second" "integer" "Second" None (Some off_on))
           off_on (Choice.Make "1" "On")).
  - vm_compute. reflexivity.
  - simpl. auto.
  - simpl. auto.
  - reflexivity.
  - simpl. auto.
Defined.

(* ================================================================== *)
(** ** Further properties of the methods *)

Lemma length_append (s t : string) :
  String.length (s +++ t) = String.length s + String.length t.
Proof. induction s as [|c s IH]; simpl; [reflexivity | now rewrite IH]. Qed.

Lemma append_nil_r (s : string) : s +++ "" = s.
Proof. induction s as [|c s IH]; simpl; [reflexivity | now rewrite IH]. Qed.

Lemma append_assoc (s t u : string) : (s +++ t) +++ u = s +++ t +++ u.
Proof. induction s as [|c s IH]; simpl; [reflexivity | now rewrite IH]. Qed.

Lemma all_chars_nil p : all_chars p "" = true.
Proof. reflexivity. Qed.

Lemma all_chars_cons p c s : all_chars p (String c s) = p c && all_chars p s.
Proof. reflexivity. Qed.

Lemma all_chars_app p s t :
  all_chars p (s +++ t) = all_chars p s && all_chars p t.
Proof.
  induction s as [|c s IH]; simpl; trivial.
  rewrite !all_chars_cons, IH. apply andb_assoc.
Qed.

Lemma all_chars_impl (p q : ascii -> bool) s :
  (forall c, p c = true -> q c = true) ->
  all_chars p s = true -> all_chars q s = true.
Proof.
  intros H. induction s as [|c s IH]; trivial.
  rewrite !all_chars_cons. intros E. apply andb_prop in E. destruct E as [E1 E2].
  now rewrite (H _ E1), IH.
Qed.

Lemma length_slice_from a s : String.length (slice_from a s) = String.length s - a.
Proof. revert a. induction s as [|c s IH]; intros [|a]; simpl; trivial. Qed.

Lemma slice_from_add a b s : slice_from (a + b) s = slice_from b (slice_from a s).
Proof.
  revert s. induction a as [|a IH]; intros s; simpl; trivial.
  destruct s as [|c s]; simpl; [now destruct b | apply IH].
Qed.

Lemma slice_from_length_app r rest : slice_from (String.length r) (r +++ rest) = rest.
Proof. induction r as [|c r IH]; simpl; trivial. Qed.

Lemma slice_from_app a s r rest :
  slice_from a s = r +++ rest -> slice_from (a + String.length r) s = rest.
Proof. intros H. now rewrite slice_from_add, H, slice_from_length_app. Qed.

Lemma substring_slice_from a n s : substring a n s = substring 0 n (slice_from a s).
Proof.
  revert s. induction a as [|a IH]; intros s; simpl; trivial.
  destruct s as [|c s]; simpl; [now destruct n | apply IH].
Qed.

Lemma substring_prefix r rest : substring 0 (String.length r) (r +++ rest) = r.
Proof.
  induction r as [|c r IH]; simpl; [now destruct rest | now rewrite IH].
Qed.

Lemma slice_app a s r rest :
  slice_from a s = r +++ rest -> slice a (a + String.length r) s = r.
Proof.
  intros H. unfold slice. rewrite substring_slice_from, H.
  replace (a + String.length r - a) with (String.length r) by lia.
  apply substring_prefix.
Qed.

Lemma slice_from_cur content st :
  cur content st
  = match slice_from (position st) content with
    | String c _ => Some c
    | EmptyString => None
    end.
Proof.
  unfold cur. destruct (slice_from (position st) content) as [|c s] eqn:E.
  - apply get_None. now apply slice_from_nil.
  - now apply slice_from_cons in E.
Qed.

Lemma set_position_same st : set_position (position st + 0) st = st.
Proof. destruct st. unfold set_position. simpl. now rewrite Nat.add_0_r. Qed.

Lemma set_position_twice p q st : set_position q (set_position p st) = set_position q st.
Proof. reflexivity. Qed.

(* ================================================================== *)
(** ** The loops that step over characters *)

Lemma skip_loop content p cond :
  tests content p cond ->
  forall s fuel st,
    slice_from (position st) content = s -> String.length s < fuel ->
    exists r rest,
      s = r +++ rest /\ all_chars p r = true /\ stops p rest /\
      while fuel (fun _ => cond) (fun _ => advance 1 ;; ret (Next, tt)) tt st
      = Ok tt (set_position (position st + String.length r) st).
Proof.
  intros Hc s. induction s as [|c s IH]; intros fuel st Hs Hf;
    (destruct fuel as [|fuel]; [simpl in Hf; lia|]).
  - exists "", "". repeat apply conj; trivial; [intros c s'; discriminate|].
    cbn [while]. unfold bind. rewrite Hc, slice_from_cur, Hs.
    unfold ret. now rewrite set_position_same.
  - destruct (p c) eqn:Hp.
    + destruct (IH fuel (set_position (position st + 1) st))
        as (r & rest & E & Hr & Hrest & Hloop).
      * simpl. rewrite Nat.add_1_r. now apply slice_from_cons in Hs.
      * simpl in Hf. lia.
      * exists (String c r), rest. repeat apply conj; trivial.
        -- simpl. now rewrite E.
        -- now rewrite all_chars_cons, Hp, Hr.
        -- cbn [while]. unfold bind at 1. rewrite Hc, slice_from_cur, Hs, Hp.
           unfold bind, advance, ret. unfold advance in Hloop.
           etransitivity; [exact Hloop|]. f_equal. simpl.
           unfold set_position. simpl. f_equal. lia.
    + exists "", (String c s). repeat apply conj; trivial.
      * intros c' s' E. now injection E as <- <-.
      * cbn [while]. unfold bind. rewrite Hc, slice_from_cur, Hs, Hp.
        unfold ret. now rewrite set_position_same.
Qed.

Lemma budget_slice_from content a :
  String.length (slice_from a content) < budget content.
Proof. rewrite length_slice_from. unfold budget. lia. Qed.

Lemma lstrip_app ws rest :
  all_chars isspace ws = true -> stops isspace rest -> lstrip (ws +++ rest) = rest.
Proof.
  intros Hws Hrest. induction ws as [|c ws IH]; simpl.
  - destruct rest as [|c rest]; trivial. simpl. now rewrite (Hrest c rest).
  - rewrite all_chars_cons in Hws. apply andb_prop in Hws.
    destruct Hws as [-> Hws]. auto.
Qed.

(** X1.  [consume_whitespace] always returns, changes nothing but the
    position, and leaves the parser at the first character that is not
    white space: the text from the new position on is the text from the
    old position on with its leading white space stripped. *)
Theorem consume_whitespace_is_lstrip content st :
  exists p,
    consume_whitespace content (budget content) st = Ok tt (set_position p st) /\
    position st <= p /\
    (p <= length content \/ p = position st) /\
    slice_from p content = lstrip (slice_from (position st) content).
Proof.
  destruct (skip_loop content isspace _ (tests_in_bounds_peek content isspace)
              _ (budget content) st eq_refl (budget_slice_from _ _))
    as (ws & rest & E & Hws & Hrest & Hloop).
  exists (position st + String.length ws). repeat apply conj.
  - exact Hloop.
  - lia.
  - pose proof (length_slice_from (position st) content) as L.
    rewrite E, length_append in L. unfold length. lia.
  - rewrite (slice_from_app _ _ _ _ E), E. symmetry. now apply lstrip_app.
Qed.

Lemma bind_ok' {A B} (m : M A) (k : A -> M B) st a st' r :
  m st = Ok a st' -> k a st' = r -> bind m k st = r.
Proof. intros H <-. now apply bind_ok. Qed.

(** X2.  [skip_line] and [skip_to_next_line] do the same: from any
    state both return with the position one past the next newline, or,
    when no newline is left, one past the end of the content (one past
    the position when that is already behind the end). *)
Theorem skip_line_to_next_line content st :
  exists line rest,
    slice_from (position st) content = line +++ rest /\
    all_chars (not_char newline) line = true /\
    (rest = "" \/ exists rest', rest = String newline rest') /\
    skip_line content (budget content) st
    = Ok tt (set_position (position st + String.length line + 1) st) /\
    skip_to_next_line content (budget content) st
    = Ok tt (set_position (position st + String.length line + 1) st).
Proof.
  destruct (skip_loop content (not_char newline) _
              (tests_in_bounds_peek content (not_char newline))
              _ (budget content) st eq_refl (budget_slice_from _ _))
    as (line & rest & E & Hline & Hrest & Hloop).
  exists line, rest. repeat apply conj; trivial.
  - destruct rest as [|c rest]; [now left | right].
    exists rest. f_equal. specialize (Hrest c rest eq_refl).
    unfold not_char in Hrest. apply negb_false_iff in Hrest.
    now apply Ascii.eqb_eq.
  - unfold skip_line. eapply bind_ok'; [exact Hloop | reflexivity].
  - unfold skip_to_next_line. eapply bind_ok'; [exact Hloop | reflexivity].
Qed.

Lemma identifier_not_space c : identifier_char c = true -> isspace c = false.
Proof.
  destruct c as [[] [] [] [] [] [] [] []]; vm_compute; congruence.
Qed.

Lemma run_unique p r1 : forall rest1 r2 rest2,
  r1 +++ rest1 = r2 +++ rest2 ->
  all_chars p r1 = true -> stops p rest1 ->
  all_chars p r2 = true -> stops p rest2 ->
  r1 = r2 /\ rest1 = rest2.
Proof.
  induction r1 as [|c r1 IH]; intros rest1 r2 rest2 E H1 S1 H2 S2.
  - destruct r2 as [|d r2]; [now split|]. simpl in E.
    rewrite all_chars_cons in H2. apply andb_prop in H2.
    rewrite (S1 d (r2 +++ rest2) E) in H2. destruct H2; discriminate.
  - destruct r2 as [|d r2]; simpl in E.
    + rewrite all_chars_cons in H1. apply andb_prop in H1.
      rewrite (S2 c (r1 +++ rest1) (eq_sym E)) in H1. destruct H1; discriminate.
    + injection E as <- E. rewrite all_chars_cons in H1, H2.
      apply andb_prop in H1, H2.
      destruct (IH rest1 r2 rest2 E (proj2 H1) S1 (proj2 H2) S2) as [-> ->].
      now split.
Qed.

Lemma length_run_fuel content a r rest :
  slice_from a content = r +++ rest -> String.length r < budget content.
Proof.
  intros E. pose proof (budget_slice_from content a) as L.
  rewrite E, length_append in L. lia.
Qed.

(** The loop over the characters that satisfy [p], when the text at the
    cursor is known. *)
Lemma skip_loop_given content p cond st r rest :
  tests content p cond ->
  slice_from (position st) content = r +++ rest ->
  all_chars p r = true -> stops p rest ->
  while (budget content) (fun _ => cond) (fun _ => advance 1 ;; ret (Next, tt)) tt st
  = Ok tt (set_position (position st + String.length r) st).
Proof.
  intros Hc E Hr Hrest.
  destruct (skip_loop content p cond Hc _ (budget content) st eq_refl
              (budget_slice_from _ _))
    as (r' & rest' & E' & Hr' & Hrest' & Hloop).
  rewrite E in E'.
  destruct (run_unique p r rest r' rest' E' Hr Hrest Hr' Hrest') as [-> _].
  exact Hloop.
Qed.

Lemma consume_whitespace_given content st ws rest :
  slice_from (position st) content = ws +++ rest ->
  all_chars isspace ws = true -> stops isspace rest ->
  consume_whitespace content (budget content) st
  = Ok tt (set_position (position st + String.length ws) st).
Proof.
  intros. eapply skip_loop_given; eauto. apply tests_in_bounds_peek.
Qed.

Lemma at_end_or_peek content (p : ascii -> bool) st :
  (at_end content ||| (c <- peek content ;; ret (p c))) st
  = Ok (match cur content st with Some c => p c | None => true end) st.
Proof.
  unfold orM, bind, at_end, peek, ret, cur.
  destruct (Nat.leb_spec (length content) (position st)) as [H|H].
  - apply get_None in H. now rewrite H.
  - destruct (String.get (position st) content) eqn:G; trivial.
    apply get_None in G. unfold length in H. lia.
Qed.

Lemma string_cond content it st :
  (in_bounds content &&& (c <- peek content ;; ret (negb (c =? dquote)%char))
                     &&& ret (it <? max_iterations)%Z) st
  = Ok (match cur content st with
        | Some c => not_char dquote c
        | None => false
        end && (it <? max_iterations)%Z) st.
Proof.
  unfold andM at 1. unfold bind at 1.
  rewrite (tests_in_bounds_peek content (fun c => negb (c =? dquote)%char) st).
  unfold not_char.
  destruct (cur content st) as [c|]; [destruct (negb (c =? dquote)%char)|];
    reflexivity.
Qed.

Lemma string_loop content t : forall fuel it st rest,
  slice_from (position st) content = t +++ rest ->
  all_chars (not_char dquote) t = true ->
  ((it + Z.of_nat (String.length t) < max_iterations)%Z /\
   stops (not_char dquote) rest
   \/ (it + Z.of_nat (String.length t))%Z = max_iterations) ->
  String.length t < fuel ->
  while fuel
    (fun iterations =>
       in_bounds content &&&
       (c <- peek content ;; ret (negb (c =? dquote)%char)) &&&
       ret (iterations <? max_iterations)%Z)
    (fun iterations => advance 1 ;; ret (Next, (iterations + 1)%Z))
    it st
  = Ok (it + Z.of_nat (String.length t))%Z
       (set_position (position st + String.length t) st).
Proof.
  induction t as [|c t IH]; intros fuel it st rest E Ht Hstop Hf;
    (destruct fuel as [|fuel]; [simpl in Hf; lia|]);
    cbn [while]; unfold bind at 1; rewrite string_cond, slice_from_cur, E.
  - simpl String.length. rewrite Z.add_0_r, set_position_same.
    simpl in Hstop. rewrite Z.add_0_r in Hstop.
    destruct Hstop as [[Hit Hs]|Hit].
    + destruct rest as [|c rest]; simpl; trivial.
      now rewrite (Hs c rest eq_refl).
    + replace (it <? max_iterations)%Z with false
        by (symmetry; apply Z.ltb_ge; lia).
      now rewrite andb_false_r.
  - rewrite all_chars_cons in Ht. apply andb_prop in Ht. destruct Ht as [Hc Ht].
    cbn [String.append]. cbv iota. rewrite Hc. simpl String.length in *.
    replace (it <? max_iterations)%Z with true
      by (symmetry; apply Z.ltb_lt; lia).
    cbn [andb]. eapply bind_ok'; [reflexivity|]. cbv beta iota.
    rewrite (IH fuel (it + 1)%Z (set_position (position st + 1) st) rest).
    + f_equal; [lia|]. unfold set_position. simpl. f_equal. lia.
    + simpl. rewrite Nat.add_1_r. now apply slice_from_cons in E.
    + exact Ht.
    + destruct Hstop as [[Hit Hs]|Hit]; [left; split; [lia | exact Hs] | right; lia].
    + lia.
Qed.

Lemma cur_given content st c s :
  slice_from (position st) content = String c s -> cur content st = Some c.
Proof. intros E. now rewrite slice_from_cur, E. Qed.

Lemma stops_cons p c s : p c = false -> stops p (String c s).
Proof. intros H c' s' E. now injection E as <- <-. Qed.

Lemma stops_nil p : stops p "".
Proof. intros c s; discriminate. Qed.

Lemma parse_string_read content st ws t rest :
  slice_from (position st) content = ws +++ String dquote (t +++ rest) ->
  all_chars isspace ws = true ->
  all_chars (not_char dquote) t = true ->
  stops (not_char dquote) rest ->
  String.length t < 1000 ->
  parse_string content (budget content) st
  = Ok (strip t)
       (set_position (position st + String.length ws + String.length t + 2) st).
Proof.
  intros E Hws Ht Hrest Hlen.
  pose proof (slice_from_app _ _ _ _ E) as E1.
  set (st1 := set_position (position st + String.length ws) st) in *.
  assert (E2 : slice_from (position st1 + 1) content = t +++ rest).
  { change (String dquote (t +++ rest))
      with (String dquote "" +++ t +++ rest) in E1.
    exact (slice_from_app _ _ _ _ E1). }
  unfold parse_string.
  eapply bind_ok';
    [exact (consume_whitespace_given _ _ _ _ E Hws (stops_cons _ _ _ eq_refl))|].
  fold st1. eapply bind_ok'; [apply at_end_or_peek|].
  rewrite (cur_given content st1 _ _ E1). change (negb (dquote =? dquote)%char) with false.
  cbv iota. eapply bind_ok'; [reflexivity|]. eapply bind_ok'; [reflexivity|].
  eapply bind_ok'.
  { apply (string_loop content t (budget content) 0%Z
             (set_position (position st1 + 1) st1) rest); trivial.
    - left. split; [unfold max_iterations; lia | exact Hrest].
    - exact (length_run_fuel _ _ _ _ E2). }
  replace (max_iterations <=? 0 + Z.of_nat (String.length t))%Z with false
    by (symmetry; apply Z.leb_gt; unfold max_iterations; lia).
  eapply bind_ok'; [reflexivity|]. eapply bind_ok'; [reflexivity|].
  unfold ret. f_equal.
  - f_equal. simpl. exact (slice_app _ _ _ _ E2).
  - unfold set_position. simpl. f_equal. lia.
Qed.

(** X5.  After optional white space, on a quoted string of fewer than
    1000 characters, [parse_string] returns the characters between the two
    quotes with the white space at both ends stripped, and stops just
    behind the closing quote; nothing is printed. *)
Theorem parse_string_closed content st ws t rest :
  slice_from (position st) content
  = ws +++ String dquote (t +++ String dquote rest) ->
  all_chars isspace ws = true ->
  all_chars (not_char dquote) t = true ->
  String.length t < 1000 ->
  parse_string content (budget content) st
  = Ok (strip t)
       (set_position (position st + String.length ws + String.length t + 2) st).
Proof.
  intros E Hws Ht Hlen.
  apply (parse_string_read content st ws t (String dquote rest)); trivial.
  now apply stops_cons.
Qed.

Lemma substring_app_l n t rest :
  n <= String.length t -> substring 0 n (t +++ rest) = substring 0 n t.
Proof.
  revert n. induction t as [|c t IH]; intros [|n] H; simpl in *; trivial;
    try lia.
  - now destruct rest.
  - rewrite IH by lia. reflexivity.
Qed.

Lemma slice_given a n content t rest :
  slice_from a content = t +++ rest -> n <= String.length t ->
  slice a (a + n) content = substring 0 n t.
Proof.
  intros E H. unfold slice. rewrite substring_slice_from, E.
  replace (a + n - a) with n by lia. now apply substring_app_l.
Qed.

Lemma parse_string_cap_eq content st ws t rest :
  slice_from (position st) content = ws +++ String dquote (t +++ rest) ->
  all_chars isspace ws = true ->
  all_chars (not_char dquote) t = true ->
  String.length t = 1000 ->
  parse_string content (budget content) st
  = Ok ""
       (mkState (position st + String.length ws + 1001)
          (last_attribute st) (heap st)
          (stdout st ++
           ["Warning: Possible parsing error in string near: " +++
            substring 0 50 t +++ "..."])).
Proof.
  intros E Hws Ht Hlen.
  pose proof (slice_from_app _ _ _ _ E) as E1.
  set (st1 := set_position (position st + String.length ws) st) in *.
  assert (E2 : slice_from (position st1 + 1) content = t +++ rest).
  { change (String dquote (t +++ rest))
      with (String dquote "" +++ t +++ rest) in E1.
    exact (slice_from_app _ _ _ _ E1). }
  unfold parse_string.
  eapply bind_ok';
    [exact (consume_whitespace_given _ _ _ _ E Hws (stops_cons _ _ _ eq_refl))|].
  fold st1. eapply bind_ok'; [apply at_end_or_peek|].
  rewrite (cur_given content st1 _ _ E1).
  change (negb (dquote =? dquote)%char) with false.
  cbv iota. eapply bind_ok'; [reflexivity|]. eapply bind_ok'; [reflexivity|].
  eapply bind_ok'.
  { apply (string_loop content t (budget content) 0%Z
             (set_position (position st1 + 1) st1) rest); trivial.
    - right. unfold max_iterations. lia.
    - exact (length_run_fuel _ _ _ _ E2). }
  replace (max_iterations <=? 0 + Z.of_nat (String.length t))%Z with true
    by (symmetry; apply Z.leb_le; unfold max_iterations; lia).
  eapply bind_ok'; [reflexivity|]. unfold ret. f_equal.
  subst st1. unfold set_position in *. cbn [position last_attribute heap stdout] in *.
  rewrite (slice_given _ 50 _ _ _ E2) by lia. f_equal. lia.
Qed.

Lemma parse_string_without_quote_eq content st ws rest :
  slice_from (position st) content = ws +++ rest ->
  all_chars isspace ws = true ->
  stops isspace rest ->
  stops (fun c => (c =? dquote)%char) rest ->
  parse_string content (budget content) st
  = Ok "" (set_position (position st + String.length ws) st).
Proof.
  intros E Hws Hrest Hq.
  pose proof (slice_from_app _ _ _ _ E) as E1.
  set (st1 := set_position (position st + String.length ws) st) in *.
  unfold parse_string.
  eapply bind_ok'; [exact (consume_whitespace_given _ _ _ _ E Hws Hrest)|].
  fold st1. eapply bind_ok'; [apply at_end_or_peek|].
  rewrite slice_from_cur. change (position st1) with (position st + String.length ws).
  rewrite E1. destruct rest as [|c rest]; trivial.
  now rewrite (Hq c rest eq_refl).
Qed.

Section Parentheses.
Variable content : string.

Lemma paren_step fuel it pc st c s :
  slice_from (position st) content = String c s ->
  (0 < pc)%Z -> (it < max_iterations)%Z ->
  paren_loop content (S fuel) (it, pc) st
  = paren_loop content fuel
      ((it + 1)%Z,
       if (c =? "(")%char then (pc + 1)%Z
       else if (c =? ")")%char then (pc - 1)%Z else pc)
      (set_position (position st + 1) st).
Proof.
  intros E Hpc Hit. unfold paren_loop. cbn [while].
  apply slice_from_cons in E. destruct E as [G _].
  pose proof (get_Some _ _ _ G) as Hin.
  eapply bind_ok'.
  { unfold andM, bind, in_bounds, ret.
    replace (position st <? length content) with true
      by (symmetry; apply Nat.ltb_lt; exact Hin).
    replace (0 <? pc)%Z with true by (symmetry; apply Z.ltb_lt; lia).
    replace (it <? max_iterations)%Z with true
      by (symmetry; apply Z.ltb_lt; lia).
    reflexivity. }
  cbv beta iota. eapply bind_ok'.
  { unfold bind, peek, ret, advance. rewrite G. reflexivity. }
  reflexivity.
Qed.

Lemma paren_exit fuel it pc st :
  (pc <= 0)%Z \/ (max_iterations <= it)%Z ->
  paren_loop content (S fuel) (it, pc) st = Ok (it, pc) st.
Proof.
  intros H. unfold paren_loop. cbn [while].
  eapply bind_ok'.
  { unfold andM, bind, in_bounds, ret.
    assert (B : ((0 <? pc)%Z && (it <? max_iterations)%Z) = false).
    { destruct H as [H|H].
      - replace (0 <? pc)%Z with false by (symmetry; apply Z.ltb_ge; lia).
        reflexivity.
      - replace (it <? max_iterations)%Z with false
          by (symmetry; apply Z.ltb_ge; lia).
        apply andb_false_r. }
    destruct (position st <? length content); [|reflexivity].
    destruct (0 <? pc)%Z; [|reflexivity].
    simpl in B. rewrite B. reflexivity. }
  reflexivity.
Qed.

Lemma stays_open_depth t : forall pc,
  stays_open pc t = true -> (0 < pc)%Z -> (0 < depth pc t)%Z.
Proof.
  induction t as [|c t IH]; intros pc H Hpc; simpl in *; trivial.
  apply andb_prop in H. destruct H as [H1 H2]. apply Z.ltb_lt in H1.
  now apply IH.
Qed.

Lemma paren_prefix t : forall fuel it pc st rest,
  slice_from (position st) content = t +++ rest ->
  stays_open pc t = true -> (0 < pc)%Z ->
  (it + Z.of_nat (String.length t) <= max_iterations)%Z ->
  paren_loop content (String.length t + fuel) (it, pc) st
  = paren_loop content fuel ((it + Z.of_nat (String.length t))%Z, depth pc t)
      (set_position (position st + String.length t) st).
Proof.
  induction t as [|c t IH]; intros fuel it pc st rest E Ho Hpc Hit.
  - simpl. now rewrite Z.add_0_r, set_position_same.
  - cbn [String.append] in E. cbn [String.length Nat.add].
    rewrite (paren_step _ _ _ _ _ _ E Hpc) by (simpl String.length in Hit; lia).
    cbn [stays_open] in Ho. apply andb_prop in Ho. destruct Ho as [Hd Ho].
    apply Z.ltb_lt in Hd.
    erewrite IH; [ | | exact Ho | exact Hd | ].
    + cbn [depth]. f_equal; [f_equal; lia|].
      unfold set_position. simpl. f_equal. lia.
    + simpl. rewrite Nat.add_1_r. apply slice_from_cons in E. apply E.
    + simpl String.length in Hit. lia.
Qed.

Lemma parse_parentheses_balanced_eq st ws t rest :
  slice_from (position st) content
  = ws +++ String "(" (t +++ String ")" rest) ->
  all_chars isspace ws = true ->
  stays_open 1 t = true ->
  depth 1 t = 1%Z ->
  String.length t < 999 ->
  parse_parentheses content (budget content) st
  = Ok (Some (strip t))
       (set_position (position st + String.length ws + String.length t + 2) st).
Proof.
  intros E Hws Ho Hd Hlen.
  pose proof (slice_from_app _ _ _ _ E) as E1.
  set (st1 := set_position (position st + String.length ws) st) in *.
  assert (E2 : slice_from (position st1 + 1) content = t +++ String ")" rest).
  { change (String "(" (t +++ String ")" rest))
      with (String "(" "" +++ t +++ String ")" rest) in E1.
    exact (slice_from_app _ _ _ _ E1). }
  pose proof (slice_from_app _ _ _ _ E2) as E3.
  pose proof (length_run_fuel _ _ (t +++ String ")" "") rest
                ltac:(rewrite append_assoc; exact E2)) as Hf.
  rewrite length_append in Hf. simpl in Hf.
  unfold parse_parentheses.
  eapply bind_ok';
    [exact (consume_whitespace_given _ _ _ _ E Hws (stops_cons _ _ _ eq_refl))|].
  fold st1. eapply bind_ok'; [apply at_end_or_peek|].
  rewrite (cur_given content st1 _ _ E1).
  change (negb ("(" =? "(")%char) with false.
  cbv iota. eapply bind_ok'; [reflexivity|]. eapply bind_ok'; [reflexivity|].
  change (while (budget content) _ _ (0%Z, 1%Z))
    with (paren_loop content (budget content) (0%Z, 1%Z)).
  eapply bind_ok'.
  { replace (budget content)
      with (String.length t + S (S (budget content - String.length t - 2)))
      by lia.
    rewrite (paren_prefix t _ 0%Z 1%Z (set_position (position st1 + 1) st1)
               (String ")" rest))
      by (trivial; unfold max_iterations; lia).
    rewrite Hd.
    rewrite (paren_step _ _ _ _ ")"%char rest)
      by (trivial; unfold max_iterations; lia).
    change (if (")" =? "(")%char then (1 + 1)%Z
            else if (")" =? ")")%char then (1 - 1)%Z else 1%Z) with 0%Z.
    apply paren_exit. left. lia. }
  cbv beta iota.
  replace (0 + Z.of_nat (String.length t) + 1)%Z
    with (Z.of_nat (String.length t) + 1)%Z by lia.
  replace (max_iterations <=? Z.of_nat (String.length t) + 1)%Z with false
    by (symmetry; apply Z.leb_gt; unfold max_iterations; lia).
  cbn [Z.ltb Z.compare orb].
  eapply bind_ok'; [reflexivity|]. unfold ret. f_equal.
  - f_equal. f_equal. subst st1. unfold set_position in *.
    cbn [position] in *.
    replace (position st + String.length ws + 1 + String.length t + 1 - 1)
      with (position st + String.length ws + 1 + String.length t) by lia.
    exact (slice_app _ _ _ _ E2).
  - subst st1. unfold set_position. cbn [position last_attribute heap stdout].
    f_equal. lia.
Qed.

(** X8.  After optional white space, on a group [( ... )] whose
    parentheses balance and whose inside has fewer than 999 characters,
    [parse_parentheses] returns the inside, nested parentheses included,
    stripped of the white space at its ends, and stops just behind the
    closing parenthesis. *)
Theorem parse_parentheses_balanced st ws t rest :
  slice_from (position st) content
  = ws +++ String "(" (t +++ String ")" rest) ->
  all_chars isspace ws = true ->
  stays_open 1 t = true ->
  depth 1 t = 1%Z ->
  String.length t < 999 ->
  parse_parentheses content (budget content) st
  = Ok (Some (strip t))
       (set_position (position st + String.length ws + String.length t + 2) st).
Proof. exact (parse_parentheses_balanced_eq st ws t rest). Qed.

End Parentheses.

(** X9.  When the group is still open 999 characters after the opening
    parenthesis and one more character follows, [parse_parentheses] gives
    up: it prints one warning that shows the first 50 characters, returns
    [None] and leaves the position behind the 1000 characters it stepped
    over.  A group that closes with its 1000th character is lost in the
    same way. *)
Theorem parse_parentheses_cap content st ws t c rest :
  slice_from (position st) content
  = ws +++ String "(" (t +++ String c rest) ->
  all_chars isspace ws = true ->
  stays_open 1 t = true ->
  String.length t = 999 ->
  parse_parentheses content (budget content) st
  = Ok None
       (mkState (position st + String.length ws + 1001)
          (last_attribute st) (heap st)
          (stdout st ++
           ["Warning: Possible parsing error near: " +++
            substring 0 50 t +++ "..."])).
Proof.
  intros E Hws Ho Hlen.
  pose proof (slice_from_app _ _ _ _ E) as E1.
  set (st1 := set_position (position st + String.length ws) st) in *.
  assert (E2 : slice_from (position st1 + 1) content = t +++ String c rest).
  { change (String "(" (t +++ String c rest))
      with (String "(" "" +++ t +++ String c rest) in E1.
    exact (slice_from_app _ _ _ _ E1). }
  pose proof (slice_from_app _ _ _ _ E2) as E3.
  pose proof (length_run_fuel _ _ (t +++ String c "") rest
                ltac:(rewrite append_assoc; exact E2)) as Hf.
  rewrite length_append in Hf. simpl in Hf.
  pose proof (stays_open_depth t 1%Z Ho ltac:(lia)) as Hd.
  unfold parse_parentheses.
  eapply bind_ok';
    [exact (consume_whitespace_given _ _ _ _ E Hws (stops_cons _ _ _ eq_refl))|].
  fold st1. eapply bind_ok'; [apply at_end_or_peek|].
  rewrite (cur_given content st1 _ _ E1).
  change (negb ("(" =? "(")%char) with false.
  cbv iota. eapply bind_ok'; [reflexivity|]. eapply bind_ok'; [reflexivity|].
  change (while (budget content) _ _ (0%Z, 1%Z))
    with (paren_loop content (budget content) (0%Z, 1%Z)).
  eapply bind_ok'.
  { replace (budget content)
      with (String.length t + S (S (budget content - String.length t - 2)))
      by lia.
    rewrite (paren_prefix content t _ 0%Z 1%Z
               (set_position (position st1 + 1) st1) (String c rest))
      by (trivial; unfold max_iterations; lia).
    rewrite (paren_step content _ _ _ _ c rest)
      by (trivial; unfold max_iterations; lia).
    apply paren_exit. right. unfold max_iterations. lia. }
  cbv beta iota.
  replace (max_iterations <=? 0 + Z.of_nat (String.length t) + 1)%Z with true
    by (symmetry; apply Z.leb_le; unfold max_iterations; lia).
  rewrite orb_true_r.
  eapply bind_ok'; [reflexivity|]. unfold ret. f_equal.
  subst st1. unfold set_position in *. cbn [position last_attribute heap stdout] in *.
  rewrite (slice_given _ 50 _ _ _ E2) by lia. f_equal. lia.
Qed.

(** X10.  When the first character after the white space is not an
    opening parenthesis, or the content ends there, [parse_parentheses]
    returns [None] and consumes the white space only. *)
Theorem parse_parentheses_without_group content st ws rest :
  slice_from (position st) content = ws +++ rest ->
  all_chars isspace ws = true ->
  stops isspace rest ->
  stops (fun c => (c =? "(")%char) rest ->
  parse_parentheses content (budget content) st
  = Ok None (set_position (position st + String.length ws) st).
Proof.
  intros E Hws Hrest Hq.
  pose proof (slice_from_app _ _ _ _ E) as E1.
  set (st1 := set_position (position st + String.length ws) st) in *.
  unfold parse_parentheses.
  eapply bind_ok'; [exact (consume_whitespace_given _ _ _ _ E Hws Hrest)|].
  fold st1. eapply bind_ok'; [apply at_end_or_peek|].
  rewrite slice_from_cur. change (position st1) with (position st + String.length ws).
  rewrite E1. destruct rest as [|c rest]; trivial.
  now rewrite (Hq c rest eq_refl).
Qed.

Section ModelParameter.
Variable content : string.

Lemma model_step fuel s st c t :
  slice_from (position st) content = String c t ->
  negb ((c =? ")")%char && (fst s =? 0)%Z && (snd s - 1 =? 0)%Z) = true ->
  model_loop content (S fuel) s st
  = model_loop content fuel (model_count c s)
      (set_position (position st + 1) st).
Proof.
  intros E Ho. unfold model_loop at 1. cbn [while].
  apply slice_from_cons in E. destruct E as [G _].
  pose proof (get_Some _ _ _ G) as Hin.
  eapply bind_ok'.
  { unfold in_bounds.
    replace (position st <? length content) with true
      by (symmetry; apply Nat.ltb_lt; exact Hin).
    reflexivity. }
  cbv beta iota. destruct s as [bc pc]. cbn [fst snd] in Ho.
  apply negb_true_iff in Ho.
  unfold bind at 1. unfold bind at 1. unfold peek at 1. rewrite G.
  unfold model_count.
  destruct (c =? "{")%char; [reflexivity|].
  destruct (c =? "}")%char; [reflexivity|].
  destruct ((c =? "(")%char && (bc =? 0)%Z); [reflexivity|].
  destruct (c =? ")")%char; [|reflexivity]. cbn [andb] in *.
  destruct (bc =? 0)%Z; [|reflexivity]. cbn [andb] in *.
  rewrite Ho. reflexivity.
Qed.

Lemma model_prefix t : forall fuel s st rest,
  slice_from (position st) content = t +++ rest ->
  model_open s t = true ->
  model_loop content (String.length t + fuel) s st
  = model_loop content fuel (model_counts s t)
      (set_position (position st + String.length t) st).
Proof.
  induction t as [|c t IH]; intros fuel s st rest E Ho.
  - simpl. now rewrite set_position_same.
  - cbn [String.append] in E. cbn [String.length Nat.add].
    cbn [model_open] in Ho. apply andb_prop in Ho.
    rewrite (model_step _ _ _ c (t +++ rest) E (proj1 Ho)).
    erewrite IH; [ | | exact (proj2 Ho)].
    + cbn [model_counts]. f_equal. unfold set_position. simpl. f_equal. lia.
    + simpl. rewrite Nat.add_1_r. apply slice_from_cons in E. apply E.
Qed.

Lemma model_close fuel st rest :
  slice_from (position st) content = String ")" rest ->
  model_loop content (S fuel) (0%Z, 1%Z) st = Ok (0%Z, 0%Z) st.
Proof.
  intros E. unfold model_loop. cbn [while].
  apply slice_from_cons in E. destruct E as [G _].
  pose proof (get_Some _ _ _ G) as Hin.
  eapply bind_ok'.
  { unfold in_bounds.
    replace (position st <? length content) with true
      by (symmetry; apply Nat.ltb_lt; exact Hin).
    reflexivity. }
  cbv beta iota.
  eapply bind_ok'.
  { eapply bind_ok'; [unfold peek; rewrite G; reflexivity|]. reflexivity. }
  reflexivity.
Qed.

Lemma model_end fuel s st :
  slice_from (position st) content = "" ->
  model_loop content (S fuel) s st = Ok s st.
Proof.
  intros E. unfold model_loop. cbn [while]. apply slice_from_nil in E.
  eapply bind_ok'.
  { unfold in_bounds.
    replace (position st <? length content) with false
      by (symmetry; apply Nat.ltb_ge; exact E).
    reflexivity. }
  reflexivity.
Qed.

Lemma at_end_given st c rest :
  slice_from (position st) content = String c rest ->
  at_end content st = Ok false st.
Proof.
  intros E. apply slice_from_cons in E. destruct E as [G _].
  apply get_Some in G. unfold at_end.
  replace (length content <=? position st) with false
    by (symmetry; apply Nat.leb_gt; exact G).
  reflexivity.
Qed.

Lemma peek_given st c rest :
  slice_from (position st) content = String c rest ->
  peek content st = Ok c st.
Proof.
  intros E. apply slice_from_cons in E. destruct E as [G _].
  unfold peek. now rewrite G.
Qed.

Lemma parse_model_parameter_closed_eq st ws t rest :
  slice_from (position st) content
  = ws +++ String "(" (t +++ String ")" rest) ->
  all_chars isspace ws = true ->
  model_open (0%Z, 1%Z) t = true ->
  model_counts (0%Z, 1%Z) t = (0%Z, 1%Z) ->
  parse_model_parameter content (budget content) st
  = Ok (strip t)
       (set_position (position st + String.length ws + String.length t + 2) st).
Proof.
  intros E Hws Ho Hc.
  pose proof (slice_from_app _ _ _ _ E) as E1.
  set (st1 := set_position (position st + String.length ws) st) in *.
  assert (E2 : slice_from (position st1 + 1) content = t +++ String ")" rest).
  { change (String "(" (t +++ String ")" rest))
      with (String "(" "" +++ t +++ String ")" rest) in E1.
    exact (slice_from_app _ _ _ _ E1). }
  pose proof (slice_from_app _ _ _ _ E2) as E3.
  pose proof (length_run_fuel _ _ (t +++ String ")" "") rest
                ltac:(rewrite append_assoc; exact E2)) as Hf.
  rewrite length_append in Hf. simpl in Hf.
  unfold parse_model_parameter.
  eapply bind_ok';
    [exact (consume_whitespace_given _ _ _ _ E Hws (stops_cons _ _ _ eq_refl))|].
  fold st1. eapply bind_ok'; [exact (at_end_given st1 _ _ E1)|].
  cbv iota. eapply bind_ok'; [exact (peek_given st1 _ _ E1)|].
  change (negb ("(" =? "(")%char) with false.
  cbv iota. eapply bind_ok'; [reflexivity|]. eapply bind_ok'; [reflexivity|].
  change (while (budget content) _ _ (0%Z, 1%Z))
    with (model_loop content (budget content) (0%Z, 1%Z)).
  eapply bind_ok'.
  { replace (budget content)
      with (String.length t + S (budget content - String.length t - 1))
      by lia.
    rewrite (model_prefix t _ _ (set_position (position st1 + 1) st1)
               (String ")" rest)) by trivial.
    rewrite Hc. apply (model_close _ _ rest). exact E3. }
  eapply bind_ok'; [reflexivity|]. eapply bind_ok'; [reflexivity|].
  unfold ret. f_equal.
  - f_equal. subst st1. unfold set_position in *. cbn [position] in *.
    exact (slice_app _ _ _ _ E2).
  - subst st1. unfold set_position. cbn [position last_attribute heap stdout].
    f_equal. lia.
Qed.

(** X11.  On a model group [( ... )], [parse_model_parameter] returns
    the stripped text up to the first closing parenthesis that is outside
    all braces and closes the group, and stops just behind it: parentheses
    inside braces are not counted, and there is no limit on the length. *)
Theorem parse_model_parameter_closed st ws t rest :
  slice_from (position st) content
  = ws +++ String "(" (t +++ String ")" rest) ->
  all_chars isspace ws = true ->
  model_open (0%Z, 1%Z) t = true ->
  model_counts (0%Z, 1%Z) t = (0%Z, 1%Z) ->
  parse_model_parameter content (budget content) st
  = Ok (strip t)
       (set_position (position st + String.length ws + String.length t + 2) st).
Proof. exact (parse_model_parameter_closed_eq st ws t rest). Qed.

(** X12.  When the model group is never closed, [parse_model_parameter]
    returns the whole rest of the content, stripped, without a warning,
    and leaves the position one past the end of the content. *)
Theorem parse_model_parameter_open st ws t :
  slice_from (position st) content = ws +++ String "(" t ->
  all_chars isspace ws = true ->
  model_open (0%Z, 1%Z) t = true ->
  parse_model_parameter content (budget content) st
  = Ok (strip t)
       (set_position (position st + String.length ws + String.length t + 2) st).
Proof.
  intros E Hws Ho.
  pose proof (slice_from_app _ _ _ _ E) as E1.
  set (st1 := set_position (position st + String.length ws) st) in *.
  assert (E2 : slice_from (position st1 + 1) content = t +++ "").
  { change (String "(" t) with (String "(" "" +++ t) in E1.
    rewrite append_nil_r. exact (slice_from_app _ _ _ _ E1). }
  pose proof (slice_from_app _ _ _ _ E2) as E3.
  pose proof (length_run_fuel _ _ _ _ E2) as Hf.
  unfold parse_model_parameter.
  eapply bind_ok';
    [exact (consume_whitespace_given _ _ _ _ E Hws (stops_cons _ _ _ eq_refl))|].
  fold st1. eapply bind_ok'; [exact (at_end_given st1 _ _ E1)|].
  cbv iota. eapply bind_ok'; [exact (peek_given st1 _ _ E1)|].
  change (negb ("(" =? "(")%char) with false.
  cbv iota. eapply bind_ok'; [reflexivity|]. eapply bind_ok'; [reflexivity|].
  change (while (budget content) _ _ (0%Z, 1%Z))
    with (model_loop content (budget content) (0%Z, 1%Z)).
  eapply bind_ok'.
  { replace (budget content)
      with (String.length t + S (budget content - String.length t - 1))
      by lia.
    rewrite (model_prefix t _ _ (set_position (position st1 + 1) st1) "")
      by trivial.
    apply model_end. exact E3. }
  cbv beta iota. destruct (model_counts (0%Z, 1%Z) t) as [bc pc].
  eapply bind_ok'; [reflexivity|]. eapply bind_ok'; [reflexivity|].
  unfold ret. f_equal.
  - f_equal. subst st1. unfold set_position in *. cbn [position] in *.
    exact (slice_app _ _ _ _ E2).
  - subst st1. unfold set_position. cbn [position last_attribute heap stdout].
    f_equal. lia.
Qed.

End ModelParameter.

(* ================================================================== *)
(** ** [str.strip] *)

Lemma lstrip_split s :
  exists ws, s = ws +++ lstrip s /\ all_chars isspace ws = true.
Proof.
  induction s as [|c s IH]; [now exists ""|]. simpl.
  destruct (isspace c) eqn:Hc; [|now exists ""].
  destruct IH as (ws & E & Hws). exists (String c ws). split.
  - simpl. now rewrite <- E.
  - now rewrite all_chars_cons, Hc, Hws.
Qed.

Lemma lstrip_stops s : stops isspace (lstrip s).
Proof.
  induction s as [|c s IH]; simpl; [apply stops_nil|].
  destruct (isspace c) eqn:Hc; [exact IH | now apply stops_cons].
Qed.

Lemma rstrip_split s :
  exists ws, s = rstrip s +++ ws /\ all_chars isspace ws = true.
Proof.
  induction s as [|c s IH]; [now exists ""|]. simpl.
  destruct IH as (ws & E & Hws).
  destruct (rstrip s) as [|d r] eqn:R.
  - destruct (isspace c) eqn:Hc.
    + exists (String c ws). simpl in E. subst ws. split; trivial.
      now rewrite all_chars_cons, Hc, Hws.
    + exists ws. simpl in *. now subst ws.
  - exists ws. split; trivial. cbn [String.append] in *. now rewrite <- E.
Qed.

Lemma rstrip_idem s : rstrip (rstrip s) = rstrip s.
Proof.
  induction s as [|c s IH]; trivial. simpl.
  destruct (rstrip s) as [|d r] eqn:R.
  - destruct (isspace c) eqn:Hc; trivial. simpl. now rewrite Hc.
  - change (rstrip (String c (String d r)))
      with (match rstrip (String d r) with
            | "" => if isspace c then "" else String c ""
            | String a b => String c (String a b)
            end).
    rewrite IH. reflexivity.
Qed.

Lemma rstrip_stops s : stops isspace s -> lstrip (rstrip s) = rstrip s.
Proof.
  destruct s as [|c s]; trivial. intros H. specialize (H c s eq_refl).
  cbn [rstrip]. destruct (rstrip s); rewrite ?H; cbn [lstrip]; now rewrite H.
Qed.

Lemma strip_idem s : strip (strip s) = strip s.
Proof.
  unfold strip. rewrite (rstrip_stops (lstrip s) (lstrip_stops s)).
  apply rstrip_idem.
Qed.

Lemma all_chars_strip p s : all_chars p s = true -> all_chars p (strip s) = true.
Proof.
  intros H. unfold strip.
  destruct (lstrip_split s) as (ws & E & _).
  destruct (rstrip_split (lstrip s)) as (ws' & E' & _).
  rewrite E, all_chars_app in H. apply andb_prop in H. destruct H as [_ H].
  rewrite E', all_chars_app in H. apply andb_prop in H. apply H.
Qed.

Lemma length_strip s : String.length (strip s) <= String.length s.
Proof.
  unfold strip.
  destruct (lstrip_split s) as (ws & E & _).
  destruct (rstrip_split (lstrip s)) as (ws' & E' & _).
  rewrite E at 2. rewrite length_append. rewrite E' at 2.
  rewrite length_append. lia.
Qed.

Lemma length_substring_le a n s : String.length (substring a n s) <= n.
Proof.
  revert a n. induction s as [|c s IH]; intros [|a] [|n]; simpl; try lia.
  - specialize (IH 0 n). lia.
  - apply (IH a 0).
  - apply (IH a (S n)).
Qed.

Lemma string_shape_strip t :
  all_chars (not_char dquote) t = true -> String.length t <= 999 ->
  string_shape (strip t).
Proof.
  intros H L. repeat split.
  - apply strip_idem.
  - now apply all_chars_strip.
  - pose proof (length_strip t). lia.
Qed.

Lemma string_shape_nil : string_shape "".
Proof. repeat split. simpl. lia. Qed.

(* ================================================================== *)
(** ** What every method keeps *)

Lemma holds_ret {A} (a : A) st (Q : A -> state -> Prop) E :
  Q a st -> holds (ret a) st Q E.
Proof. exact (fun H => H). Qed.

Lemma holds_raise {A} e st (Q : A -> state -> Prop) (E : state -> Prop) :
  E st -> holds (raise e) st Q E.
Proof. exact (fun H => H). Qed.

Lemma holds_bind {A B} (m : M A) (k : A -> M B) st Q E :
  holds m st (fun a st' => holds (k a) st' Q E) E -> holds (bind m k) st Q E.
Proof.
  unfold holds, bind. destruct (m st) as [a st'| e st'|]; auto.
Qed.

Lemma holds_conseq {A} (m : M A) st (Q Q' : A -> state -> Prop)
    (E E' : state -> Prop) :
  holds m st Q' E' ->
  (forall a st', Q' a st' -> Q a st') ->
  (forall st', E' st' -> E st') ->
  holds m st Q E.
Proof.
  unfold holds. destruct (m st) as [a st'| e st'|]; auto.
Qed.

Lemma holds_eq {A} (m : M A) st a st' (Q : A -> state -> Prop) E :
  m st = Ok a st' -> Q a st' -> holds m st Q E.
Proof. unfold holds. now intros ->. Qed.

Lemma holds_while {S} (I Q : S -> state -> Prop) (E : state -> Prop)
    (cond : S -> M bool) (body : S -> M (ctl * S)) :
  (forall s st, I s st ->
     holds (cond s) st
        (fun c st1 =>
           if c then
             holds (body s) st1
                (fun r st2 =>
                   match r with
                   | (Next, s') => I s' st2
                   | (Break, s') => Q s' st2
                   end) E
           else Q s st1) E) ->
  forall n s st, I s st -> holds (while n cond body s) st Q E.
Proof.
  intros Hstep n. induction n as [|n IH]; intros s st HI; [exact Logic.I|].
  specialize (Hstep s st HI). unfold holds in *. simpl. unfold bind.
  destruct (cond s st) as [[|] st1| e st1|]; trivial.
  destruct (body s st1) as [[[|] s'] st2| e st2|]; trivial.
  now apply IH.
Qed.

Lemma shaped_set_position p st : shaped st -> shaped (set_position p st).
Proof. exact (fun H => H). Qed.

Lemma holds_get_position st (Q : nat -> state -> Prop) E :
  Q (position st) st -> holds get_position st Q E.
Proof. exact (fun H => H). Qed.

Lemma holds_advance n st (Q : unit -> state -> Prop) E :
  (forall st', (shaped st -> shaped st') -> position st' = position st + n ->
               Q tt st') ->
  holds (advance n) st Q E.
Proof. intros H. apply H; [exact (fun H => H) | reflexivity]. Qed.

Lemma holds_print msg st (Q : unit -> state -> Prop) E :
  is_warning msg ->
  (forall st', (shaped st -> shaped st') -> Q tt st') ->
  holds (print msg) st Q E.
Proof.
  intros Hm H. apply H. intros [Hh Ho]. split; trivial.
  apply Forall_app. split; trivial. now constructor.
Qed.

Lemma holds_get_last_attribute st (Q : option ref -> state -> Prop) E :
  (forall r, Q r st) -> holds get_last_attribute st Q E.
Proof. intros H. apply H. Qed.

Lemma holds_set_last_attribute r st (Q : unit -> state -> Prop) E :
  (forall st', (shaped st -> shaped st') -> Q tt st') ->
  holds (set_last_attribute r) st Q E.
Proof. intros H. apply H. exact (fun H => H). Qed.

Lemma holds_new_attribute a st (Q : ref -> state -> Prop) E :
  attribute_shape a ->
  (forall r st', (shaped st -> shaped st') -> Q r st') ->
  holds (new_attribute a) st Q E.
Proof.
  intros Ha H. apply H. intros [Hh Ho]. split; trivial.
  apply Forall_app. split; trivial. now constructor.
Qed.

Lemma attribute_shape_set_choices cs a :
  Forall (fun c => string_shape (Choice.description c)) cs ->
  attribute_shape a -> attribute_shape (Attribute.set_choices (Some cs) a).
Proof.
  intros Hcs (H1 & H2 & H3 & H4 & H5 & H6 & H7 & _).
  repeat split; trivial; try apply H5; try apply H6.
  simpl. intros cs' E. now injection E as <-.
Qed.

Lemma holds_assign_choices r cs st (Q : unit -> state -> Prop) E :
  Forall (fun c => string_shape (Choice.description c)) cs ->
  (forall st', (shaped st -> shaped st') -> Q tt st') ->
  holds (assign_choices r cs) st Q E.
Proof.
  intros Hcs H. apply H. intros [Hh Ho]. split; trivial. simpl.
  apply Forall_update; trivial. intros a. now apply attribute_shape_set_choices.
Qed.

Lemma holds_in_bounds content st (Q : bool -> state -> Prop) E :
  (position st < length content -> Q true st) ->
  (length content <= position st -> Q false st) ->
  holds (in_bounds content) st Q E.
Proof.
  unfold holds, in_bounds. intros Ht Hf.
  destruct (Nat.ltb_spec (position st) (length content)); auto.
Qed.

Lemma holds_at_end content st (Q : bool -> state -> Prop) E :
  (length content <= position st -> Q true st) ->
  (position st < length content -> Q false st) ->
  holds (at_end content) st Q E.
Proof.
  unfold holds, at_end. intros Ht Hf.
  destruct (Nat.leb_spec (length content) (position st)); auto.
Qed.

Lemma holds_looking_at content p st (Q : bool -> state -> Prop) E :
  (forall b, Q b st) -> holds (looking_at content p) st Q E.
Proof. intros H. apply H. Qed.

Lemma holds_peek content st (Q : ascii -> state -> Prop) (E : state -> Prop) :
  (forall c, cur content st = Some c -> Q c st) ->
  (length content <= position st -> E st) ->
  holds (peek content) st Q E.
Proof.
  unfold holds, peek, cur. intros Hs Hn.
  destruct (String.get (position st) content) eqn:G; auto.
  apply Hn. apply get_None, G.
Qed.

Ltac hprim :=
  cbv beta zeta;
  lazymatch goal with
  | |- holds (bind _ _) _ _ _ => apply holds_bind
  | |- holds (ret _) _ _ _ => apply holds_ret
  | |- holds (raise _) _ _ _ => apply holds_raise
  | |- holds get_position _ _ _ => apply holds_get_position
  | |- holds get_last_attribute _ _ _ =>
      apply holds_get_last_attribute; intros ?
  | |- holds (advance _) _ _ _ =>
      let H := fresh "Hs" in
      apply holds_advance; intros ? H ?; try specialize (H ltac:(assumption))
  | |- holds (set_last_attribute _) _ _ _ =>
      let H := fresh "Hs" in
      apply holds_set_last_attribute; intros ? H;
      try specialize (H ltac:(assumption))
  | |- holds (print _) _ _ _ =>
      let H := fresh "Hs" in
      apply holds_print;
      [reflexivity | intros ? H; try specialize (H ltac:(assumption))]
  | |- holds (in_bounds _) _ _ _ => apply holds_in_bounds; intros ?
  | |- holds (at_end _) _ _ _ => apply holds_at_end; intros ?
  | |- holds (looking_at _ _) _ _ _ => apply holds_looking_at; intros ?
  | |- holds (peek _) _ _ _ =>
      apply holds_peek; [intros ? ? | intros ?; try lia]
  | |- holds (andM _ _) _ _ _ => unfold andM at 1
  | |- holds (orM _ _) _ _ _ => unfold orM at 1
  | |- holds (if ?b then _ else _) _ _ _ => destruct b eqn:?
  | |- holds (match ?x with (_, _) => _ end) _ _ _ => destruct x
  | |- holds (match ?x with Some _ => _ | None => _ end) _ _ _ =>
      destruct x eqn:?
  | |- holds (first_char ?s) _ _ _ => unfold first_char; destruct s eqn:?
  | |- holds (new_attribute _) _ _ _ =>
      let H := fresh "Hs" in
      apply holds_new_attribute;
      [ | intros ? ? H; try specialize (H ltac:(assumption))]
  | |- holds (assign_choices _ _) _ _ _ =>
      let H := fresh "Hs" in
      apply holds_assign_choices;
      [assumption | intros ? H; try specialize (H ltac:(assumption))]
  | |- if ?b then _ else _ => destruct b eqn:?
  end.

Lemma split_capped p n : forall s,
  exists t rest,
    s = t +++ rest /\ all_chars p t = true /\
    (String.length t < n /\ stops p rest \/ String.length t = n).
Proof.
  induction n as [|n IH]; intros s.
  - exists "", s. repeat split; trivial. now right.
  - destruct s as [|c s].
    + exists "", "". repeat split; trivial. left. split; [simpl; lia | apply stops_nil].
    + destruct (p c) eqn:Hc.
      * destruct (IH s) as (t & rest & -> & Ht & Hcase).
        exists (String c t), rest. repeat split; trivial.
        -- now rewrite all_chars_cons, Hc, Ht.
        -- simpl. destruct Hcase as [[H1 H2]|H1]; [left; split; [lia | exact H2] | right; lia].
      * exists "", (String c s). repeat split; trivial.
        left. split; [simpl; lia | now apply stops_cons].
Qed.

Lemma is_warning_app out1 out2 :
  Forall is_warning out1 -> Forall is_warning out2 -> Forall is_warning (out1 ++ out2).
Proof. intros. apply Forall_app. now split. Qed.

Section Shapes.
Variable json_loads : string -> json_result.
Variable content : string.

Lemma consume_whitespace_shaped st :
  shaped st ->
  holds (consume_whitespace content (budget content)) st
    (fun _ st' => shaped st' /\ stops isspace (slice_from (position st') content))
    (fun _ => False).
Proof.
  intros Hs.
  destruct (skip_loop content isspace _ (tests_in_bounds_peek content isspace)
              _ (budget content) st eq_refl (budget_slice_from _ _))
    as (ws & rest & E & Hws & Hrest & Hloop).
  eapply holds_eq; [exact Hloop|]. split; [exact Hs|].
  simpl. now rewrite (slice_from_app _ _ _ _ E).
Qed.

Lemma skip_line_shaped st :
  shaped st ->
  holds (skip_line content (budget content)) st
    (fun _ st' => shaped st') (fun _ => False).
Proof.
  intros Hs.
  destruct (skip_loop content (not_char newline) _
              (tests_in_bounds_peek content (not_char newline))
              _ (budget content) st eq_refl (budget_slice_from _ _))
    as (line & rest & E & Hline & Hrest & Hloop).
  eapply holds_eq.
  - unfold skip_line. eapply bind_ok'; [exact Hloop | reflexivity].
  - exact Hs.
Qed.

Lemma skip_to_next_line_shaped st :
  shaped st ->
  holds (skip_to_next_line content (budget content)) st
    (fun _ st' => shaped st') (fun _ => False).
Proof. exact (skip_line_shaped st). Qed.

Lemma parse_number_run st :
  exists r rest,
    slice_from (position st) content = r +++ rest /\
    all_chars number_char r = true /\
    stops number_char rest /\
    parse_number content (budget content) st
    = Ok r (set_position (position st + String.length r) st).
Proof.
  destruct (skip_loop content number_char _
              (tests_in_bounds_peek content number_char)
              _ (budget content) st eq_refl (budget_slice_from _ _))
    as (r & rest & E & Hr & Hrest & Hloop).
  exists r, rest. repeat apply conj; trivial.
  unfold parse_number. eapply bind_ok'; [reflexivity|].
  eapply bind_ok'; [exact Hloop|]. eapply bind_ok'; [reflexivity|].
  unfold ret. f_equal. simpl. exact (slice_app _ _ _ _ E).
Qed.

(** X3.  [parse_number] always returns; it returns the longest run of
    digits, dots and minus signs that starts at the position (the empty
    string when there is none) and moves the position just behind it. *)
Theorem parse_number_longest_run st :
  exists r rest,
    slice_from (position st) content = r +++ rest /\
    all_chars number_char r = true /\
    stops number_char rest /\
    parse_number content (budget content) st
    = Ok r (set_position (position st + String.length r) st).
Proof. exact (parse_number_run st). Qed.

Lemma parse_number_shaped st :
  shaped st ->
  holds (parse_number content (budget content)) st
    (fun r st' =>
       shaped st' /\ all_chars number_char r = true /\
       (forall c, cur content st = Some c -> number_char c = true -> r <> ""))
    (fun _ => False).
Proof.
  intros Hs. destruct (parse_number_run st) as (r & rest & E & Hr & Hrest & Heq).
  eapply holds_eq; [exact Heq|]. split; [exact Hs | split; [exact Hr|]].
  intros c Hc Hn ->. simpl in E. rewrite slice_from_cur, E in Hc.
  destruct rest as [|d rest]; [discriminate|]. injection Hc as ->.
  rewrite (Hrest c rest eq_refl) in Hn. discriminate.
Qed.

Lemma parse_identifier_run st :
  exists ws r rest,
    slice_from (position st) content = ws +++ r +++ rest /\
    all_chars isspace ws = true /\
    stops isspace (r +++ rest) /\
    all_chars identifier_char r = true /\
    stops identifier_char rest /\
    parse_identifier content (budget content) st
    = Ok r (set_position (position st + String.length ws + String.length r) st).
Proof.
  destruct (skip_loop content isspace _ (tests_in_bounds_peek content isspace)
              _ (budget content) st eq_refl (budget_slice_from _ _))
    as (ws & rest0 & E0 & Hws & Hrest0 & Hloop0).
  set (st1 := set_position (position st + String.length ws) st) in *.
  destruct (skip_loop content identifier_char _
              (tests_in_bounds_peek content identifier_char)
              _ (budget content) st1 eq_refl (budget_slice_from _ _))
    as (r & rest & E & Hr & Hrest & Hloop).
  assert (E1 : slice_from (position st1) content = rest0)
    by exact (slice_from_app _ _ _ _ E0).
  rewrite E1 in E. subst rest0.
  exists ws, r, rest. repeat apply conj; trivial.
  unfold parse_identifier. eapply bind_ok'; [exact Hloop0|].
  eapply bind_ok'; [reflexivity|]. eapply bind_ok'; [exact Hloop|].
  eapply bind_ok'; [reflexivity|]. unfold ret. f_equal.
  simpl. exact (slice_app _ _ _ _ E1).
Qed.

(** X4.  [parse_identifier] always returns; it skips the leading white
    space, returns the longest run of alphanumeric characters, underscores
    and dots that follows, and stops just behind that run. *)
Theorem parse_identifier_longest_run st :
  exists ws r rest,
    slice_from (position st) content = ws +++ r +++ rest /\
    all_chars isspace ws = true /\
    stops isspace (r +++ rest) /\
    all_chars identifier_char r = true /\
    stops identifier_char rest /\
    parse_identifier content (budget content) st
    = Ok r (set_position (position st + String.length ws + String.length r) st).
Proof. exact (parse_identifier_run st). Qed.

Lemma parse_identifier_shaped st :
  shaped st ->
  holds (parse_identifier content (budget content)) st
    (fun r st' =>
       shaped st' /\ all_chars identifier_char r = true /\
       (forall q, stops isspace (slice_from (position st) content) ->
                  stops q (slice_from (position st) content) -> stops q r))
    (fun _ => False).
Proof.
  intros Hs.
  destruct (parse_identifier_run st)
    as (ws & r & rest & E & Hws & Hsp & Hr & Hrest & Heq).
  eapply holds_eq; [exact Heq|]. split; [exact Hs | split; [exact Hr|]].
  intros q Hq1 Hq2. rewrite E in Hq1, Hq2.
  destruct ws as [|w ws].
  - simpl in Hq2. intros c r' ->. exact (Hq2 c (r' +++ rest) eq_refl).
  - rewrite all_chars_cons in Hws. apply andb_prop in Hws.
    rewrite (Hq1 w (ws +++ r +++ rest) eq_refl) in Hws. destruct Hws; discriminate.
Qed.

Lemma parse_string_shaped st :
  shaped st ->
  holds (parse_string content (budget content)) st
    (fun r st' => shaped st' /\ string_shape r) (fun _ => False).
Proof.
  intros Hs.
  destruct (skip_loop content isspace _ (tests_in_bounds_peek content isspace)
              _ (budget content) st eq_refl (budget_slice_from _ _))
    as (ws & rest0 & E0 & Hws & Hrest0 & _).
  destruct rest0 as [|c rest1].
  { eapply holds_eq;
      [apply (parse_string_without_quote_eq content st ws ""); trivial;
       apply stops_nil|].
    split; [exact Hs | apply string_shape_nil]. }
  destruct (c =? dquote)%char eqn:Hc.
  2:{ eapply holds_eq;
        [apply (parse_string_without_quote_eq content st ws (String c rest1));
         trivial; now apply stops_cons|].
      split; [exact Hs | apply string_shape_nil]. }
  apply Ascii.eqb_eq in Hc. subst c.
  destruct (split_capped (not_char dquote) 1000 rest1)
    as (t & rest & -> & Ht & [[Hlen Hrest]|Hlen]).
  - eapply holds_eq; [apply (parse_string_read content st ws t rest); trivial|].
    split; [exact Hs | apply string_shape_strip; trivial; lia].
  - eapply holds_eq; [apply (parse_string_cap_eq content st ws t rest); trivial|].
    split; [|apply string_shape_nil].
    destruct Hs as [Hh Ho]. split; trivial. simpl.
    apply Forall_app. split; trivial. constructor; [reflexivity | constructor].
Qed.

Lemma holds_advance_to n st (Q : unit -> state -> Prop) E :
  Q tt (set_position (position st + n) st) -> holds (advance n) st Q E.
Proof. exact (fun H => H). Qed.

Lemma parse_parentheses_shaped st :
  shaped st ->
  holds (parse_parentheses content (budget content)) st
    (fun r st' => shaped st' /\ forall g, r = Some g -> group_shape g)
    (fun _ => False).
Proof.
  intros Hs. unfold parse_parentheses. hprim.
  eapply holds_conseq; [apply consume_whitespace_shaped, Hs | | trivial].
  cbv beta. intros _ st1 [Hs1 _]. repeat hprim;
    try (split; [assumption | discriminate]).
  eapply holds_conseq;
    [apply (holds_while
              (fun '(it, pc) st2 =>
                 shaped st2 /\ position st' <= position st2 /\
                 it = Z.of_nat (position st2 - position st'))
              (fun '(it, pc) st2 =>
                 shaped st2 /\ position st' <= position st2 /\
                 it = Z.of_nat (position st2 - position st'))
              (fun _ => False))
    | | trivial].
  - intros [it pc] st2 (Hs2 & Hle & Hit).
    repeat hprim; (split; [assumption | split; lia]).
  - split; [assumption | split; lia].
  - intros [it pc] st2 (Hs2 & Hle & Hit). repeat hprim.
    + split; [assumption | discriminate].
    + split; [assumption|]. intros g [= <-]. split; [apply strip_idem|].
      match goal with
      | H : (_ || _) = false |- _ =>
          apply orb_false_iff in H; destruct H as [_ Hcap]
      end.
      apply Z.leb_gt in Hcap. unfold max_iterations in Hcap.
      pose proof (length_strip (slice (position st') (position st2 - 1) content)).
      pose proof (length_substring_le (position st')
                    (position st2 - 1 - position st') content).
      unfold slice in *. lia.
Qed.

Lemma parse_model_parameter_shaped st :
  shaped st ->
  holds (parse_model_parameter content (budget content)) st
    (fun r st' => shaped st' /\ strip r = r) (fun _ => False).
Proof.
  intros Hs. unfold parse_model_parameter. hprim.
  eapply holds_conseq; [apply consume_whitespace_shaped, Hs | | trivial].
  cbv beta. intros _ st1 [Hs1 _]. repeat hprim; try (now split).
  eapply holds_conseq;
    [apply (holds_while (fun _ st2 => shaped st2) (fun _ st2 => shaped st2)
              (fun _ => False))
    | | trivial].
  - intros [bc pc] st2 Hs2. repeat hprim; trivial.
    all: destruct (c0 =? "{")%char; try (repeat hprim; trivial; fail).
    all: destruct (c0 =? "}")%char; try (repeat hprim; trivial; fail).
    all: destruct ((c0 =? "(")%char && (bc =? 0)%Z);
      try (repeat hprim; trivial; fail).
    all: destruct ((c0 =? ")")%char && (bc =? 0)%Z); repeat hprim; trivial.
  - exact Hs0.
  - intros [bc pc] st2 Hs2. repeat hprim. split; [assumption | apply strip_idem].
Qed.


Ltac hcall :=
  lazymatch goal with
  | |- holds (consume_whitespace _ _) _ _ _ =>
      eapply holds_conseq;
      [apply consume_whitespace_shaped; assumption
      | cbv beta; intros _ ? (? & ?) | cbv beta; intros ? []]
  | |- holds (skip_line _ _) _ _ _ =>
      eapply holds_conseq;
      [apply skip_line_shaped; assumption
      | cbv beta; intros _ ? ? | cbv beta; intros ? []]
  | |- holds (skip_to_next_line _ _) _ _ _ =>
      eapply holds_conseq;
      [apply skip_to_next_line_shaped; assumption
      | cbv beta; intros _ ? ? | cbv beta; intros ? []]
  | |- holds (parse_number _ _) _ _ _ =>
      eapply holds_conseq;
      [apply parse_number_shaped; assumption
      | cbv beta; intros ? ? (? & ? & ?) | cbv beta; intros ? []]
  | |- holds (parse_identifier _ _) _ _ _ =>
      eapply holds_conseq;
      [apply parse_identifier_shaped; assumption
      | cbv beta; intros ? ? (? & ? & ?) | cbv beta; intros ? []]
  | |- holds (parse_string _ _) _ _ _ =>
      eapply holds_conseq;
      [apply parse_string_shaped; assumption
      | cbv beta; intros ? ? (? & ?) | cbv beta; intros ? []]
  | |- holds (parse_model_parameter _ _) _ _ _ =>
      eapply holds_conseq;
      [apply parse_model_parameter_shaped; assumption
      | cbv beta; intros ? ? (? & ?) | cbv beta; intros ? []]
  | |- holds (parse_parentheses _ _) _ _ _ =>
      eapply holds_conseq;
      [apply parse_parentheses_shaped; assumption
      | cbv beta; intros ? ? (? & ?) | cbv beta; intros ? []]
  end.

Ltac hgo := repeat first [hprim | hcall].

Lemma parse_choices_shaped st :
  shaped st ->
  holds (parse_choices content (budget content)) st
    (fun cs st' =>
       shaped st' /\ Forall (fun c => string_shape (Choice.description c)) cs)
    shaped.
Proof.
  intros Hs. unfold parse_choices. hgo; try assumption; try (now split).
  eapply holds_conseq;
    [apply (holds_while
              (fun cs st2 =>
                 shaped st2 /\
                 Forall (fun c => string_shape (Choice.description c)) cs)
              (fun cs st2 =>
                 shaped st2 /\
                 Forall (fun c => string_shape (Choice.description c)) cs)
              shaped)
    | trivial | trivial].
  - intros cs st2 [Hs2 Hcs]. hgo; try assumption; try (now split).
    eapply holds_conseq;
      [apply (holds_while (fun _ st3 => shaped st3) (fun _ st3 => shaped st3)
                shaped)
      | | trivial].
    + intros v st3 Hs3. hgo; assumption.
    + assumption.
    + intros v st3 Hs3. hgo; try assumption; try (now split).
      split; [assumption|]. apply Forall_app. split; trivial.
      constructor; [assumption | constructor].
  - now split.
Qed.


Ltac hcall2 :=
  lazymatch goal with
  | |- holds (parse_choices _ _) _ _ _ =>
      eapply holds_conseq;
      [apply parse_choices_shaped; assumption
      | cbv beta; intros ? ? (? & ?) | cbv beta; intros ? ?]
  | |- _ => hcall
  end.

Ltac hgo2 := repeat first [hprim | hcall2].

Lemma stops_cur (q : ascii -> bool) st c :
  cur content st = Some c -> q c = false ->
  stops q (slice_from (position st) content).
Proof.
  intros Hc Hq. rewrite slice_from_cur in Hc.
  destruct (slice_from (position st) content) as [|d s]; [discriminate|].
  injection Hc as ->. now apply stops_cons.
Qed.

Lemma is_empty_false s : is_empty s = false -> s <> "".
Proof. now destruct s. Qed.

Lemma key_number c :
  isdigit c || (c =? "-")%char = true -> number_char c = true.
Proof.
  unfold number_char. destruct (isdigit c); trivial. simpl. intros ->.
  apply orb_true_r.
Qed.

Ltac default_shape_tac :=
  let d := fresh "d" in
  let E := fresh "E" in
  intros d E;
  first
    [ discriminate E
    | injection E as <-;
      first
        [ left; assumption
        | right; split;
          [ match goal with
            | Hn : forall c, cur _ ?s = Some c -> number_char c = true -> ?r <> "",
              Hc : cur _ ?s = Some ?c |- ?r <> "" =>
                apply (Hn c Hc); apply key_number; assumption
            end
          | assumption ] ] ].

Ltac attribute_shape_tac :=
  lazymatch goal with
  | Hname : is_empty ?a = false,
    Hid : all_chars identifier_char ?a = true,
    Hq : forall q, stops isspace (slice_from (position ?s) _) -> _ -> stops q ?a,
    Hsp : stops isspace (slice_from (position ?s) _),
    Hc : cur _ ?s = Some ?c,
    Hd : isdigit ?c = false,
    Ht : match ?a0 with Some t => is_empty t | None => true end = false,
    Hg : forall g, ?a0 = Some g -> group_shape g
    |- attribute_shape _ =>
      destruct a0 as [?t|]; [|discriminate Ht];
      unfold attribute_shape;
      cbn [Attribute.name Attribute.type Attribute.description
           Attribute.default Attribute.choices];
      refine (conj _ (conj _ (conj _ (conj _ (conj _ (conj _ (conj _ _)))))));
      [ apply is_empty_false, Hname
      | exact Hid
      | exact (Hq isdigit Hsp (stops_cur isdigit s c Hc Hd))
      | apply is_empty_false, Ht
      | exact (Hg _ eq_refl)
      | first [assumption | apply string_shape_nil]
      | default_shape_tac
      | intros ? ?; discriminate ]
  end.

Lemma parse_attribute_shaped st :
  shaped st ->
  holds (parse_attribute content (budget content)) st
    (fun _ st' => shaped st') shaped.
Proof.
  intros Hs. unfold parse_attribute. hgo2; try assumption;
    attribute_shape_tac.
Qed.


Lemma decode_model_shaped model_str st :
  shaped st ->
  holds (decode_model json_loads model_str) st
    (fun _ st' => shaped st') (fun _ => False).
Proof.
  intros Hs. unfold decode_model.
  destruct (json_loads (replace_squote model_str)); repeat hprim; assumption.
Qed.

Ltac hcall3 :=
  lazymatch goal with
  | |- holds (parse_attribute _ _) _ _ _ =>
      eapply holds_conseq;
      [apply parse_attribute_shaped; assumption
      | cbv beta; intros ? ? ? | cbv beta; intros ? ?]
  | |- holds (decode_model _ _) _ _ _ =>
      eapply holds_conseq;
      [apply decode_model_shaped; assumption
      | cbv beta; intros ? ? ? | cbv beta; intros ? []]
  | |- _ => hcall2
  end.

Ltac hgo3 := repeat first [hprim | hcall3].

Lemma parse_parameter_shaped ps st :
  shaped st -> params_shape ps ->
  holds (parse_parameter json_loads content (budget content) ps) st
    (fun r st' => shaped st' /\ fst r = Next /\ params_shape (snd r))
    (fun _ => False).
Proof.
  intros Hs (Hb & Hc & Hz). unfold parse_parameter. hgo3;
    try (split; [assumption | split; [reflexivity|]];
         unfold params_shape; simpl; auto; fail).
  eapply holds_conseq;
    [apply (holds_while (fun _ st2 => shaped st2) (fun _ st2 => shaped st2)
              (fun _ => False))
    | | trivial].
  - intros [] st2 Hs2. hgo3; assumption.
  - assumption.
  - intros [] st2 Hs2. hgo3.
    split; [assumption | split; [reflexivity|]]. unfold params_shape; auto.
Qed.

Lemma parse_entity_shaped st :
  shaped st ->
  holds (parse_entity json_loads content (budget content)) st
    (fun r st' => shaped st' /\ forall e, r = Some e -> entity_shape e)
    shaped.
Proof.
  intros Hs. unfold parse_entity. hgo3.
  eapply holds_conseq;
    [apply (holds_while (fun ps st2 => shaped st2 /\ params_shape ps)
              (fun ps st2 => shaped st2 /\ params_shape ps)
              (fun _ => False))
    | | intros ? []].
  - intros ps st2 [Hs2 Hps]. hgo3; try (now split).
    eapply holds_conseq;
      [apply parse_parameter_shaped; assumption | | trivial].
    cbv beta. intros [[|] ps'] st3 (Hs3 & Hn & Hps'); [|discriminate Hn].
    now split.
  - split; [assumption|]. repeat split; discriminate.
  - intros ps st2 [Hs2 Hps]. hgo3; try assumption;
      try (eapply holds_conseq;
           [apply (holds_while (fun _ st3 => shaped st3)
                     (fun _ st3 => shaped st3) shaped)
           | | trivial];
           [ intros ? ? ?; hgo3; assumption
           | assumption
           | intros ? ? ?; hgo3; try assumption ]);
      (split; [assumption|]; intros e [= <-]; unfold entity_shape;
       cbn [EntityClass.class_type EntityClass.base EntityClass.color
            EntityClass.size EntityClass.classname EntityClass.description];
       refine (conj (ex_intro _ _ (conj eq_refl _))
                 (conj _ (conj _ Hps)));
       first [assumption | apply string_shape_nil]).
Qed.

Lemma parse_shaped st :
  shaped st ->
  holds (parse json_loads content (budget content)) st
    (fun es st' => shaped st' /\ Forall entity_shape es) shaped.
Proof.
  intros Hs. unfold parse.
  apply (holds_while (fun es st1 => shaped st1 /\ Forall entity_shape es)).
  - intros es st1 [Hs1 Hes]. hgo3; try assumption; try (now split).
    eapply holds_conseq; [apply parse_entity_shaped; assumption | | trivial].
    cbv beta. intros [e|] st2 [Hs2 He]; hgo3; split; trivial.
    apply Forall_app. split; trivial. constructor; [now apply He | constructor].
  - split; [assumption | constructor].
Qed.

End Shapes.

Lemma entity_shape_map {A B} (f : list A -> list B) (e : EntityClass.t A) :
  entity_shape e -> entity_shape (EntityClass.map f e).
Proof. exact (fun H => H). Qed.

Lemma shaped_new_parser : shaped (FGDParser [] []).
Proof. split; constructor. Qed.

(** X13.  Every attribute of every entity that [parse] returns has a
    name that is not empty, is made of alphanumeric characters,
    underscores and dots and does not start with a digit; a type that is
    not empty, stripped and of at most 998 characters; a description and
    choice descriptions that are stripped, hold no quote and have at most
    999 characters; and a default, when present, that is either such a
    text or a run of digits, dots and minus signs that is not empty. *)
Theorem parsed_attributes_are_shaped json_loads content es printed e a :
  run_parse json_loads content = Returned es printed ->
  In e es ->
  In a (EntityClass.attributes e) ->
  attribute_shape a.
Proof.
  intros Hrun He Ha.
  pose proof (parse_shaped json_loads content _ shaped_new_parser) as H.
  unfold holds in H. unfold run_parse, observe in Hrun.
  destruct (parse json_loads content (budget content) (FGDParser [] []))
    as [es0 st|e0 st|]; try discriminate.
  injection Hrun as <- _. destruct H as [[Hh _] _].
  unfold snapshot in He. apply in_map_iff in He. destruct He as (e0 & <- & _).
  simpl in Ha.
  pose proof (deref_Forall _ _ (EntityClass.attributes e0) Hh) as Hd.
  rewrite Forall_forall in Hd. exact (Hd a Ha).
Qed.

(** X14.  Every entity that [parse] returns has a [class_type] that is
    the result of [str.lower] on a run of alphanumeric characters,
    underscores and dots; its [classname] is made of such characters; its
    description holds no quote, no white space at its ends and at most 999
    characters; and its [base], [color] and [size], when present, are
    stripped and hold at most 998 characters. *)
Theorem parsed_entities_are_shaped json_loads content es printed e :
  run_parse json_loads content = Returned es printed ->
  In e es ->
  entity_shape e.
Proof.
  intros Hrun He.
  pose proof (parse_shaped json_loads content _ shaped_new_parser) as H.
  unfold holds in H. unfold run_parse, observe in Hrun.
  destruct (parse json_loads content (budget content) (FGDParser [] []))
    as [es0 st|e0 st|]; try discriminate.
  injection Hrun as <- _. destruct H as [_ Hes].
  unfold snapshot in He. apply in_map_iff in He. destruct He as (e0 & <- & He).
  apply entity_shape_map. rewrite Forall_forall in Hes. now apply Hes.
Qed.

(** X15.  Whatever the content, a run of [parse] ends (it returns or
    raises), and every text it has printed by then with one call of
    [print] starts with [Warning: ]. *)
Theorem parse_prints_warnings_only json_loads content :
  match run_parse json_loads content with
  | Returned _ printed => Forall is_warning printed
  | Raised _ printed => Forall is_warning printed
  | Diverged => False
  end.
Proof.
  pose proof (parse_shaped json_loads content _ shaped_new_parser) as H.
  pose proof (parse_spec json_loads content (budget content)
                (budget_enough content) (FGDParser [] [])) as T.
  unfold holds in H. unfold wp in T. unfold run_parse, observe.
  destruct (parse json_loads content (budget content) (FGDParser [] []))
    as [es0 st|e0 st|]; trivial; apply H.
Qed.

Lemma all_chars_get p s :
  all_chars p s = true -> forall i c, String.get i s = Some c -> p c = true.
Proof.
  induction s as [|d s IH]; intros H i c G; [destruct i; discriminate|].
  rewrite all_chars_cons in H. apply andb_prop in H. destruct H as [H1 H2].
  destruct i as [|i]; simpl in G.
  - now injection G as <-.
  - exact (IH H2 i c G).
Qed.

Lemma consume_whitespace_moved content st (Q : unit -> state -> Prop) E :
  (forall p, Q tt (set_position p st)) ->
  holds (consume_whitespace content (budget content)) st Q E.
Proof.
  intros H.
  destruct (skip_loop content isspace _ (tests_in_bounds_peek content isspace)
              _ (budget content) st eq_refl (budget_slice_from _ _))
    as (ws & rest & _ & _ & _ & Hloop).
  eapply holds_eq; [exact Hloop | apply H].
Qed.

Lemma skip_line_moved content st (Q : unit -> state -> Prop) E :
  (forall p, Q tt (set_position p st)) ->
  holds (skip_line content (budget content)) st Q E.
Proof.
  intros H.
  destruct (skip_loop content (not_char newline) _
              (tests_in_bounds_peek content (not_char newline))
              _ (budget content) st eq_refl (budget_slice_from _ _))
    as (line & rest & _ & _ & _ & Hloop).
  eapply holds_eq; [|apply H].
  unfold skip_line. eapply bind_ok'; [exact Hloop | reflexivity].
Qed.

Lemma parse_skips_text json_loads content st :
  all_chars (not_char "@") content = true ->
  holds (parse json_loads content (budget content)) st
    (fun es st' => es = [] /\ exists p, st' = set_position p st)
    (fun _ => False).
Proof.
  intros Hno. unfold parse.
  apply (holds_while (fun es st1 => es = [] /\ exists p, st1 = set_position p st)).
  - intros es st1 [-> [p ->]].
    apply holds_in_bounds; intros Hb; [|split; [reflexivity | now exists p]].
    apply holds_bind, consume_whitespace_moved. intros p1.
    apply holds_bind, holds_at_end; intros He.
    { apply holds_ret. split; [reflexivity | now exists p1]. }
    apply holds_bind, holds_looking_at. intros [|].
    + apply holds_bind, skip_line_moved. intros p2.
      apply holds_ret. split; [reflexivity | now exists p2].
    + apply holds_bind, holds_peek; [|simpl in *; lia].
      intros c Hc. pose proof (all_chars_get _ _ Hno _ _ Hc) as Hat.
      unfold not_char in Hat. apply negb_true_iff in Hat. rewrite Hat.
      apply holds_bind, holds_advance_to, holds_ret.
      split; [reflexivity|]. now eexists.
  - split; [reflexivity|]. exists (position st). now destruct st.
Qed.

(** X16.  On a content without any [@], [parse] returns the empty list,
    prints nothing, creates no attribute and ends with the position at or
    behind the end of the content. *)
Theorem parse_without_entities json_loads content h out :
  all_chars (not_char "@") content = true ->
  exists p,
    length content <= p /\
    parse json_loads content (budget content) (FGDParser h out)
    = Ok [] (set_position p (FGDParser h out)).
Proof.
  intros Hno.
  pose proof (parse_skips_text json_loads content (FGDParser h out) Hno) as H.
  pose proof (parse_spec json_loads content (budget content)
                (budget_enough content) (FGDParser h out)) as T.
  unfold holds in H. unfold wp in T.
  destruct (parse json_loads content (budget content) (FGDParser h out))
    as [es st|e st|]; try contradiction.
  destruct H as [-> [p ->]]. exists p. split; [apply T | reflexivity].
Qed.

(** X6.  When 1000 characters without a quote follow the opening quote,
    [parse_string] gives up: it prints one warning that shows the first 50
    of them, returns the empty string and leaves the position behind the
    1000 characters it stepped over, whatever follows them. *)
Theorem parse_string_cap content st ws t rest :
  slice_from (position st) content = ws +++ String dquote (t +++ rest) ->
  all_chars isspace ws = true ->
  all_chars (not_char dquote) t = true ->
  String.length t = 1000 ->
  parse_string content (budget content) st
  = Ok ""
       (mkState (position st + String.length ws + 1001)
          (last_attribute st) (heap st)
          (stdout st ++
           ["Warning: Possible parsing error in string near: " +++
            substring 0 50 t +++ "..."])).
Proof. exact (parse_string_cap_eq content st ws t rest). Qed.

(** X7.  When the first character after the white space is not a quote,
    or the content ends there, [parse_string] returns the empty string and
    consumes the white space only. *)
Theorem parse_string_without_quote content st ws rest :
  slice_from (position st) content = ws +++ rest ->
  all_chars isspace ws = true ->
  stops isspace rest ->
  stops (fun c => (c =? dquote)%char) rest ->
  parse_string content (budget content) st
  = Ok "" (set_position (position st + String.length ws) st).
Proof. exact (parse_string_without_quote_eq content st ws rest). Qed.

(* ================================================================== *)
(** ** [closest_color_tag] *)


Lemma SFltb_irrefl x : SpecFloat.SFltb x x = false.
Proof.
  unfold SpecFloat.SFltb. destruct x as [s|s| |s m e]; simpl; trivial.
  - now destruct s.
  - rewrite Z.compare_refl. fold (Pos.compare m m). rewrite Pos.compare_refl.
    now destruct s.
Qed.

Lemma SFltb_top x y :
  SpecFloat.SFltb x (SpecFloat.S754_infinity false) = false -> SpecFloat.SFltb x y = false.
Proof.
  unfold SpecFloat.SFltb. destruct x as [s|s| |s m e]; simpl; try discriminate; trivial.
  destruct s; [discriminate|]. intros _.
  destruct y as [s'|s'| |s' m' e']; simpl; trivial; now destruct s'.
Qed.

Lemma SFltb_trans x y z :
  SpecFloat.SFltb x y = true -> SpecFloat.SFltb y z = true -> SpecFloat.SFltb x z = true.
Proof.
  unfold SpecFloat.SFltb.
  destruct x as [s1|s1| |s1 m1 e1], y as [s2|s2| |s2 m2 e2],
    z as [s3|s3| |s3 m3 e3]; simpl; try discriminate; trivial;
    try (destruct s1, s2, s3; simpl; trivial; discriminate);
    try (destruct s1, s2; simpl; trivial; discriminate);
    try (destruct s1, s3; simpl; trivial; discriminate);
    try (destruct s2, s3; simpl; trivial; discriminate).
  all: try (destruct s1; simpl; trivial; discriminate).
  all: try (destruct s2; simpl; trivial; discriminate).
  all: try (destruct s3; simpl; trivial; discriminate).
  all: fold (Pos.compare m1 m2); fold (Pos.compare m2 m3);
       fold (Pos.compare m1 m3).
  all: destruct s1, s2, s3; simpl; trivial; try discriminate.
  all: destruct (Z.compare_spec e1 e2), (Z.compare_spec e2 e3),
         (Z.compare_spec e1 e3); simpl; trivial; try discriminate; try lia.
  all: destruct (Pos.compare_spec m1 m2), (Pos.compare_spec m2 m3),
         (Pos.compare_spec m1 m3); simpl; trivial; try discriminate; try lia.
Qed.

Lemma ltb_irrefl x : PrimFloat.ltb x x = false.
Proof. rewrite FloatAxioms.ltb_spec. apply SFltb_irrefl. Qed.

Lemma ltb_trans x y z :
  PrimFloat.ltb x y = true -> PrimFloat.ltb y z = true ->
  PrimFloat.ltb x z = true.
Proof. rewrite !FloatAxioms.ltb_spec. apply SFltb_trans. Qed.

Lemma ltb_infinity x y :
  PrimFloat.ltb x PrimFloat.infinity = false -> PrimFloat.ltb x y = false.
Proof.
  rewrite !FloatAxioms.ltb_spec.
  change (FloatOps.Prim2SF PrimFloat.infinity) with (SpecFloat.S754_infinity false).
  apply SFltb_top.
Qed.

Section Closest.
Variable square : PrimFloat.float -> PrimFloat.float.
Variable sum : list PrimFloat.float -> PrimFloat.float.
Variable color : list PrimFloat.float.

Let d := BootstrapLevel.distance square sum color.

Lemma closest_fold tags : forall seen m t,
  (forall tag c, In (tag, c) seen -> PrimFloat.ltb (d c) m = false) ->
  (m = PrimFloat.infinity /\ t = "NONE" \/
   exists c, In (t, c) seen /\ m = d c) ->
  let r :=
    fold_left
      (fun '(min_distance, closest_tag) '(tag, tag_color) =>
         let distance := d tag_color in
         if PrimFloat.ltb distance min_distance then (distance, tag)
         else (min_distance, closest_tag))
      tags (m, t) in
  (forall tag c, In (tag, c) (seen ++ tags) ->
                 PrimFloat.ltb (d c) (fst r) = false) /\
  (fst r = PrimFloat.infinity /\ snd r = "NONE" \/
   exists c, In (snd r, c) (seen ++ tags) /\ fst r = d c).
Proof.
  induction tags as [|[tag c] tags IH]; intros seen m t Hmin Hsel; simpl.
  - rewrite app_nil_r. now split.
  - change (seen ++ (tag, c) :: tags) with (seen ++ [(tag, c)] ++ tags).
    rewrite app_assoc.
    destruct (PrimFloat.ltb (d c) m) eqn:Hlt.
    + apply IH.
      * intros tag' c' Hin. apply in_app_or in Hin. destruct Hin as [Hin|Hin].
        -- destruct (PrimFloat.ltb (d c') (d c)) eqn:Hc; trivial.
           pose proof (Hmin tag' c' Hin) as H1.
           rewrite (ltb_trans _ _ _ Hc Hlt) in H1. discriminate.
        -- destruct Hin as [[= <- <-]|[]]. apply ltb_irrefl.
      * right. exists c. split; trivial. apply in_or_app. right. now left.
    + apply IH.
      * intros tag' c' Hin. apply in_app_or in Hin. destruct Hin as [Hin|Hin].
        -- now apply (Hmin tag').
        -- now destruct Hin as [[= <- <-]|[]].
      * destruct Hsel as [?|(c0 & Hin & ->)]; [now left | right].
        exists c0. split; trivial. apply in_or_app. now left.
Qed.

End Closest.

(** X23.  [closest_color_tag] always returns one of the nine keys of
    [color_tags], [NONE] or [COLOR_01] .. [COLOR_08], and no colour of
    [color_tags] is strictly closer to the given colour than the colour of
    the key it returns. *)
Theorem closest_color_tag_is_closest square sum color :
  exists tag_color,
    In (BootstrapLevel.closest_color_tag square sum color, tag_color)
       BootstrapLevel.color_tags /\
    forall tag c,
      In (tag, c) BootstrapLevel.color_tags ->
      PrimFloat.ltb (BootstrapLevel.distance square sum color c)
        (BootstrapLevel.distance square sum color tag_color) = false.
Proof.
  destruct (closest_fold square sum color BootstrapLevel.color_tags []
              PrimFloat.infinity "NONE")
    as [Hmin Hsel].
  - intros tag c [].
  - now left.
  - cbn [app] in Hmin, Hsel.
    change (snd (fold_left _ BootstrapLevel.color_tags _))
      with (BootstrapLevel.closest_color_tag square sum color) in Hsel.
    destruct Hsel as [[Hinf ->]|(c & Hin & E)].
    + eexists. split; [left; reflexivity|].
      intros tag c Hin. apply ltb_infinity. rewrite <- Hinf.
      exact (Hmin tag c Hin).
    + exists c. split; trivial. intros tag c' Hin'. rewrite <- E.
      exact (Hmin tag c' Hin').
Qed.

(* ================================================================== *)
(** ** Examples of the methods *)

Lemma parse_string_closed_witness :
  parse_string quoted_text (budget quoted_text) (mkState 0 None [] [])
  = Ok "a lamp" (mkState 11 None [] []).
Proof.
  refine (eq_trans
            (parse_string_closed quoted_text (mkState 0 None [] [])
               "  " "a lamp " " [" _ _ _ _) _).
  - reflexivity.
  - reflexivity.
  - reflexivity.
  - vm_compute. lia.
  - vm_compute. reflexivity.
Defined.

Lemma parse_string_cap_witness :
  parse_string long_string (budget long_string) (mkState 0 None [] [])
  = Ok ""
       (mkState 1001 None []
          ["Warning: Possible parsing error in string near: " +++
           replicate 50 "a" +++ "..."]).
Proof.
  refine (eq_trans
            (parse_string_cap long_string (mkState 0 None [] [])
               "" (replicate 1000 "a") (q "") _ _ _ _) _).
  - reflexivity.
  - reflexivity.
  - vm_compute. reflexivity.
  - vm_compute. reflexivity.
  - vm_compute. reflexivity.
Defined.

Lemma parse_string_without_quote_witness :
  parse_string unquoted_text (budget unquoted_text) (mkState 0 None [] [])
  = Ok "" (mkState 2 None [] []).
Proof.
  refine (eq_trans
            (parse_string_without_quote unquoted_text (mkState 0 None [] [])
               "  " ": 3" _ _ _ _) _).
  - reflexivity.
  - reflexivity.
  - apply stops_cons. reflexivity.
  - apply stops_cons. reflexivity.
  - reflexivity.
Defined.

Lemma parse_parentheses_balanced_witness :
  parse_parentheses nested_group (budget nested_group) (mkState 0 None [] [])
  = Ok (Some "a(b (c)) d") (mkState 15 None [] []).
Proof.
  refine (eq_trans
            (parse_parentheses_balanced nested_group (mkState 0 None [] [])
               " " " a(b (c)) d " " = foo" _ _ _ _ _) _).
  - reflexivity.
  - reflexivity.
  - reflexivity.
  - reflexivity.
  - vm_compute. lia.
  - vm_compute. reflexivity.
Defined.

Lemma parse_parentheses_cap_witness :
  parse_parentheses long_group (budget long_group) (mkState 0 None [] [])
  = Ok None
       (mkState 1001 None []
          ["Warning: Possible parsing error near: " +++
           replicate 50 "8" +++ "..."]).
Proof.
  refine (eq_trans
            (parse_parentheses_cap long_group (mkState 0 None [] [])
               "" (replicate 999 "8") ")" " = foo" _ _ _ _) _).
  - reflexivity.
  - reflexivity.
  - vm_compute. reflexivity.
  - vm_compute. reflexivity.
  - vm_compute. reflexivity.
Defined.

Lemma parse_parentheses_without_group_witness :
  parse_parentheses no_group (budget no_group) (mkState 0 None [] [])
  = Ok None (mkState 2 None [] []).
Proof.
  refine (eq_trans
            (parse_parentheses_without_group no_group (mkState 0 None [] [])
               "  " "= foo" _ _ _ _) _).
  - reflexivity.
  - reflexivity.
  - apply stops_cons. reflexivity.
  - apply stops_cons. reflexivity.
  - reflexivity.
Defined.

Lemma parse_model_parameter_closed_witness :
  parse_model_parameter model_json (budget model_json) (mkState 0 None [] [])
  = Ok ("{" +++ q "path" +++ ": " +++ q "a)b" +++ ", " +++ q "n" +++ ": (1)}")
       (mkState 27 None [] []).
Proof.
  refine (eq_trans
            (parse_model_parameter_closed model_json (mkState 0 None [] [])
               ""
               ("{" +++ q "path" +++ ": " +++ q "a)b" +++ ", " +++ q "n"
                +++ ": (1)}")
               " = foo" _ _ _ _) _).
  - reflexivity.
  - reflexivity.
  - vm_compute. reflexivity.
  - vm_compute. reflexivity.
  - vm_compute. reflexivity.
Defined.

Lemma parse_model_parameter_open_witness :
  parse_model_parameter open_model (budget open_model) (mkState 0 None [] [])
  = Ok "models/lamp.md5mesh = foo" (mkState 27 None [] []).
Proof.
  refine (eq_trans
            (parse_model_parameter_open open_model (mkState 0 None [] [])
               "" "models/lamp.md5mesh = foo" _ _ _) _).
  - reflexivity.
  - reflexivity.
  - vm_compute. reflexivity.
  - vm_compute. reflexivity.
Defined.

Lemma parsed_attributes_are_shaped_witness :
  attribute_shape
    (Attribute.Make "second" "integer" "Second" None (Some off_on)).
Proof.
  apply (parsed_attributes_are_shaped not_json two_attributes [entity_lamp] []
           entity_lamp).
  - vm_compute. reflexivity.
  - simpl. auto.
  - simpl. auto.
Defined.

Lemma parsed_entities_are_shaped_witness : entity_shape entity_foo.
Proof.
  apply (parsed_entities_are_shaped not_json pointclass_foo [entity_foo] []).
  - vm_compute. reflexivity.
  - simpl. auto.
Defined.

Lemma parse_without_entities_witness :
  exists p,
    length comments_only <= p /\
    parse not_json comments_only (budget comments_only) (FGDParser [] [])
    = Ok [] (set_position p (FGDParser [] [])).
Proof.
  apply (parse_without_entities not_json comments_only [] []).
  vm_compute. reflexivity.
Defined.

(* ================================================================== *)
(** ** [update_entity_properties] *)

Lemma delitem_app pre key v obj :
  Forall (fun kv => fst kv <> key) pre ->
  Obj.delitem key (pre ++ (key, v) :: obj) = Some (pre ++ obj).
Proof.
  induction 1 as [|[k w] pre Hk _ IH]; simpl.
  - now rewrite String.eqb_refl.
  - simpl in Hk. destruct (String.eqb_spec k key); [contradiction|].
    now rewrite IH.
Qed.

Lemma clear_properties_app pre obj :
  Forall (fun kv => fst kv = "entity_props") pre ->
  clear_properties (Obj.keys obj) (pre ++ obj) = Some (pre ++ kept obj).
Proof.
  revert pre. induction obj as [|[k v] obj IH]; intros pre Hpre; simpl.
  - reflexivity.
  - destruct (String.eqb_spec k "entity_props") as [->|Hk]; simpl.
    + change (pre ++ ("entity_props", v) :: obj)
        with (pre ++ [("entity_props", v)] ++ obj).
      rewrite app_assoc, IH.
      * now rewrite <- app_assoc.
      * apply Forall_app. split; trivial. now constructor.
    + rewrite delitem_app.
      * now apply IH.
      * eapply Forall_impl; [|exact Hpre]. simpl. intros kv ->.
        intros E. now apply Hk.
Qed.

Lemma clear_properties_keys obj :
  clear_properties (Obj.keys obj) obj = Some (kept obj).
Proof. exact (clear_properties_app [] obj (Forall_nil _)). Qed.

Lemma getitem_setitem key value obj k :
  Obj.getitem k (Obj.setitem key value obj)
  = if (key =? k)%string then Some value else Obj.getitem k obj.
Proof.
  induction obj as [|[k' v'] obj IH]; simpl; trivial.
  destruct (String.eqb_spec k' key) as [->|Hk]; simpl.
  - destruct (key =? k)%string; reflexivity.
  - rewrite IH. destruct (String.eqb_spec k' k) as [->|]; trivial.
    destruct (String.eqb_spec key k) as [->|]; [contradiction | reflexivity].
Qed.

Lemma getitem_kept obj k :
  Obj.getitem k (kept obj)
  = if (k =? "entity_props")%string then Obj.getitem k obj else None.
Proof.
  unfold kept.
  induction obj as [|[k' v'] obj IH]; cbn [filter Obj.getitem fst].
  - now destruct (k =? "entity_props")%string.
  - destruct (String.eqb_spec k' "entity_props") as [->|Hk];
      cbn [Obj.getitem]; rewrite IH.
    + rewrite (String.eqb_sym "entity_props" k).
      now destruct (k =? "entity_props")%string.
    + destruct (String.eqb_spec k "entity_props") as [E|]; trivial.
      destruct (String.eqb_spec k' k) as [E'|]; trivial.
      elim Hk. congruence.
Qed.

(** What [write_attributes] leaves under a key: the value it writes
    there, or else what was there. *)
Lemma getitem_write_attributes self attributes : forall obj k,
  Obj.getitem k (write_attributes self attributes obj)
  = match Obj.getitem k (write_attributes self attributes []) with
    | Some v => Some v
    | None => Obj.getitem k obj
    end.
Proof.
  induction attributes as [|attr attributes IH]; intros obj k;
    cbn [write_attributes Obj.getitem]; trivial.
  destruct (startswith "_" (Attribute.name attr)); [apply IH|].
  cbv zeta.
  destruct (EntityPropertyGroup.getattr self ("prop_" +++ Attribute.name attr))
    as [value|]; [|apply IH].
  destruct (has_value value); [|apply IH].
  rewrite (IH (Obj.setitem _ _ obj)), (IH (Obj.setitem _ _ [])).
  destruct (Obj.getitem k (write_attributes self attributes [])); trivial.
  rewrite !getitem_setitem. cbn [Obj.getitem].
  now destruct (Attribute.name attr =? k)%string.
Qed.

(** The mapping after the call, when there is an active object. *)
Lemma update_entity_properties_some ENTITY_CLASSES self obj :
  exists obj',
    update_entity_properties ENTITY_CLASSES self (Some obj) = Some (Some obj') /\
    forall k,
      Obj.getitem k obj'
      = match
          Obj.getitem k
            (if (EntityPropertyGroup.entity_classname self =? "none")%string
             then []
             else
               match
                 find (fun e =>
                         (EntityClass.classname e
                          =? EntityPropertyGroup.entity_classname self)%string)
                   ENTITY_CLASSES
               with
               | None =>
                   [("classname",
                     JString (EntityPropertyGroup.entity_classname self))]
               | Some entity_class =>
                   write_attributes self (EntityClass.attributes entity_class)
                     [("classname",
                       JString (EntityPropertyGroup.entity_classname self))]
               end)
        with
        | Some v => Some v
        | None =>
            if (k =? "entity_props")%string then Obj.getitem k obj else None
        end.
Proof.
  unfold update_entity_properties. rewrite clear_properties_keys.
  destruct (EntityPropertyGroup.entity_classname self =? "none")%string.
  - eexists. split; [reflexivity|]. intros k. cbn [Obj.getitem].
    apply getitem_kept.
  - destruct (find _ ENTITY_CLASSES) as [entity_class|].
    + eexists. split; [reflexivity|]. intros k.
      rewrite getitem_write_attributes.
      rewrite (getitem_write_attributes self _ [_]).
      destruct (Obj.getitem k (write_attributes self _ [])); trivial.
      rewrite getitem_setitem, getitem_kept. cbn [Obj.getitem].
      now destruct ("classname" =? k)%string.
    + eexists. split; [reflexivity|]. intros k.
      rewrite getitem_setitem, getitem_kept. cbn [Obj.getitem].
      now destruct ("classname" =? k)%string.
Qed.

(** X19.  When the class name of the property group is [none],
    [update_entity_properties] removes every custom property of the active
    object except [entity_props], keeps that one with its value, and
    writes nothing, not even [classname]. *)
Theorem update_entity_properties_none ENTITY_CLASSES self obj :
  EntityPropertyGroup.entity_classname self = "none" ->
  update_entity_properties ENTITY_CLASSES self (Some obj)
  = Some (Some (kept obj)).
Proof.
  intros E. unfold update_entity_properties.
  now rewrite clear_properties_keys, E.
Qed.

(** X20.  On an object whose custom properties behave as a [dict],
    [update_entity_properties] never raises, and the custom properties it
    leaves depend on the property group and on the
    [entity_props] entry of the object only: two objects that agree on
    [entity_props] end with the same properties, whatever they held
    before. *)
Theorem update_entity_properties_forgets ENTITY_CLASSES self obj1 obj2 :
  Obj.getitem "entity_props" obj1 = Obj.getitem "entity_props" obj2 ->
  exists r1 r2,
    update_entity_properties ENTITY_CLASSES self (Some obj1) = Some (Some r1) /\
    update_entity_properties ENTITY_CLASSES self (Some obj2) = Some (Some r2) /\
    forall k, Obj.getitem k r1 = Obj.getitem k r2.
Proof.
  intros E.
  destruct (update_entity_properties_some ENTITY_CLASSES self obj1)
    as (r1 & H1 & G1).
  destruct (update_entity_properties_some ENTITY_CLASSES self obj2)
    as (r2 & H2 & G2).
  exists r1, r2. split; [exact H1 | split; [exact H2|]].
  intros k. rewrite G1, G2.
  destruct (Obj.getitem k _); trivial.
  destruct (String.eqb_spec k "entity_props") as [->|]; trivial.
Qed.

(** X21.  [update_entity_properties] is idempotent: a second run with
    the same property group leaves every custom property of the object as
    the first run left it. *)
Theorem update_entity_properties_idempotent ENTITY_CLASSES self obj :
  exists r r',
    update_entity_properties ENTITY_CLASSES self (Some obj) = Some (Some r) /\
    update_entity_properties ENTITY_CLASSES self (Some r) = Some (Some r') /\
    forall k, Obj.getitem k r' = Obj.getitem k r.
Proof.
  destruct (update_entity_properties_some ENTITY_CLASSES self obj)
    as (r & H & G).
  destruct (update_entity_properties_some ENTITY_CLASSES self r)
    as (r' & H' & G').
  exists r, r'. split; [exact H | split; [exact H'|]].
  intros k. rewrite G', G.
  destruct (Obj.getitem k _); trivial.
  now destruct (k =? "entity_props")%string.
Qed.

Lemma getitem_write_attributes_inv self attributes : forall obj k v,
  Obj.getitem k (write_attributes self attributes obj) = Some v ->
  Obj.getitem k obj = Some v \/
  exists attr,
    In attr attributes /\ Attribute.name attr = k /\
    startswith "_" k = false /\
    EntityPropertyGroup.getattr self ("prop_" +++ k) = Some v /\
    has_value v = true.
Proof.
  induction attributes as [|attr attributes IH]; intros obj k v;
    cbn [write_attributes]; [now left|].
  assert (Hrest : forall o,
            Obj.getitem k (write_attributes self attributes o) = Some v ->
            Obj.getitem k o = Some v \/
            exists attr0,
              In attr0 (attr :: attributes) /\ Attribute.name attr0 = k /\
              startswith "_" k = false /\
              EntityPropertyGroup.getattr self ("prop_" +++ k) = Some v /\
              has_value v = true).
  { intros o H. destruct (IH o k v H) as [G|(a & Ha & R)]; [now left|].
    right. exists a. split; [now right | exact R]. }
  destruct (startswith "_" (Attribute.name attr)) eqn:Hu; [apply Hrest|].
  cbv zeta.
  destruct (EntityPropertyGroup.getattr self ("prop_" +++ Attribute.name attr))
    as [value|] eqn:Hg; [|apply Hrest].
  destruct (has_value value) eqn:Hv; [|apply Hrest].
  intros H. destruct (Hrest _ H) as [G|R]; [|now right].
  rewrite getitem_setitem in G.
  destruct (String.eqb_spec (Attribute.name attr) k) as [E|]; [|now left].
  injection G as <-. right. exists attr. subst k.
  repeat split; trivial. now left.
Qed.

(** X22.  Apart from [entity_props] and [classname], every custom
    property that [update_entity_properties] leaves on the object is named
    after an attribute of the selected entity class whose name does not
    start with an underscore, and its value is the value of the [prop_]
    field of the property group for that attribute, which is neither
    [None] nor the empty string. *)
Theorem update_entity_properties_values ENTITY_CLASSES self obj r k v :
  update_entity_properties ENTITY_CLASSES self (Some obj) = Some (Some r) ->
  Obj.getitem k r = Some v ->
  k <> "entity_props" -> k <> "classname" ->
  exists entity_class attr,
    find (fun e =>
            (EntityClass.classname e
             =? EntityPropertyGroup.entity_classname self)%string)
      ENTITY_CLASSES = Some entity_class /\
    In attr (EntityClass.attributes entity_class) /\
    Attribute.name attr = k /\
    startswith "_" k = false /\
    EntityPropertyGroup.getattr self ("prop_" +++ k) = Some v /\
    has_value v = true.
Proof.
  intros H G Hep Hcn.
  destruct (update_entity_properties_some ENTITY_CLASSES self obj)
    as (r0 & H0 & G0).
  rewrite H in H0. injection H0 as <-. rewrite G0 in G.
  destruct (String.eqb_spec k "entity_props"); [contradiction|].
  destruct (EntityPropertyGroup.entity_classname self =? "none")%string;
    [discriminate|].
  destruct (find _ ENTITY_CLASSES) as [entity_class|].
  - destruct (Obj.getitem k (write_attributes self _ _)) as [v'|] eqn:W;
      [|discriminate].
    injection G as ->.
    destruct (getitem_write_attributes_inv _ _ _ _ _ W) as [C|(attr & R)].
    + cbn [Obj.getitem] in C.
      destruct (String.eqb_spec "classname" k) as [E|]; [|discriminate].
      now elim Hcn.
    + exists entity_class, attr. split; [reflexivity | exact R].
  - cbn [Obj.getitem] in G.
    destruct (String.eqb_spec "classname" k) as [E|]; [|discriminate].
    now elim Hcn.
Qed.

Lemma update_entity_properties_none_witness :
  update_entity_properties [entity_foo] group_none (Some object_lamp)
  = Some (Some [("entity_props", JDict [])]).
Proof.
  refine (eq_trans
            (update_entity_properties_none [entity_foo] group_none object_lamp _)
            _).
  - reflexivity.
  - reflexivity.
Defined.

Lemma update_entity_properties_forgets_witness :
  exists r1 r2,
    update_entity_properties [entity_foo] group_foo (Some object_lamp)
    = Some (Some r1) /\
    update_entity_properties [entity_foo] group_foo
      (Some [("entity_props", JDict [])]) = Some (Some r2) /\
    forall k, Obj.getitem k r1 = Obj.getitem k r2.
Proof.
  apply (update_entity_properties_forgets [entity_foo] group_foo object_lamp
           [("entity_props", JDict [])]).
  reflexivity.
Defined.

Lemma update_entity_properties_values_witness :
  exists entity_class attr,
    find (fun e =>
            (EntityClass.classname e
             =? EntityPropertyGroup.entity_classname group_foo)%string)
      [entity_foo] = Some entity_class /\
    In attr (EntityClass.attributes entity_class) /\
    Attribute.name attr = "attr" /\
    startswith "_" "attr" = false /\
    EntityPropertyGroup.getattr group_foo ("prop_" +++ "attr") = Some (JInt 3) /\
    has_value (JInt 3) = true.
Proof.
  apply (update_entity_properties_values [entity_foo] group_foo object_lamp
           [("entity_props", JDict []); ("classname", JString "foo");
            ("attr", JInt 3)]).
  - vm_compute. reflexivity.
  - reflexivity.
  - discriminate.
  - discriminate.
Defined.

(* ================================================================== *)
(** ** Well-formed attributes and choices *)

Section WellFormed.
Variable content : string.

Lemma parse_identifier_given st ws r rest :
  slice_from (position st) content = ws +++ r +++ rest ->
  all_chars isspace ws = true ->
  stops isspace (r +++ rest) ->
  all_chars identifier_char r = true ->
  stops identifier_char rest ->
  parse_identifier content (budget content) st
  = Ok r (set_position (position st + String.length ws + String.length r) st).
Proof.
  intros E Hws Hsp Hr Hrest.
  pose proof (slice_from_app _ _ _ _ E) as E1.
  unfold parse_identifier.
  eapply bind_ok'; [exact (consume_whitespace_given _ _ _ _ E Hws Hsp)|].
  eapply bind_ok'; [reflexivity|].
  eapply bind_ok'.
  { apply (skip_loop_given content identifier_char _ _ r rest);
      [apply tests_in_bounds_peek | exact E1 | exact Hr | exact Hrest]. }
  eapply bind_ok'; [reflexivity|]. unfold ret. f_equal.
  cbn [position set_position]. exact (slice_app _ _ _ _ E1).
Qed.

Lemma colon_given st rest :
  slice_from (position st) content = String ":" rest ->
  (in_bounds content &&& (c <- peek content ;; ret (c =? ":")%char)) st
  = Ok true st.
Proof.
  intros E.
  rewrite (tests_in_bounds_peek content (fun c => (c =? ":")%char) st).
  now rewrite (cur_given _ _ _ _ E).
Qed.

Lemma stops_space_cons c s : isspace c = false -> stops isspace (String c s).
Proof. apply stops_cons. Qed.

Lemma space_not_identifier c : isspace c = true -> identifier_char c = false.
Proof. destruct c as [[] [] [] [] [] [] [] []]; vm_compute; congruence. Qed.

Lemma at_after a b r rest :
  slice_from a content = r +++ rest -> b = a + String.length r ->
  slice_from b content = rest.
Proof. intros E ->. exact (slice_from_app _ _ _ _ E). Qed.

Lemma stops_after_space (p : ascii -> bool) ws c rest :
  all_chars isspace ws = true ->
  (forall d, isspace d = true -> p d = false) -> p c = false ->
  stops p (ws +++ String c rest).
Proof.
  intros Hws Hp Hc. destruct ws as [|w ws]; [now apply stops_cons|].
  rewrite all_chars_cons in Hws. apply andb_prop in Hws.
  apply stops_cons. apply Hp. apply Hws.
Qed.

Ltac fix_state :=
  repeat match goal with x := _ : nat |- _ => subst x end;
  unfold set_position; cbn [position last_attribute heap stdout];
  lazymatch goal with
  | |- mkState ?a _ _ _ = mkState ?b _ _ _ =>
      replace a with b by (cbn [String.length]; lia); reflexivity
  end.

(** X17.  On a well-formed attribute line
    [name(type) : "description" : "default"], with any white space between
    the parts, [parse_attribute] stores one new attribute that has exactly
    this name, the stripped type, the stripped description and the
    stripped default and no choices, returns it, remembers it as the last
    attribute, prints nothing and stops just behind the quote that closes
    the default. *)
Theorem parse_attribute_well_formed st ws0 name ws1 ty ws2 ws3 desc ws4 ws5 dflt rest :
  slice_from (position st) content
  = ws0 +++ name +++ ws1 +++
    String "(" (ty +++ String ")" (ws2 +++
    String ":" (ws3 +++ String dquote (desc +++ String dquote (ws4 +++
    String ":" (ws5 +++ String dquote (dflt +++ String dquote rest))))))) ->
  all_chars isspace ws0 = true -> all_chars isspace ws1 = true ->
  all_chars isspace ws2 = true -> all_chars isspace ws3 = true ->
  all_chars isspace ws4 = true -> all_chars isspace ws5 = true ->
  name <> "" -> all_chars identifier_char name = true ->
  stops isdigit name -> name <> "choices" ->
  stays_open 1 ty = true -> depth 1 ty = 1%Z -> String.length ty < 999 ->
  strip ty <> "" ->
  all_chars (not_char dquote) desc = true -> String.length desc < 1000 ->
  all_chars (not_char dquote) dflt = true -> String.length dflt < 1000 ->
  parse_attribute content (budget content) st
  = Ok (Some (List.length (heap st)))
       (mkState
          (position st + String.length ws0 + String.length name +
           String.length ws1 + String.length ty + String.length ws2 +
           String.length ws3 + String.length desc + String.length ws4 +
           String.length ws5 + String.length dflt + 8)
          (Some (List.length (heap st)))
          (heap st ++
           [Attribute.Make name (strip ty) (strip desc) (Some (strip dflt))
              None])
          (stdout st)).
Proof.
  intros E Hws0 Hws1 Hws2 Hws3 Hws4 Hws5 Hne Hid Hdig Hch Hopen Hdepth Hty
    Hstrip Hdesc Hldesc Hdflt Hldflt.
  destruct name as [|c0 name']; [now elim Hne|].
  pose proof Hid as Hid0.
  rewrite all_chars_cons in Hid0. apply andb_prop in Hid0.
  destruct Hid0 as [Hc0 _].
  pose proof (identifier_not_space c0 Hc0) as Hc0s.
  pose proof (Hdig c0 name' eq_refl) as Hc0d.
  set (name := String c0 name') in *.
  set (R11 := String dquote (dflt +++ String dquote rest)) in *.
  set (R9 := String ":" (ws5 +++ R11)) in *.
  set (R7 := String dquote (desc +++ String dquote (ws4 +++ R9))) in *.
  set (R5 := String ":" (ws3 +++ R7)) in *.
  set (R3 := String "(" (ty +++ String ")" (ws2 +++ R5))) in *.
  set (p := position st) in *.
  set (n1 := String.length ws0).
  set (n2 := n1 + String.length name).
  set (n3 := n2 + String.length ws1).
  set (n4 := n3 + String.length ty + 2).
  set (n5 := n4 + String.length ws2).
  set (n6 := n5 + 1).
  set (n7 := n6 + String.length ws3).
  set (n8 := n7 + String.length desc + 2).
  set (n9 := n8 + String.length ws4).
  set (n10 := n9 + 1).
  set (n11 := n10 + String.length ws5).
  set (n12 := n11 + String.length dflt + 2).
  assert (E1 : slice_from (p + n1) content = name +++ ws1 +++ R3)
    by (apply (at_after _ _ _ _ E); reflexivity).
  assert (E2 : slice_from (p + n2) content = ws1 +++ R3)
    by (apply (at_after _ _ _ _ E1); unfold n2; lia).
  assert (E3 : slice_from (p + n3) content = R3)
    by (apply (at_after _ _ _ _ E2); unfold n3; lia).
  assert (E4 : slice_from (p + n4) content = ws2 +++ R5).
  { apply (at_after (p + n3) _ (String "(" (ty +++ String ")" ""))).
    - rewrite E3. unfold R3. cbn [String.append]. now rewrite append_assoc.
    - cbn [String.length]. rewrite length_append. cbn [String.length].
      unfold n4. lia. }
  assert (E5 : slice_from (p + n5) content = R5)
    by (apply (at_after _ _ _ _ E4); unfold n5; lia).
  assert (E6 : slice_from (p + n6) content = ws3 +++ R7)
    by (apply (at_after (p + n5) _ ":"); [exact E5 | unfold n6; simpl; lia]).
  assert (E7 : slice_from (p + n7) content = R7)
    by (apply (at_after _ _ _ _ E6); unfold n7; lia).
  assert (E8 : slice_from (p + n8) content = ws4 +++ R9).
  { apply (at_after (p + n7) _ (String dquote (desc +++ String dquote ""))).
    - rewrite E7. unfold R7. cbn [String.append]. now rewrite append_assoc.
    - cbn [String.length]. rewrite length_append. cbn [String.length].
      unfold n8. lia. }
  assert (E9 : slice_from (p + n9) content = R9)
    by (apply (at_after _ _ _ _ E8); unfold n9; lia).
  assert (E10 : slice_from (p + n10) content = ws5 +++ R11)
    by (apply (at_after (p + n9) _ ":"); [exact E9 | unfold n10; simpl; lia]).
  assert (E11 : slice_from (p + n11) content = R11)
    by (apply (at_after _ _ _ _ E10); unfold n11; lia).
  assert (Hspace : forall ws c r,
            all_chars isspace ws = true -> isspace c = false ->
            stops isspace (String c r))
    by (intros; now apply stops_cons).
  unfold parse_attribute.
  eapply bind_ok'; [reflexivity|].
  (* the name *)
  eapply bind_ok' with (st' := set_position (p + n1) st).
  { rewrite (consume_whitespace_given content st ws0 (name +++ ws1 +++ R3));
      [apply f_equal2; [reflexivity | fix_state] | ..]; trivial;
      now apply stops_cons. }
  eapply bind_ok';
    [exact (at_end_given content (set_position (p + n1) st) c0 _ E1)|].
  cbv iota.
  eapply bind_ok';
    [exact (peek_given content (set_position (p + n1) st) c0 _ E1)|].
  rewrite Hc0d.
  eapply bind_ok' with (a := name) (st' := set_position (p + n2) st).
  { rewrite (parse_identifier_given (set_position (p + n1) st) "" name
               (ws1 +++ R3));
      [apply f_equal2; [reflexivity | fix_state] | ..]; trivial.
    - now apply stops_cons.
    - apply stops_after_space; trivial. apply space_not_identifier. }
  change (is_empty name) with false. cbv iota.
  eapply bind_ok' with (st' := set_position (p + n3) st).
  { rewrite (consume_whitespace_given content (set_position (p + n2) st) ws1 R3);
      [apply f_equal2; [reflexivity | fix_state] | ..]; trivial;
      now apply stops_cons. }
  cbv zeta.
  replace (name =? "choices")%string with false
    by (symmetry; now apply String.eqb_neq).
  (* the type *)
  eapply bind_ok' with (a := Some (strip ty))
                       (st' := set_position (p + n4) st).
  { rewrite (parse_parentheses_balanced_eq content (set_position (p + n3) st)
               "" ty (ws2 +++ R5));
      [apply f_equal2; [reflexivity | fix_state] | ..]; trivial. }
  replace (is_empty (strip ty)) with false
    by (destruct (strip ty); [now elim Hstrip | reflexivity]).
  cbv iota.
  (* the description *)
  eapply bind_ok' with (st' := set_position (p + n5) st).
  { rewrite (consume_whitespace_given content (set_position (p + n4) st) ws2 R5);
      [apply f_equal2; [reflexivity | fix_state] | ..]; trivial;
      now apply stops_cons. }
  eapply bind_ok';
    [exact (colon_given (set_position (p + n5) st) _ E5)|].
  cbv iota.
  eapply bind_ok' with
    (a := (strip desc, Some (strip dflt)))
    (st' := set_position (p + n12) st).
  { eapply bind_ok' with (st' := set_position (p + n6) st);
      [unfold advance; apply f_equal2; [reflexivity | fix_state]|].
    eapply bind_ok' with (st' := set_position (p + n7) st).
    { rewrite (consume_whitespace_given content (set_position (p + n6) st)
                 ws3 R7); [apply f_equal2; [reflexivity | fix_state] | ..]; trivial;
      now apply stops_cons. }
    eapply bind_ok' with (a := strip desc) (st' := set_position (p + n8) st).
    { rewrite (parse_string_read content (set_position (p + n7) st) "" desc
                 (String dquote (ws4 +++ R9)));
        [apply f_equal2; [reflexivity | fix_state] | ..]; trivial.
      now apply stops_cons. }
    eapply bind_ok' with (st' := set_position (p + n9) st).
    { rewrite (consume_whitespace_given content (set_position (p + n8) st)
                 ws4 R9); [apply f_equal2; [reflexivity | fix_state] | ..]; trivial;
      now apply stops_cons. }
    eapply bind_ok';
      [exact (colon_given (set_position (p + n9) st) _ E9)|].
    cbv iota.
    eapply bind_ok' with (st' := set_position (p + n10) st);
      [unfold advance; apply f_equal2; [reflexivity | fix_state]|].
    eapply bind_ok' with (st' := set_position (p + n11) st).
    { rewrite (consume_whitespace_given content (set_position (p + n10) st)
                 ws5 R11); [apply f_equal2; [reflexivity | fix_state] | ..]; trivial;
      now apply stops_cons. }
    eapply bind_ok';
      [exact (peek_given content (set_position (p + n11) st) dquote _ E11)|].
    change (dquote =? dquote)%char with true. cbv iota.
    eapply bind_ok' with (a := strip dflt) (st' := set_position (p + n12) st).
    { rewrite (parse_string_read content (set_position (p + n11) st) "" dflt
                 (String dquote rest));
        [apply f_equal2; [reflexivity | fix_state] | ..]; trivial.
      now apply stops_cons. }
    reflexivity. }
  cbv beta iota.
  eapply bind_ok'; [reflexivity|]. eapply bind_ok'; [reflexivity|].
  unfold ret. f_equal. subst name. fix_state.
Qed.

Lemma space_not_key c : isspace c = true -> key_char c = false.
Proof. destruct c as [[] [] [] [] [] [] [] []]; vm_compute; congruence. Qed.

Lemma key_loop_given key : forall v st rest n,
  slice_from (position st) content = key +++ rest ->
  all_chars key_char key = true -> stops key_char rest ->
  String.length key < n ->
  while n
    (fun _ => in_bounds content &&&
              (c <- peek content ;; ret (isdigit c || (c =? "-")%char)))
    (fun value => c <- peek content ;; advance 1 ;;
                  ret (Next, value +++ String c ""))
    v st
  = Ok (v +++ key) (set_position (position st + String.length key) st).
Proof.
  induction key as [|c key IH]; intros v st rest n E Hk Hrest Hn;
    (destruct n as [|n]; [simpl in Hn; lia|]); cbn [while];
    unfold bind at 1;
    rewrite (tests_in_bounds_peek content
               (fun c => isdigit c || (c =? "-")%char) st), slice_from_cur, E.
  - cbn [String.append]. rewrite append_nil_r, set_position_same.
    destruct rest as [|d rest]; [reflexivity|].
    pose proof (Hrest d rest eq_refl) as Hd. unfold key_char in Hd.
    now rewrite Hd.
  - rewrite all_chars_cons in Hk. apply andb_prop in Hk. destruct Hk as [Hc Hk].
    cbn [String.append]. cbv iota. unfold key_char in Hc. rewrite Hc.
    eapply bind_ok'.
    { eapply bind_ok'; [exact (peek_given content st c _ E)|]. reflexivity. }
    cbv beta iota.
    rewrite (IH (v +++ String c "") (set_position (position st + 1) st) rest n).
    + rewrite append_assoc. cbn [String.append]. apply f_equal2; trivial.
      fix_state.
    + apply (at_after _ _ (String c "") _ E). reflexivity.
    + exact Hk.
    + exact Hrest.
    + simpl in Hn. lia.
Qed.

Lemma length_render_lines lines :
  List.length lines <= String.length (render_lines lines).
Proof.
  induction lines as [|l lines IH]; simpl; trivial.
  unfold render_line. rewrite !length_append. simpl. rewrite !length_append.
  simpl. lia.
Qed.

Lemma render_line_app l tail :
  render_line l +++ tail
  = cl_indent l +++ cl_key l +++ cl_gap1 l +++
    String ":" (cl_gap2 l +++ String dquote (cl_text l +++ String dquote tail)).
Proof.
  unfold render_line.
  repeat (rewrite !append_assoc; cbn [String.append]). reflexivity.
Qed.

Lemma length_render_line l :
  String.length (render_line l)
  = String.length (cl_indent l) + String.length (cl_key l) +
    String.length (cl_gap1 l) + String.length (cl_gap2 l) +
    String.length (cl_text l) + 3.
Proof.
  unfold render_line. rewrite !length_append. cbn [String.length].
  rewrite !length_append. cbn [String.length]. rewrite !length_append.
  cbn [String.length]. lia.
Qed.

Lemma key_char_first c :
  key_char c = true -> (c =? "]")%char = false /\ ("/" =? c)%char = false.
Proof. destruct c as [[] [] [] [] [] [] [] []]; vm_compute; intuition congruence. Qed.

Lemma in_bounds_given st c r :
  slice_from (position st) content = String c r ->
  in_bounds content st = Ok true st.
Proof.
  intros E. apply slice_from_cons in E. destruct E as [G _].
  apply get_Some in G. unfold in_bounds.
  replace (position st <? length content) with true
    by (symmetry; apply Nat.ltb_lt; exact G).
  reflexivity.
Qed.

Lemma choices_loop_line n choices st l tail :
  slice_from (position st) content = render_line l +++ tail ->
  well_formed_line l ->
  choices_loop content (budget content) (S n) choices st
  = choices_loop content (budget content) n (choices ++ [choice_of l])
      (set_position (position st + String.length (render_line l)) st).
Proof.
  intros E (Hindent & Hne & Hkey & Hgap1 & Hgap2 & Htext & Hlen).
  rewrite render_line_app in E. rewrite length_render_line.
  destruct l as [indent key gap1 gap2 text]. cbn [cl_indent cl_key cl_gap1
    cl_gap2 cl_text choice_of] in *.
  destruct key as [|c0 key']; [now elim Hne|].
  pose proof Hkey as Hkey0. rewrite all_chars_cons in Hkey0.
  apply andb_prop in Hkey0. destruct Hkey0 as [Hc0 _].
  pose proof (key_char_not_space c0 Hc0) as Hc0s.
  destruct (key_char_first c0 Hc0) as [Hc0b Hc0c].
  set (key := String c0 key') in *.
  set (R5 := String dquote (text +++ String dquote tail)) in *.
  set (R3 := String ":" (gap2 +++ R5)) in *.
  set (p := position st) in *.
  set (n1 := String.length indent).
  set (n2 := n1 + String.length key).
  set (n3 := n2 + String.length gap1).
  set (n4 := n3 + 1).
  set (n5 := n4 + String.length gap2).
  set (n6 := n5 + String.length text + 2).
  assert (E1 : slice_from (p + n1) content = key +++ gap1 +++ R3)
    by (apply (at_after _ _ _ _ E); reflexivity).
  assert (E2 : slice_from (p + n2) content = gap1 +++ R3)
    by (apply (at_after _ _ _ _ E1); unfold n2; lia).
  assert (E3 : slice_from (p + n3) content = R3)
    by (apply (at_after _ _ _ _ E2); unfold n3; lia).
  assert (E4 : slice_from (p + n4) content = gap2 +++ R5)
    by (apply (at_after (p + n3) _ ":"); [exact E3 | unfold n4; simpl; lia]).
  assert (E5 : slice_from (p + n5) content = R5)
    by (apply (at_after _ _ _ _ E4); unfold n5; lia).
  unfold choices_loop at 1. cbn [while].
  eapply bind_ok'.
  { destruct indent as [|i0 indent'].
    - exact (in_bounds_given st c0 _ E).
    - exact (in_bounds_given st i0 _ E). }
  cbv iota.
  eapply bind_ok' with (a := (Next, choices ++ [Choice.Make key (strip text)]))
    (st' := set_position (p + n6) st).
  { eapply bind_ok' with (st' := set_position (p + n1) st).
    { rewrite (consume_whitespace_given content st indent
                 (key +++ gap1 +++ R3));
        [apply f_equal2; [reflexivity | fix_state] | ..]; trivial.
      now apply stops_cons. }
    eapply bind_ok';
      [exact (peek_given content (set_position (p + n1) st) c0 _ E1)|].
    rewrite Hc0b.
    eapply bind_ok' with (a := false); [|cbv iota].
    { unfold looking_at. cbn [position set_position]. rewrite E1.
      unfold key. cbn [String.append startswith]. now rewrite Hc0c. }
    eapply bind_ok' with (a := key) (st' := set_position (p + n2) st).
    { rewrite (key_loop_given key "" (set_position (p + n1) st) (gap1 +++ R3));
        [apply f_equal2; [reflexivity | fix_state] | ..]; trivial.
      - apply stops_after_space; trivial. apply space_not_key.
      - exact (length_run_fuel content (p + n1) key _ E1). }
    change (is_empty key) with false. cbv iota.
    eapply bind_ok' with (st' := set_position (p + n3) st).
    { rewrite (consume_whitespace_given content (set_position (p + n2) st)
                 gap1 R3);
        [apply f_equal2; [reflexivity | fix_state] | ..]; trivial.
      now apply stops_cons. }
    eapply bind_ok';
      [exact (peek_given content (set_position (p + n3) st) ":" _ E3)|].
    change (":" =? ":")%char with true. cbv iota.
    eapply bind_ok' with (st' := set_position (p + n4) st);
      [unfold advance; apply f_equal2; [reflexivity | fix_state]|].
    eapply bind_ok' with (st' := set_position (p + n5) st).
    { rewrite (consume_whitespace_given content (set_position (p + n4) st)
                 gap2 R5);
        [apply f_equal2; [reflexivity | fix_state] | ..]; trivial.
      now apply stops_cons. }
    eapply bind_ok';
      [exact (peek_given content (set_position (p + n5) st) dquote _ E5)|].
    change (dquote =? dquote)%char with true. cbv iota.
    eapply bind_ok' with (a := strip text) (st' := set_position (p + n6) st).
    { rewrite (parse_string_read content (set_position (p + n5) st) "" text
                 (String dquote tail));
        [apply f_equal2; [reflexivity | fix_state] | ..]; trivial.
      now apply stops_cons. }
    unfold ret. now rewrite (strip_keys key Hkey). }
  cbv beta iota. unfold choices_loop. f_equal. subst key. fix_state.
Qed.

Lemma choices_loop_end n choices st gap rest :
  slice_from (position st) content = gap +++ String "]" rest ->
  all_chars isspace gap = true ->
  choices_loop content (budget content) (S n) choices st
  = Ok choices (set_position (position st + String.length gap + 1) st).
Proof.
  intros E Hgap.
  pose proof (slice_from_app _ _ _ _ E) as E1.
  unfold choices_loop. cbn [while].
  eapply bind_ok'.
  { destruct gap as [|g0 gap'].
    - exact (in_bounds_given st "]" _ E).
    - exact (in_bounds_given st g0 _ E). }
  cbv iota.
  eapply bind_ok' with (a := (Break, choices)); [|reflexivity].
  eapply bind_ok'.
  { apply (consume_whitespace_given content st gap (String "]" rest)); trivial.
    now apply stops_cons. }
  eapply bind_ok';
    [exact (peek_given content
              (set_position (position st + String.length gap) st) "]" _ E1)|].
  reflexivity.
Qed.

Lemma choices_loop_lines lines : forall n choices st gap rest,
  slice_from (position st) content
  = render_lines lines +++ gap +++ String "]" rest ->
  Forall well_formed_line lines ->
  all_chars isspace gap = true ->
  List.length lines < n ->
  choices_loop content (budget content) n choices st
  = Ok (choices ++ List.map choice_of lines)
       (set_position
          (position st + String.length (render_lines lines) +
           String.length gap + 1) st).
Proof.
  induction lines as [|l lines IH]; intros n choices st gap rest E Hwf Hgap Hn;
    (destruct n as [|n]; [simpl in Hn; lia|]).
  - cbn [render_lines String.append] in E.
    rewrite (choices_loop_end n choices st gap rest E Hgap).
    cbn [List.map render_lines String.length]. rewrite app_nil_r.
    apply f_equal2; trivial. fix_state.
  - inversion Hwf as [|? ? Hl Hls]; subst.
    cbn [render_lines] in E. rewrite append_assoc in E.
    rewrite (choices_loop_line n choices st l _ E Hl).
    rewrite (IH n _ _ gap rest); trivial.
    + cbn [List.map render_lines]. rewrite <- app_assoc. cbn [app].
      apply f_equal2; trivial. rewrite length_append. fix_state.
    + exact (at_after _ _ _ _ E eq_refl).
    + simpl in Hn. lia.
Qed.

(** X18.  On a well-formed block [= [ value : "text" ... ]],
    [parse_choices] returns one [Choice] for each line, in the order of
    the lines, with the value as written and the text stripped, and stops
    just behind the closing bracket. *)
Theorem parse_choices_well_formed st gap0 lines gap rest :
  slice_from (position st) content
  = String "=" (gap0 +++
    String "[" (render_lines lines +++ gap +++ String "]" rest)) ->
  all_chars isspace gap0 = true ->
  Forall well_formed_line lines ->
  all_chars isspace gap = true ->
  parse_choices content (budget content) st
  = Ok (List.map choice_of lines)
       (set_position
          (position st + String.length gap0 +
           String.length (render_lines lines) + String.length gap + 3) st).
Proof.
  intros E Hgap0 Hwf Hgap.
  set (R1 := String "[" (render_lines lines +++ gap +++ String "]" rest)) in *.
  set (p := position st) in *.
  assert (E1 : slice_from (p + 1) content = gap0 +++ R1)
    by (apply (at_after p _ "="); [exact E | reflexivity]).
  assert (E2 : slice_from (p + 1 + String.length gap0) content = R1)
    by exact (at_after _ _ _ _ E1 eq_refl).
  assert (E3 : slice_from (p + 1 + String.length gap0 + 1) content
               = render_lines lines +++ gap +++ String "]" rest)
    by (apply (at_after (p + 1 + String.length gap0) _ "["); trivial).
  unfold parse_choices.
  eapply bind_ok'; [reflexivity|].
  eapply bind_ok'.
  { apply (consume_whitespace_given content (set_position (p + 1) st) gap0 R1);
      trivial. now apply stops_cons. }
  eapply bind_ok';
    [exact (peek_given content
              (set_position (p + 1 + String.length gap0) st) "[" _ E2)|].
  change (negb ("[" =? "[")%char) with false. cbv iota.
  eapply bind_ok'; [reflexivity|].
  change (while (budget content) _ _ [])
    with (choices_loop content (budget content) (budget content) []).
  rewrite (choices_loop_lines lines (budget content) [] _ gap rest); trivial.
  - apply f_equal2; trivial. fix_state.
  - pose proof (length_render_lines lines) as L.
    pose proof (length_run_fuel content _ (render_lines lines) _ E3). lia.
Qed.

End WellFormed.

Lemma parse_attribute_well_formed_witness :
  parse_attribute attribute_text (budget attribute_text) (mkState 0 None [] [])
  = Ok (Some 0)
       (mkState 44 (Some 0)
          [Attribute.Make "light_radius" "integer" "Radius" (Some "300") None]
          []).
Proof.
  refine (eq_trans
            (parse_attribute_well_formed attribute_text (mkState 0 None [] [])
               "  " "light_radius" " " "integer" " " " " "Radius " " " " "
               "300" (nl +++ "]")
               _ _ _ _ _ _ _ _ _ _ _ _ _ _ _ _ _ _ _) _).
  - reflexivity.
  - reflexivity.
  - reflexivity.
  - reflexivity.
  - reflexivity.
  - reflexivity.
  - reflexivity.
  - discriminate.
  - reflexivity.
  - apply stops_cons. reflexivity.
  - discriminate.
  - reflexivity.
  - reflexivity.
  - vm_compute. lia.
  - discriminate.
  - reflexivity.
  - vm_compute. lia.
  - reflexivity.
  - vm_compute. lia.
  - vm_compute. reflexivity.
Defined.

Lemma parse_choices_well_formed_witness :
  parse_choices choices_text (budget choices_text) (mkState 0 None [] [])
  = Ok [Choice.Make "0" "Off"; Choice.Make "1" "On"] (mkState 29 None [] []).
Proof.
  refine (eq_trans
            (parse_choices_well_formed choices_text (mkState 0 None [] [])
               " " choices_lines nl nl _ _ _ _) _).
  - reflexivity.
  - reflexivity.
  - repeat constructor; simpl; try discriminate; lia.
  - reflexivity.
  - vm_compute. reflexivity.
Defined.

(* ================================================================== *)
(** ** The model parameter of an entity *)

Section Head.
Variable json_loads : string -> json_result.
Variable content : string.


















End Head.






